(** * SecouristIA: document structuring and hybrid retrieval

    A shallow embedding of the TypeScript sources of the repository:
    the import script (fiche parser and fallback chunker), the chat routes
    (hybrid search) and the fiche route (result formatting).

    JavaScript strings are sequences of UTF-16 code units; they are modelled
    as [list N].  JavaScript numbers that hold similarity scores are modelled
    as rationals ([Q], exact arithmetic); offsets into strings are [nat] or
    [Z] where the source relies on the value [-1]. *)

From Stdlib Require Import ZArith NArith QArith Qminmax Lia Lqa.
From Stdlib Require Import Strings.String Strings.Ascii.
From Stdlib Require Import Sorting.Sorted Sorting.Permutation.
From stdpp Require Import base option list gmap.

Local Open Scope N_scope.

(** ** JavaScript strings *)

Abbreviation jsstring := (list N).

(** Decoding of a UTF-8 literal of this file into UTF-16 code units. *)
Fixpoint utf16 (bs : list N) : jsstring :=
  match bs with
  | [] => []
  | b0 :: r0 =>
      if b0 <? 0x80 then b0 :: utf16 r0
      else if b0 <? 0xE0 then
        match r0 with
        | b1 :: r1 =>
            N.lor (N.shiftl (N.land b0 0x1F) 6) (N.land b1 0x3F) :: utf16 r1
        | _ => [0xFFFD]
        end
      else if b0 <? 0xF0 then
        match r0 with
        | b1 :: b2 :: r2 =>
            N.lor (N.shiftl (N.land b0 0x0F) 12)
              (N.lor (N.shiftl (N.land b1 0x3F) 6) (N.land b2 0x3F)) :: utf16 r2
        | _ => [0xFFFD]
        end
      else
        match r0 with
        | b1 :: b2 :: b3 :: r3 =>
            let cp :=
              N.lor (N.shiftl (N.land b0 0x07) 18)
                (N.lor (N.shiftl (N.land b1 0x3F) 12)
                   (N.lor (N.shiftl (N.land b2 0x3F) 6) (N.land b3 0x3F))) in
            let v := cp - 0x10000 in
            (0xD800 + N.shiftr v 10) :: (0xDC00 + N.land v 0x3FF) :: utf16 r3
        | _ => [0xFFFD]
        end
  end.

Definition js (s : string) : jsstring :=
  utf16 (List.map N_of_ascii (list_ascii_of_string s)).

Definition LF : N := 10.
Definition CR : N := 13.
Definition SP : N := 32.

(** The class [\s] of regular expressions, which is also the set of code
    units removed by [String.prototype.trim]: WhiteSpace and LineTerminator. *)
Definition isWhiteSpace (c : N) : bool :=
  ((9 <=? c) && (c <=? 13)) || (c =? 0x20) || (c =? 0xA0) || (c =? 0x1680)
  || ((0x2000 <=? c) && (c <=? 0x200A)) || (c =? 0x2028) || (c =? 0x2029)
  || (c =? 0x202F) || (c =? 0x205F) || (c =? 0x3000) || (c =? 0xFEFF).

(** The class [\d]. *)
Definition isDigit (c : N) : bool := (0x30 <=? c) && (c <=? 0x39).

(** The class [[A-Z]]. *)
Definition isUpperAZ (c : N) : bool := (0x41 <=? c) && (c <=? 0x5A).

(** What [.] matches without the [s] flag: anything but a line terminator. *)
Definition isLineTerminator (c : N) : bool :=
  (c =? 0x0A) || (c =? 0x0D) || (c =? 0x2028) || (c =? 0x2029).

(** Comparison of an input code unit with an ASCII letter of a pattern under
    the [i] flag (no [u] flag): both are canonicalised by upper-casing, and a
    code unit above 127 never canonicalises to an ASCII one, so that only the
    two ASCII cases of the letter match.  [upper] is the upper-case letter. *)
Definition ciLetter (upper : N) (c : N) : bool := (c =? upper) || (c =? upper + 32).

(** Longest prefix whose code units satisfy [p], and the rest: a greedy
    [p*]. *)
Fixpoint span (p : N → bool) (s : jsstring) : jsstring * jsstring :=
  match s with
  | [] => ([], [])
  | c :: r => if p c then let '(a, b) := span p r in (c :: a, b) else ([], s)
  end.

(** Exactly [n] code units satisfying [p]: [p{n}]. *)
Fixpoint takeN (p : N → bool) (n : nat) (s : jsstring) : option (jsstring * jsstring) :=
  match n with
  | O => Some ([], s)
  | S n' =>
      match s with
      | c :: r =>
          if p c then
            match takeN p n' r with
            | Some (a, b) => Some (c :: a, b)
            | None => None
            end
          else None
      | [] => None
      end
  end.

(** One given code unit. *)
Definition expect (c : N) (s : jsstring) : option jsstring :=
  match s with
  | d :: r => if d =? c then Some r else None
  | [] => None
  end.

(** A literal prefix, compared code unit by code unit. *)
Fixpoint startsWith (lit s : jsstring) : bool :=
  match lit, s with
  | [], _ => true
  | a :: lit', b :: s' => (a =? b) && startsWith lit' s'
  | _ :: _, [] => false
  end.

(** [String.prototype.includes]: [sub] occurs somewhere in [s]. *)
Fixpoint includes (s sub : jsstring) : bool :=
  startsWith sub s || match s with [] => false | _ :: r => includes r sub end.

Definition trimStart (s : jsstring) : jsstring := (span isWhiteSpace s).2.
Definition trimEnd (s : jsstring) : jsstring := rev (trimStart (rev s)).
Definition trim (s : jsstring) : jsstring := trimEnd (trimStart s).

(** [s.slice(a, b)] for offsets that are natural numbers. *)
Definition slice (s : jsstring) (a b : nat) : jsstring := take (b - a) (drop a s).

(** [s.replace(/p{k,}/g, repl)]: every maximal run of at least [k] (with
    [k >= 1]) code units of the class [p] is replaced by [repl].  [run] holds
    the current run, last code unit first. *)
Definition flushRun (k : nat) (repl run : jsstring) : jsstring :=
  match run with
  | [] => []
  | _ => if (k <=? length run)%nat then repl else rev run
  end.

Fixpoint replaceRunsFrom (p : N → bool) (k : nat) (repl run s : jsstring) : jsstring :=
  match s with
  | [] => flushRun k repl run
  | c :: r =>
      if p c then replaceRunsFrom p k repl (c :: run) r
      else flushRun k repl run ++ c :: replaceRunsFrom p k repl [] r
  end.

Definition replaceRuns (p : N → bool) (k : nat) (repl s : jsstring) : jsstring :=
  replaceRunsFrom p k repl [] s.

(** [s.replace(/\r\n/g, "\n")]. *)
Fixpoint replaceCRLF (s : jsstring) : jsstring :=
  match s with
  | [] => []
  | c :: r =>
      match r with
      | d :: r' => if (c =? CR) && (d =? LF) then LF :: replaceCRLF r' else c :: replaceCRLF r
      | [] => [c]
      end
  end.


(** * The import script (src/unnamed/part_001) *)

Module Import_script.

Definition CHUNK_SIZE : Z := 500.
Definition CHUNK_OVERLAP : Z := 100.

(** ** Fiche headers: [PSE_FICHE_PATTERN]

    [/\[(\d{2})(AC|PR|FT)(\d+)\s*\/\s*(\d{2})-(\d{4})\]/g].  Each greedy
    quantifier is followed by a class or a code unit disjoint from what it
    repeats, so that the longest repetition is the only one that can succeed:
    the pattern is matched from left to right without backtracking. *)

Record RegExpMatch := {
  fullMatch : jsstring;
  g_chapter : jsstring;
  g_ficheType : jsstring;
  g_ficheNumber : jsstring;
  g_month : jsstring;
  g_year : jsstring
}.

(** The alternation [(AC|PR|FT)]. *)
Definition ficheTypeCode (s : jsstring) : option (jsstring * jsstring) :=
  match s with
  | a :: b :: r =>
      if startsWith (js "AC") s || startsWith (js "PR") s || startsWith (js "FT") s
      then Some ([a; b], r) else None
  | _ => None
  end.

(** The pattern matched at the beginning of [s]. *)
Definition matchHeader (s : jsstring) : option RegExpMatch :=
  r0 ← expect 0x5B s;
  '(chapter, r1) ← takeN isDigit 2 r0;
  '(ficheType, r2) ← ficheTypeCode r1;
  let '(ficheNumber, r3) := span isDigit r2 in
  match ficheNumber with
  | [] => None
  | _ =>
      let '(_, r4) := span isWhiteSpace r3 in
      r5 ← expect 0x2F r4;
      let '(_, r6) := span isWhiteSpace r5 in
      '(month, r7) ← takeN isDigit 2 r6;
      r8 ← expect 0x2D r7;
      '(year, r9) ← takeN isDigit 4 r8;
      r10 ← expect 0x5D r9;
      Some {| fullMatch := take (length s - length r10) s;
              g_chapter := chapter; g_ficheType := ficheType;
              g_ficheNumber := ficheNumber; g_month := month; g_year := year |}
  end.

(** The first offset at or after [i] at which the pattern matches; [s] is the
    text from offset [i] on. *)
Fixpoint searchFrom (s : jsstring) (i : nat) : option (nat * RegExpMatch) :=
  match matchHeader s with
  | Some m => Some (i, m)
  | None => match s with [] => None | _ :: r => searchFrom r (S i) end
  end.

(** [regex.exec(text)] of a global regular expression whose [lastIndex] is
    [lastIndex]: the match and its offset, the new [lastIndex] being the end
    of the match. *)
Definition exec (text : jsstring) (lastIndex : nat) : option (nat * RegExpMatch) :=
  searchFrom (drop lastIndex text) lastIndex.

(** [while ((match = regex.exec(cleanedText)) !== null) matches.push(...)]. *)
Fixpoint execLoop (fuel : nat) (text : jsstring) (lastIndex : nat) : list (nat * RegExpMatch) :=
  match fuel with
  | O => []
  | S fuel' =>
      match exec text lastIndex with
      | None => []
      | Some (i, m) => (i, m) :: execLoop fuel' text (i + length (fullMatch m))
      end
  end.

(** Every match holds at least one code unit, so that the loop runs at most
    once per code unit of the text (see [execLoop_fuel]). *)
Definition findMatches (text : jsstring) : list (nat * RegExpMatch) :=
  execLoop (S (length text)) text 0.

(** ** Lookup tables *)

Definition CHAPTER_NAMES : list (jsstring * jsstring) :=
  [ (js "01", js "Attitude et comportement");
    (js "02", js "Bilans");
    (js "03", js "Protection et sécurité");
    (js "04", js "Hygiène et asepsie");
    (js "05", js "Urgences vitales");
    (js "06", js "Malaises et affections");
    (js "07", js "Atteintes circonstancielles");
    (js "08", js "Traumatismes");
    (js "09", js "Souffrance psychique");
    (js "10", js "Relevage et brancardage");
    (js "11", js "Situations à nombreuses victimes");
    (js "12", js "Divers") ].

Definition FICHE_TYPES : list (jsstring * jsstring) :=
  [ (js "AC", js "Apport de Connaissances");
    (js "PR", js "Procédure");
    (js "FT", js "Fiche Technique") ].

(** [table[key]] on an object literal with string values. *)
Fixpoint property (table : list (jsstring * jsstring)) (key : jsstring) : option jsstring :=
  match table with
  | [] => None
  | (k, v) :: rest => if decide (k = key) then Some v else property rest key
  end.

(** [a || b] on strings: the empty string is falsy, [undefined] is [None]. *)
Definition orElse (a : option jsstring) (b : jsstring) : jsstring :=
  match a with
  | Some (c :: r) => c :: r
  | _ => b
  end.

(** ** [detectPSELevel] *)

(** [/PSE\s*[g1]/i] matched at the beginning of [s], for the glyph [g]
    and the digit [d]. *)
Definition matchLevel (g d : N) (s : jsstring) : bool :=
  match s with
  | p :: s1 :: e :: r =>
      ciLetter 0x50 p && ciLetter 0x53 s1 && ciLetter 0x45 e &&
      match (span isWhiteSpace r).2 with
      | c :: _ => (c =? g) || (c =? d)
      | [] => false
      end
  | _ => false
  end.

(** [regex.test(text)] of a regular expression without the [g] flag: the
    pattern matches at some offset. *)
Fixpoint test (matcher : jsstring → bool) (s : jsstring) : bool :=
  matcher s || match s with [] => false | _ :: r => test matcher r end.

Definition detectPSELevel (text : jsstring) : option N :=
  if test (matchLevel 0x2460 0x31) text then Some 1
  else if test (matchLevel 0x2461 0x32) text then Some 2
  else None.

(** ** [splitIntoChunks]: the fallback splitter *)

(** [s.lastIndexOf(c, position)] for a search string of one code unit: the
    last offset at most [position] that holds [c], or [-1]. *)
Fixpoint lastIndexIn (c : N) (s : jsstring) (i found : Z) : Z :=
  match s with
  | [] => found
  | d :: r => lastIndexIn c r (i + 1)%Z (if d =? c then i else found)
  end.

Definition lastIndexOf (s : jsstring) (c : N) (position : Z) : Z :=
  lastIndexIn c (take (Z.to_nat (Z.max 0 position + 1)) s) 0 (-1).

(** An argument of [slice] made an offset: a negative one counts from the
    end, and both are clamped to the string. *)
Definition relativeIndex (len : nat) (k : Z) : nat :=
  if (k <? 0)%Z then Z.to_nat (Z.max (Z.of_nat len + k) 0) else Nat.min (Z.to_nat k) len.

Definition sliceZ (s : jsstring) (a b : Z) : jsstring :=
  slice s (relativeIndex (length s) a) (relativeIndex (length s) b).

Definition cleanChunkText (text : jsstring) : jsstring :=
  trim (replaceRuns isWhiteSpace 1 [SP]
          (replaceRuns (N.eqb LF) 3 [LF; LF] (replaceCRLF text))).

(** The end offset of the window that starts at [start]. *)
Definition windowEnd (cleanedText : jsstring) (start : Z) : Z :=
  let len := Z.of_nat (length cleanedText) in
  let end0 := (start + CHUNK_SIZE)%Z in
  if (end0 <? len)%Z then
    let lastPeriod := lastIndexOf cleanedText 0x2E end0 in
    let lastNewline := lastIndexOf cleanedText LF end0 in
    let breakPoint := Z.max lastPeriod lastNewline in
    if (start + CHUNK_SIZE / 2 <? breakPoint)%Z then (breakPoint + 1)%Z else end0
  else end0.

(** [while (start < cleanedText.length) { ... }]. *)
Fixpoint chunkLoop (fuel : nat) (cleanedText : jsstring) (start : Z) : list jsstring :=
  match fuel with
  | O => []
  | S fuel' =>
      if (start <? Z.of_nat (length cleanedText))%Z then
        let end_ := windowEnd cleanedText start in
        let chunk := trim (sliceZ cleanedText start end_) in
        (if (50 <? length chunk)%nat then [chunk] else [])
          ++ chunkLoop fuel' cleanedText (end_ - CHUNK_OVERLAP)%Z
      else []
  end.

(** Every round moves [start] forward (see [chunkLoop_fuel]), so that the
    length of the text bounds the number of rounds. *)
Definition splitIntoChunks (text : jsstring) : list jsstring :=
  let cleanedText := cleanChunkText text in
  chunkLoop (S (length cleanedText)) cleanedText 0.

(** ** [splitIntoPSEFiches]: the structural parser *)

Record PSEFiche := {
  content : jsstring;
  chapter : jsstring;
  chapterName : jsstring;
  ficheType : jsstring;
  ficheTypeName : jsstring;
  ficheRef : jsstring;
  ficheNumber : jsstring;
  updateDate : jsstring;
  pseLevel : option N
}.

(** [/\n\s*\n\s*\n/] matched at the beginning of [s]; the result is the
    number of code units matched.  All of the match lies in the run of white
    space that starts at [s]; the first [\s*] gives back code units until two
    line feeds are left for the rest of the pattern, and the second [\s*]
    then reaches the last line feed of the run: the match goes from the first
    line feed to the last one of the run, which must hold two line feeds
    after the first. *)
Definition matchBlankLines (s : jsstring) : option nat :=
  match s with
  | c :: r =>
      if c =? LF then
        let ws := (span isWhiteSpace r).1 in
        let upToLastLF := rev (span (λ d, negb (d =? LF)) (rev ws)).2 in
        if (2 <=? length (filter (λ d, d = LF) ws))%nat
        then Some (S (length upToLastLF)) else None
      else None
  | [] => None
  end.

(** [s.replace(/\n\s*\n\s*\n/g, "\n\n")]; [skip] counts the code units
    of the current match that are still to be passed over. *)
Fixpoint replaceBlankLinesFrom (skip : nat) (s : jsstring) : jsstring :=
  match s with
  | [] => []
  | c :: r =>
      match skip with
      | S k => replaceBlankLinesFrom k r
      | O =>
          match matchBlankLines s with
          | Some n => LF :: LF :: replaceBlankLinesFrom (n - 1) r
          | None => c :: replaceBlankLinesFrom 0 r
          end
      end
  end.

Definition replaceBlankLines (s : jsstring) : jsstring := replaceBlankLinesFrom 0 s.

Definition cleanText (text : jsstring) : jsstring :=
  trim (replaceRuns (N.eqb LF) 4 [LF; LF; LF] (replaceCRLF text)).

(** The second cleaning of a fiche's content. *)
Definition normalizeContent (ficheContent : jsstring) : jsstring :=
  trim (replaceBlankLines (replaceRuns isWhiteSpace 3 [SP; SP] ficheContent)).

(** The offsets [startIndex] and [endIndex] of round [i] of the loop. *)
Definition ficheSpan (cleanedText : jsstring) (matches : list (nat * RegExpMatch))
    (i : nat) (currentMatch : nat * RegExpMatch) : nat * nat :=
  let nextMatch := matches !! S i in
  let startIndex := currentMatch.1 in
  let endIndex :=
    match nextMatch with
    | Some nm => nm.1
    | None => length cleanedText
    end in
  (startIndex, endIndex).

(** The body of [for (let i = 0; i < matches.length; i++)]. *)
Definition ficheOfMatch (cleanedText : jsstring) (matches : list (nat * RegExpMatch))
    (i : nat) (currentMatch : nat * RegExpMatch) : PSEFiche :=
  let '(startIndex, endIndex) := ficheSpan cleanedText matches i currentMatch in
  let ficheContent := trim (slice cleanedText startIndex endIndex) in
  let m := currentMatch.2 in
  let ficheRef := g_chapter m ++ g_ficheType m ++ g_ficheNumber m in
  let pseLevel := detectPSELevel (slice ficheContent 0 200) in
  let ficheContent := normalizeContent ficheContent in
  {| content := ficheContent;
     chapter := g_chapter m;
     chapterName := orElse (property CHAPTER_NAMES (g_chapter m))
                      (js "Chapitre " ++ g_chapter m);
     ficheType := g_ficheType m;
     ficheTypeName := orElse (property FICHE_TYPES (g_ficheType m)) (g_ficheType m);
     ficheRef := ficheRef;
     ficheNumber := g_ficheNumber m;
     updateDate := g_month m ++ [0x2D] ++ g_year m;
     pseLevel := pseLevel |}.

Definition splitIntoPSEFiches (text : jsstring) : list PSEFiche :=
  let cleanedText := cleanText text in
  let matches := findMatches cleanedText in
  imap (ficheOfMatch cleanedText matches) matches.

End Import_script.

(** * Retrieval: what the three routes share *)

Module Retrieval.

(** [s.split("\n")] and the like: the pieces between the occurrences of one
    code unit.  [word] holds the current piece, last code unit first. *)
Fixpoint splitOn (sep : N) (word s : jsstring) : list jsstring :=
  match s with
  | [] => [rev word]
  | c :: r => if c =? sep then rev word :: splitOn sep [] r else splitOn sep (c :: word) r
  end.

(** [s.split(/\s+/)]: the pieces between the maximal runs of white space;
    [inSep] tells that the previous code unit was white space. *)
Fixpoint splitWhiteSpaceFrom (word : jsstring) (inSep : bool) (s : jsstring) : list jsstring :=
  match s with
  | [] => [rev word]
  | c :: r =>
      if isWhiteSpace c then
        if inSep then splitWhiteSpaceFrom [] true r
        else rev word :: splitWhiteSpaceFrom [] true r
      else splitWhiteSpaceFrom (c :: word) false r
  end.

Definition splitWhiteSpace (s : jsstring) : list jsstring := splitWhiteSpaceFrom [] false s.

(** [pieces.join(sep)]. *)
Fixpoint join (sep : jsstring) (pieces : list jsstring) : jsstring :=
  match pieces with
  | [] => []
  | [p] => p
  | p :: rest => p ++ sep ++ join sep rest
  end.

(** [Array.from(new Set(l))]: the first occurrence of every value, in order. *)
Fixpoint uniqueFrom (seen : gset jsstring) (l : list jsstring) : list jsstring :=
  match l with
  | [] => []
  | x :: r => if decide (x ∈ seen) then uniqueFrom seen r else x :: uniqueFrom ({[x]} ∪ seen) r
  end.

Definition unique (l : list jsstring) : list jsstring := uniqueFrom ∅ l.

(** [String.prototype.toLowerCase] and [toUpperCase] follow the Unicode case
    tables, which are not modelled: the development holds for every pair of
    functions that acts on ASCII strings as JavaScript does. *)
Definition isASCII (c : N) : bool := c <? 128.
Definition asciiLower (c : N) : N := if (0x41 <=? c) && (c <=? 0x5A) then c + 32 else c.
Definition asciiUpper (c : N) : N := if (0x61 <=? c) && (c <=? 0x7A) then c - 32 else c.

Class CaseMapping := {
  toLowerCase : jsstring → jsstring;
  toUpperCase : jsstring → jsstring;
  toLowerCase_ascii s : forallb isASCII s = true → toLowerCase s = List.map asciiLower s;
  toUpperCase_ascii s : forallb isASCII s = true → toUpperCase s = List.map asciiUpper s
}.

(** A value in a boolean position: [undefined] and the empty string are
    falsy. *)
Definition truthy (s : option jsstring) : bool :=
  match s with
  | Some (_ :: _) => true
  | _ => false
  end.

(** ** Exceptions *)

Inductive Completion (A : Type) : Type :=
  | Normal (a : A)
  | Throw (err : jsstring).
Arguments Normal {A} a.
Arguments Throw {A} err.

#[global] Instance Completion_ret : MRet Completion := λ A a, Normal a.
#[global] Instance Completion_bind : MBind Completion := λ A B f m,
  match m with
  | Normal a => f a
  | Throw err => Throw err
  end.

(** [try { body } catch (err) { return fallback }]. *)
Definition tryCatch {A} (body : Completion A) (fallback : A) : A :=
  match body with
  | Normal a => a
  | Throw _ => fallback
  end.

(** ** Records and external services *)

Record DocumentMatch := {
  id : Z;
  content : jsstring;
  source : jsstring;
  similarity : Q;
  fiche_ref : option jsstring
}.

(** A row of the table [documents], as [select] returns it. *)
Record Row := {
  row_id : Z;
  row_content : jsstring;
  row_source : jsstring;
  row_fiche_ref : option jsstring
}.

(** [{ ...doc, similarity }]. *)
Definition withSimilarity (doc : Row) (sim : Q) : DocumentMatch :=
  {| id := row_id doc; content := row_content doc; source := row_source doc;
     similarity := sim; fiche_ref := row_fiche_ref doc |}.

(** What the query builder of the store has been told. *)
Record Query := {
  columns : jsstring;
  ilikes : list (jsstring * jsstring);
  orFilter : option jsstring;
  limit : nat
}.

Definition select (cols : jsstring) : Query :=
  {| columns := cols; ilikes := []; orFilter := None; limit := 0 |}.
Definition ilike (q : Query) (column pattern : jsstring) : Query :=
  {| columns := columns q; ilikes := ilikes q ++ [(column, pattern)];
     orFilter := orFilter q; limit := limit q |}.
Definition or (q : Query) (conditions : jsstring) : Query :=
  {| columns := columns q; ilikes := ilikes q; orFilter := Some conditions;
     limit := limit q |}.
Definition withLimit (q : Query) (n : nat) : Query :=
  {| columns := columns q; ilikes := ilikes q; orFilter := orFilter q; limit := n |}.

(** [`%${word}%`]. *)
Definition percent (word : jsstring) : jsstring := [0x25] ++ word ++ [0x25].

(** [{ data, error }] of the store's client. *)
Record Response (A : Type) := {
  data : option A;
  error : option jsstring
}.
Arguments data {A} r.
Arguments error {A} r.

Inductive ContentBlock :=
  | TextBlock (text : jsstring)
  | OtherBlock.

(** The collaborators of a route: the embedding service, the store (its
    remote procedure [match_documents] and its table [documents]) and the
    generation service.  Any call may throw. *)
Record Services := {
  generateEmbedding : jsstring → Completion (list Q);
  match_documents : list Q → Q → nat → Completion (Response (list DocumentMatch));
  runQuery : Query → Completion (Response (list Row));
  messages_create : jsstring → jsstring → Completion (list ContentBlock)
}.

(** ** Steps of the merge *)

(** [for (const doc of allResults) if (!seen.has(doc.id)) { seen.add(doc.id);
    combinedResults.push(gate(doc)) }]; [gate] is what the loop does to a
    document before pushing it. *)
Definition mergeStep (gate : DocumentMatch → DocumentMatch)
    (st : gset Z * list DocumentMatch) (doc : DocumentMatch) : gset Z * list DocumentMatch :=
  let '(seen, combinedResults) := st in
  if decide (id doc ∈ seen) then st
  else ({[id doc]} ∪ seen, combinedResults ++ [gate doc]).

Definition mergeResults (gate : DocumentMatch → DocumentMatch)
    (allResults : list DocumentMatch) : list DocumentMatch :=
  (foldl (mergeStep gate) (∅, []) allResults).2.

(** [if (sourceFilter) combinedResults = combinedResults.filter(doc =>
    doc.source.toUpperCase().includes(sourceFilter.toUpperCase()))]. *)
Definition sourceMatches `{CM : CaseMapping} (sourceFilter : jsstring) (doc : DocumentMatch) : bool :=
  includes (toUpperCase (source doc)) (toUpperCase sourceFilter).

Definition filterBySource `{CM : CaseMapping} (sourceFilter : option jsstring)
    (combinedResults : list DocumentMatch) : list DocumentMatch :=
  match sourceFilter with
  | Some sf =>
      if truthy sourceFilter then List.filter (sourceMatches sf) combinedResults
      else combinedResults
  | None => combinedResults
  end.

(** [combinedResults.sort((a, b) => b.similarity - a.similarity)].  The sort
    of an array is stable, and this comparator is a consistent one, so that
    the result is the same whatever the algorithm: it is computed here by
    insertion.  A positive [compareFn a b] sends [a] behind [b]. *)
Definition compareFn (a b : DocumentMatch) : Q := (similarity b - similarity a)%Q.

Fixpoint insertSorted (x : DocumentMatch) (l : list DocumentMatch) : list DocumentMatch :=
  match l with
  | [] => [x]
  | y :: l' =>
      match (0 ?= compareFn x y)%Q with
      | Lt => y :: insertSorted x l'
      | _ => x :: l
      end
  end.

Definition sortBySimilarity (l : list DocumentMatch) : list DocumentMatch :=
  foldr insertSorted [] l.

(** [w.length > n]. *)
Definition longerThan (n : nat) (w : jsstring) : bool := (n <? length w)%nat.

(** [originalQuery.toLowerCase().split(/\s+/)]. *)
Definition wordsOf `{CM : CaseMapping} (query : jsstring) : list jsstring :=
  splitWhiteSpace (toLowerCase query).

(** [stopWords.includes(w)]. *)
Definition isStopWord (stopWords : list jsstring) (w : jsstring) : bool :=
  bool_decide (w ∈ stopWords).

(** [for (const word of words) exactQuery = exactQuery.ilike("content",
    `%${word}%`)]. *)
Definition ilikeContentAll (q : Query) (words : list jsstring) : Query :=
  foldl (λ q word, ilike q (js "content") (percent word)) q words.

Definition ilikeSource (q : Query) (sourceFilter : option jsstring) : Query :=
  match sourceFilter with
  | Some sf => if truthy sourceFilter then ilike q (js "source") (percent sf) else q
  | None => q
  end.

(** [a || ""] on a string that may be [undefined] or [null]. *)
Definition orElseEmpty (a : option jsstring) : jsstring := default [] a.

(** [reformulateQuery], the same in the three routes but for logging. *)
Definition reformulateQuery (svc : Services) (REFORMULATION_PROMPT question : jsstring) : jsstring :=
  tryCatch
    (message ← messages_create svc REFORMULATION_PROMPT question;
     match message with
     | TextBlock text :: _ => mret (trim text)
     | OtherBlock :: _ => mret question
     | [] => Throw (js "TypeError")
     end)
    question.

(** ** The body of a request *)

(** What [await request.json()] gives: an exception when the body is no JSON
    text, or else a JSON value.  [const { question, sourceFilter } = ...]
    throws on [null]; of any other value it reads the two properties, which
    are [undefined] where the value has none.  [question] is [None] unless the
    property is a string; [sourceFilter] is taken to be a string when it is
    there, as the signature of [searchDocuments] has it. *)
Inductive RequestBody :=
  | NullBody
  | Fields (question sourceFilter : option jsstring).

Definition readBody (json : Completion RequestBody)
    : Completion (option jsstring * option jsstring) :=
  body ← json;
  match body with
  | NullBody => Throw (js "TypeError")
  | Fields question sourceFilter => mret (question, sourceFilter)
  end.

End Retrieval.
Import Retrieval.

(** * The chat route (src/app/api/chat/route.ts) *)

Module Chat.
Section Route.
Context `{CM : CaseMapping} (svc : Services).

Definition stopWords : list jsstring :=
  List.map js
    ["quoi"; "que"; "faire"; "comment"; "quel"; "quelle"; "quels"; "quelles";
     "est"; "sont"; "cas"; "pour"; "dans"; "avec"; "sans"; "lors"; "une";
     "qui"; "les"; "des"; "aux"]%string.

(** The score of a hit of the search on all key words. *)
Definition exactScore (doc : Row) : DocumentMatch :=
  let contentLower := toLowerCase (row_content doc) in
  let score := 0.85%Q in
  let score := if includes contentLower (js "en présence") then (score + 0.12)%Q else score in
  withSimilarity doc (Qmin score 0.99).

(** The score of a hit of the search on any key word. *)
Definition textScore (allKeywords : list jsstring) (doc : Row) : DocumentMatch :=
  let contentLower := toLowerCase (row_content doc) in
  let matchCount := length (List.filter (λ k, includes contentLower k) allKeywords) in
  let score :=
    (0.4 + (inject_Z (Z.of_nat matchCount)
            / inject_Z (Z.of_nat (Nat.max (length allKeywords) 1))) * 0.4)%Q in
  withSimilarity doc (Qmin score 0.8).

(** Steps 4 and later: merge, filter by source, sort, keep the best 8. *)
Definition combine (exactPhraseResults : list DocumentMatch)
    (vectorResults : option (list DocumentMatch)) (textResults : list DocumentMatch)
    (sourceFilter : option jsstring) : list DocumentMatch :=
  let allResults := exactPhraseResults ++ default [] vectorResults ++ textResults in
  let combinedResults := mergeResults (λ doc, doc) allResults in
  let combinedResults := filterBySource sourceFilter combinedResults in
  let combinedResults := sortBySimilarity combinedResults in
  take 8 combinedResults.

(** Step 2: the search for the documents that hold all the key words. *)
Definition exactPass (originalQuery : jsstring) (sourceFilter : option jsstring)
    : Completion (list DocumentMatch) :=
  let keyWords :=
    List.filter (λ w, longerThan 2 w && negb (isStopWord stopWords w)) (wordsOf originalQuery) in
  if (2 <=? length keyWords)%nat then
    let exactQuery := select (js "id, content, source") in
    let exactQuery := ilikeContentAll exactQuery (take 3 keyWords) in
    let exactQuery := ilikeSource exactQuery sourceFilter in
    exact ← runQuery svc (withLimit exactQuery 15);
    match error exact, data exact with
    | None, Some exactData => mret (List.map exactScore exactData)
    | _, _ => mret []
    end
  else mret [].

(** Step 3: the search for the documents that hold some key word. *)
Definition textPass (allKeywords : list jsstring) (sourceFilter : option jsstring)
    : Completion (list DocumentMatch) :=
  let searchTerms := List.filter (longerThan 3) allKeywords in
  if (0 <? length searchTerms)%nat then
    let textQuery := select (js "id, content, source") in
    let textQuery := ilikeSource textQuery sourceFilter in
    let orConditions :=
      join (js ",") (List.map (λ k, js "content.ilike." ++ percent k) searchTerms) in
    textResp ← runQuery svc (withLimit (or textQuery orConditions) 20);
    match error textResp, data textResp with
    | None, Some textData => mret (List.map (textScore allKeywords) textData)
    | _, _ => mret []
    end
  else mret [].

(** The body of the [try] block of [searchDocuments]. *)
Definition searchBody (query originalQuery : jsstring) (sourceFilter : option jsstring)
    : Completion (list DocumentMatch) :=
  let allKeywords :=
    unique (List.filter (longerThan 2) (wordsOf query)
            ++ List.filter (longerThan 2) (wordsOf originalQuery)) in
  (* step 1: the vector search *)
  embedding ← generateEmbedding svc query;
  vector ← match_documents svc embedding 0.15%Q 15%nat;
  let vectorResults := data vector in
  exactPhraseResults ← exactPass originalQuery sourceFilter;
  textResults ← textPass allKeywords sourceFilter;
  mret (combine exactPhraseResults vectorResults textResults sourceFilter).

Definition searchDocuments (query originalQuery : jsstring) (sourceFilter : option jsstring)
    : list DocumentMatch :=
  tryCatch (searchBody query originalQuery sourceFilter) [].

End Route.
End Chat.

(** * The second chat route (src/unnamed/part_006) *)

(** [/pse[12]?\s+(.+)/i] with the two circled digits in the class, matched at
    the beginning of [s]; the result is the first group.  [\s+] takes the
    whole run of white space and gives code units back until one that is not
    a line terminator follows it; [(.+)] then runs up to the next line
    terminator. *)
Fixpoint titleAfter (n : nat) (ws rest : jsstring) : option jsstring :=
  match n with
  | O => None
  | S n' =>
      match drop n ws ++ rest with
      | c :: _ =>
          if isLineTerminator c then titleAfter n' ws rest
          else Some (span (λ d, negb (isLineTerminator d)) (drop n ws ++ rest)).1
      | [] => titleAfter n' ws rest
      end
  end.

Definition matchTitle (s : jsstring) : option jsstring :=
  match s with
  | p :: s1 :: e :: r =>
      if ciLetter 0x50 p && ciLetter 0x53 s1 && ciLetter 0x45 e then
        let r :=
          match r with
          | c :: r' => if (c =? 0x2460) || (c =? 0x2461) then r' else r
          | [] => r
          end in
        let '(ws, rest) := span isWhiteSpace r in
        titleAfter (length ws) ws rest
      else None
  | _ => None
  end.

(** [s.match(regex)] without the [g] flag: the match at the first offset
    where there is one. *)
Fixpoint firstMatch {A} (matcher : jsstring → option A) (s : jsstring) : option A :=
  match matcher s with
  | Some a => Some a
  | None => match s with [] => None | _ :: r => firstMatch matcher r end
  end.

Definition firstLineOf (content : jsstring) : jsstring :=
  default [] (head (splitOn LF [] content)).

Definition extractDocumentTitle `{CM : CaseMapping} (content : jsstring) : jsstring :=
  let firstLine := toLowerCase (firstLineOf content) in
  match firstMatch matchTitle firstLine with
  | Some group1 => trim group1
  | None => firstLine
  end.

(** What the merge loop of the two later routes does to a document it
    keeps: [if (!isOnTopic && doc.similarity < 0.9) doc.similarity *= 0.4].
    A similarity is a rational here and a double in the code, where the
    product is rounded to the nearest double: a bound on a product is stated
    as rounding keeps it, not strictly. *)
Definition relevanceGate `{CM : CaseMapping} (relevanceKeywords : list jsstring)
    (doc : DocumentMatch) : DocumentMatch :=
  let docTitle := extractDocumentTitle (content doc) in
  let isOnTopic := existsb (λ k, includes docTitle k) relevanceKeywords in
  if negb isOnTopic && negb (Qle_bool 0.9 (similarity doc)) then
    {| id := id doc; content := content doc; source := source doc;
       similarity := (similarity doc * 0.4)%Q; fiche_ref := fiche_ref doc |}
  else doc.

(** The stop words of the two later routes. *)
Definition stopWords2 : list jsstring :=
  List.map js
    ["quoi"; "que"; "faire"; "comment"; "quel"; "quelle"; "est"; "sont"; "cas";
     "pour"; "dans"; "avec"; "sans"; "lors"; "une"; "qui"; "les"; "des"; "aux";
     "tenir"; "face"; "conduite"]%string.

Module Chat2.
Section Route.
Context `{CM : CaseMapping} (svc : Services).

Definition exactScore (keyWords : list jsstring) (doc : Row) : DocumentMatch :=
  let contentLower := toLowerCase (row_content doc) in
  let matchCount := length (List.filter (λ k, includes contentLower k) keyWords) in
  withSimilarity doc
    (0.75 + (inject_Z (Z.of_nat matchCount) / inject_Z (Z.of_nat (length keyWords))) * 0.2)%Q.

Definition combine (originalQuery : jsstring) (exactResults : list DocumentMatch)
    (vectorResults : option (list DocumentMatch)) (sourceFilter : option jsstring)
    : list DocumentMatch :=
  let allResults := exactResults ++ default [] vectorResults in
  let relevanceKeywords := List.filter (longerThan 4) (wordsOf originalQuery) in
  let combinedResults := mergeResults (relevanceGate relevanceKeywords) allResults in
  let combinedResults := filterBySource sourceFilter combinedResults in
  let combinedResults := sortBySimilarity combinedResults in
  take 6 combinedResults.

(** Step 2: the search for the documents that hold the first key words. *)
Definition exactPass (originalQuery : jsstring) (sourceFilter : option jsstring)
    : Completion (list DocumentMatch) :=
  let keyWords :=
    List.filter (λ w, longerThan 3 w && negb (isStopWord stopWords2 w)) (wordsOf originalQuery) in
  if (1 <=? length keyWords)%nat then
    let exactQuery := select (js "id, content, source, fiche_ref") in
    let exactQuery := ilikeContentAll exactQuery (take 2 keyWords) in
    let exactQuery := ilikeSource exactQuery sourceFilter in
    exact ← runQuery svc (withLimit exactQuery 10);
    match data exact with
    | Some exactData => mret (List.map (exactScore keyWords) exactData)
    | None => mret []
    end
  else mret [].

(** The body of the [try] block of [searchDocuments]. *)
Definition searchBody (query originalQuery : jsstring) (sourceFilter : option jsstring)
    : Completion (list DocumentMatch) :=
  embedding ← generateEmbedding svc query;
  vector ← match_documents svc embedding 0.18%Q 12%nat;
  let vectorResults := data vector in
  exactResults ← exactPass originalQuery sourceFilter;
  mret (combine originalQuery exactResults vectorResults sourceFilter).

Definition searchDocuments (query originalQuery : jsstring) (sourceFilter : option jsstring)
    : list DocumentMatch :=
  tryCatch (searchBody query originalQuery sourceFilter) [].

End Route.
End Chat2.

(** * The fiche route (src/unnamed/part_004) *)

Module Fiches.

Inductive FicheKind := AC | FT | PR | unknown.

Record ParsedFiche := {
  ref : jsstring;
  type : FicheKind;
  typeName : jsstring;
  title : jsstring;
  date : jsstring;
  level : jsstring;
  content : jsstring;
  source : jsstring
}.

(** ** The regular expressions of [parseFiche] *)

(** The groups of [/\[([^\]]+)\]\s*(PSE[12]?|PSC[1]?|SST)?\s*(.+)?/i] (the
    digits stand for the circled ones) matched at the beginning of [s].  Once
    the bracket is closed nothing can fail, so that every greedy choice
    stands. *)
Definition levelMarker (s : jsstring) : option (jsstring * jsstring) :=
  match s with
  | a :: b :: c :: r =>
      if ciLetter 0x50 a && ciLetter 0x53 b && ciLetter 0x45 c then
        match r with
        | g :: r' =>
            if (g =? 0x2460) || (g =? 0x2461) then Some ([a; b; c; g], r')
            else Some ([a; b; c], r)
        | [] => Some ([a; b; c], r)
        end
      else if ciLetter 0x50 a && ciLetter 0x53 b && ciLetter 0x43 c then
        match r with
        | g :: r' =>
            if g =? 0x2460 then Some ([a; b; c; g], r') else Some ([a; b; c], r)
        | [] => Some ([a; b; c], r)
        end
      else if ciLetter 0x53 a && ciLetter 0x53 b && ciLetter 0x54 c then Some ([a; b; c], r)
      else None
  | _ => None
  end.

Definition matchFicheHeader (s : jsstring)
    : option (jsstring * option jsstring * option jsstring) :=
  r0 ← expect 0x5B s;
  let '(group1, r1) := span (λ c, negb (c =? 0x5D)) r0 in
  match group1 with
  | [] => None
  | _ =>
      r2 ← expect 0x5D r1;
      let r3 := (span isWhiteSpace r2).2 in
      let '(group2, r4) :=
        match levelMarker r3 with
        | Some (g, r) => (Some g, r)
        | None => (None, r3)
        end in
      let r5 := (span isWhiteSpace r4).2 in
      let group3 :=
        match (span (λ c, negb (isLineTerminator c)) r5).1 with
        | [] => None
        | g => Some g
        end in
      Some (group1, group2, group3)
  end.

(** [\d{2}[A-Z]{2}\d{2}] at the beginning of [s]. *)
Definition refCode (s : jsstring) : option (jsstring * jsstring) :=
  '(d1, r1) ← takeN isDigit 2 s;
  '(l, r2) ← takeN isUpperAZ 2 r1;
  '(d2, r3) ← takeN isDigit 2 r2;
  Some (d1 ++ l ++ d2, r3).

(** The groups of [/(\d{2}[A-Z]{2}\d{2})\s*\/?\s*(\d{2}-\d{4})?/] matched at
    the beginning of [s]. *)
Definition matchRef (s : jsstring) : option (jsstring * option jsstring) :=
  '(group1, r1) ← refCode s;
  let r2 := (span isWhiteSpace r1).2 in
  let r3 := default r2 (expect 0x2F r2) in
  let r4 := (span isWhiteSpace r3).2 in
  let group2 :=
    '(mm, r5) ← takeN isDigit 2 r4;
    r6 ← expect 0x2D r5;
    '(yyyy, _) ← takeN isDigit 4 r6;
    Some (mm ++ [0x2D] ++ yyyy) in
  Some (group1, group2).

(** The first group of [/\d{2}([A-Z]{2})\d{2}/] matched at the beginning of
    [s]. *)
Definition matchType (s : jsstring) : option jsstring :=
  '(_, r1) ← takeN isDigit 2 s;
  '(l, r2) ← takeN isUpperAZ 2 r1;
  '(_, _) ← takeN isDigit 2 r2;
  Some l.

(** [/\s+\d+\s*$/] matched at the beginning of [s]: white space, digits and
    white space up to the end. *)
Definition matchPageNumber (s : jsstring) : bool :=
  let '(ws, r1) := span isWhiteSpace s in
  let '(digits, r2) := span isDigit r1 in
  let '(_, r3) := span isWhiteSpace r2 in
  match ws, digits, r3 with
  | _ :: _, _ :: _, [] => true
  | _, _, _ => false
  end.

(** [s.replace(/\s+\d+\s*$/, "")]: the text before the first offset where
    the pattern matches. *)
Fixpoint removePageNumber (s : jsstring) : jsstring :=
  if matchPageNumber s then []
  else match s with [] => [] | c :: r => c :: removePageNumber r end.

(** [level.replace(/[12]/g, (m) => m === "1" ? "1" : "2")] on circled digits. *)
Definition plainDigits (level : jsstring) : jsstring :=
  List.map (λ c, if c =? 0x2460 then 0x31 else if c =? 0x2461 then 0x32 else c) level.

(** ** [parseFiche] *)

Definition parseFiche (doc : DocumentMatch) : ParsedFiche :=
  let content := Retrieval.content doc in
  let firstLine := firstLineOf content in
  let headerMatch := firstMatch matchFicheHeader firstLine in
  let ref0 := orElseEmpty (fiche_ref doc) in
  let '(ref, date, level, title) :=
    match headerMatch with
    | Some (refPart, group2, group3) =>
        let '(ref, date) :=
          match firstMatch matchRef refPart with
          | Some (g1, g2) => (g1, orElseEmpty g2)
          | None => (ref0, [])
          end in
        (ref, date, orElseEmpty group2, orElseEmpty (trim <$> group3))
    | None => (ref0, [], [], [])
    end in
  let title :=
    trim (replaceRuns isWhiteSpace 1 [SP]
            (removePageNumber (replaceRuns (N.eqb 0x5F) 1 [SP] title))) in
  let '(type, typeName) :=
    match firstMatch matchType ref with
    | Some typeCode =>
        if decide (typeCode = js "AC") then (AC, js "Connaissance")
        else if decide (typeCode = js "FT") then (FT, js "Fiche Technique")
        else if decide (typeCode = js "PR") then (PR, js "Procédure")
        else (unknown, js "Document")
    | None => (unknown, js "Document")
    end in
  let lines := splitOn LF [] content in
  let cleanContent := trim (join [LF] (drop 1 lines)) in
  {| ref := ref;
     type := type;
     typeName := typeName;
     title := match title with [] => js "Document" | _ => title end;
     date := date;
     level := plainDigits level;
     content := cleanContent;
     source := Retrieval.source doc |}.

(** ** [searchDocuments] of the fiche route *)

Section Route.
Context `{CM : CaseMapping} (svc : Services).

Definition exactScore (keyWords : list jsstring) (doc : Row) : DocumentMatch :=
  let contentLower := toLowerCase (row_content doc) in
  let matchCount := length (List.filter (λ k, includes contentLower k) keyWords) in
  withSimilarity doc
    (0.7 + (inject_Z (Z.of_nat matchCount) / inject_Z (Z.of_nat (length keyWords))) * 0.25)%Q.

Definition combine (originalQuery : jsstring) (exactResults : list DocumentMatch)
    (vectorResults : option (list DocumentMatch)) (sourceFilter : option jsstring)
    : list DocumentMatch :=
  let allResults := exactResults ++ default [] vectorResults in
  let relevanceKeywords := List.filter (longerThan 4) (wordsOf originalQuery) in
  let combinedResults := mergeResults (relevanceGate relevanceKeywords) allResults in
  let combinedResults := filterBySource sourceFilter combinedResults in
  let combinedResults := sortBySimilarity combinedResults in
  take 5 combinedResults.

(** Step 2: the search for the documents that hold the first key words. *)
Definition exactPass (originalQuery : jsstring) (sourceFilter : option jsstring)
    : Completion (list DocumentMatch) :=
  let keyWords :=
    List.filter (λ w, longerThan 3 w && negb (isStopWord stopWords2 w)) (wordsOf originalQuery) in
  if (1 <=? length keyWords)%nat then
    let exactQuery := select (js "id, content, source, fiche_ref") in
    let exactQuery := ilikeContentAll exactQuery (take 2 keyWords) in
    let exactQuery := ilikeSource exactQuery sourceFilter in
    exact ← runQuery svc (withLimit exactQuery 10);
    match data exact with
    | Some exactData => mret (List.map (exactScore keyWords) exactData)
    | None => mret []
    end
  else mret [].

(** The body of the [try] block of [searchDocuments]. *)
Definition searchBody (query originalQuery : jsstring) (sourceFilter : option jsstring)
    : Completion (list DocumentMatch) :=
  embedding ← generateEmbedding svc query;
  vector ← match_documents svc embedding 0.20%Q 10%nat;
  let vectorResults := data vector in
  exactResults ← exactPass originalQuery sourceFilter;
  mret (combine originalQuery exactResults vectorResults sourceFilter).

Definition searchDocuments (query originalQuery : jsstring) (sourceFilter : option jsstring)
    : list DocumentMatch :=
  tryCatch (searchBody query originalQuery sourceFilter) [].

(** ** The handler *)

(** [fiches.filter(f => { if (f.ref && seenRefs.has(f.ref)) return false;
    if (f.ref) seenRefs.add(f.ref); return true; })]. *)
Fixpoint uniqueFichesFrom (seenRefs : gset jsstring) (fiches : list ParsedFiche)
    : list ParsedFiche :=
  match fiches with
  | [] => []
  | f :: rest =>
      if truthy (Some (ref f)) && bool_decide (ref f ∈ seenRefs)
      then uniqueFichesFrom seenRefs rest
      else
        let seenRefs := if truthy (Some (ref f)) then {[ref f]} ∪ seenRefs else seenRefs in
        f :: uniqueFichesFrom seenRefs rest
  end.

Definition uniqueFiches (fiches : list ParsedFiche) : list ParsedFiche :=
  uniqueFichesFrom ∅ fiches.

Inductive Reply :=
  | BadRequest
  | NoDocument
  | FichesFound (fiches : list ParsedFiche) (query : jsstring)
  | ServerError.

(** [POST]; [json] is what [await request.json()] does.  The whole body of
    the handler is in a [try] block, whose [catch] answers with status 500. *)
Definition POST (REFORMULATION_PROMPT : jsstring) (json : Completion RequestBody) : Reply :=
  tryCatch
    ('(question, sourceFilter) ← readBody json;
     match question with
     | Some q =>
         if truthy question then
           let technicalQuery := reformulateQuery svc REFORMULATION_PROMPT q in
           let documents := searchDocuments technicalQuery q sourceFilter in
           match documents with
           | [] => mret NoDocument
           | _ =>
               let fiches := List.map parseFiche documents in
               mret (FichesFound (uniqueFiches fiches) technicalQuery)
           end
         else mret BadRequest
     | None => mret BadRequest
     end)
    ServerError.

End Route.
End Fiches.

(** * Vocabulary of the statements *)

(** The offsets of a text at which the header pattern matches. *)
Definition headerOffsets (text : jsstring) : list nat :=
  List.filter (λ i, bool_decide (is_Some (Import_script.matchHeader (drop i text))))
    (seq 0 (S (length text))).

(** Matches that follow one another in a text of [len] code units, none
    before the offset [lo]: each one starts at or after the end of the one
    before, holds a code unit and ends in the text. *)
Inductive chained (len : nat) : nat → list (nat * Import_script.RegExpMatch) → Prop :=
  | chained_nil lo : chained len lo []
  | chained_cons lo i m rest :
      (lo ≤ i)%nat →
      (1 ≤ length (Import_script.fullMatch m))%nat →
      (i + length (Import_script.fullMatch m) ≤ len)%nat →
      chained len (i + length (Import_script.fullMatch m)) rest →
      chained len lo ((i, m) :: rest).

(** [F next current] for every element of a list, [next] being the element
    that follows it. *)
Fixpoint withNext {A B} (F : option A → A → B) (l : list A) : list B :=
  match l with
  | [] => []
  | x :: r => F (head r) x :: withNext F r
  end.

(** The text of the scenario of two fiches. *)
Definition scenarioText : jsstring :=
  js "[05PR08 / 12-2022] PSE① Hémorragie externe" ++ [LF] ++ js "Body text..." ++ [LF]
  ++ js "[05PR09 / 12-2022] PSE① Autre fiche" ++ [LF] ++ js "...".

(** 500 letters, a full stop, 100 letters. *)
Definition overlongText : jsstring := repeat 0x61 500 ++ [0x2E] ++ repeat 0x62 100.

(** The documents that the merge loop keeps, before it gates them: the first
    occurrence of every identity not in [seen]. *)
Fixpoint firstOccurrences (seen : gset Z) (l : list DocumentMatch) : list DocumentMatch :=
  match l with
  | [] => []
  | d :: r =>
      if decide (id d ∈ seen) then firstOccurrences seen r
      else d :: firstOccurrences ({[id d]} ∪ seen) r
  end.

(** Descending order of similarity. *)
Definition descending (a b : DocumentMatch) : Prop := (similarity b <= similarity a)%Q.

(** * Test doubles *)

(** A case mapping that changes the ASCII letters only. *)
Definition plainCase : CaseMapping :=
  {| toLowerCase := List.map asciiLower;
     toUpperCase := List.map asciiUpper;
     toLowerCase_ascii := λ s _, eq_refl;
     toUpperCase_ascii := λ s _, eq_refl |}.

(** A store held in memory.  [ILIKE '%word%'] is a substring test without
    regard to the case of ASCII letters; the conditions of [or] are those
    that the routes build, [content.ilike.%word%] separated by commas. *)
Definition likeInner (pattern : jsstring) : jsstring := removelast (drop 1 pattern).

Definition ilikeHolds (r : Row) (f : jsstring * jsstring) : bool :=
  let value := if decide (f.1 = js "source") then row_source r else row_content r in
  includes (List.map asciiLower value) (List.map asciiLower (likeInner f.2)).

Definition queryHolds (q : Query) (r : Row) : bool :=
  forallb (ilikeHolds r) (ilikes q)
  && match orFilter q with
     | Some conditions =>
         existsb (λ cond, ilikeHolds r (js "content", drop 14 cond))
           (splitOn 0x2C [] conditions)
     | None => true
     end.

Definition memoryStore (rows : list Row)
    (embedding : Completion (list Q))
    (vector : Completion (Response (list DocumentMatch)))
    (generation : Completion (list ContentBlock)) : Services :=
  {| generateEmbedding := λ _, embedding;
     match_documents := λ _ _ _, vector;
     runQuery := λ q, Normal {| data := Some (take (limit q) (List.filter (queryHolds q) rows));
                               error := None |};
     messages_create := λ _ _, generation |}.

Definition doc (i : Z) (c s : jsstring) (sim : Q) : DocumentMatch :=
  {| id := i; content := c; source := s; similarity := sim; fiche_ref := None |}.

Definition row (i : Z) (c s : jsstring) : Row :=
  {| row_id := i; row_content := c; row_source := s; row_fiche_ref := None |}.

(** The number of the key words that the content of a row holds. *)
Definition keywordsFound `{CM : CaseMapping} (keyWords : list jsstring) (r : Row) : nat :=
  length (List.filter (λ k, includes (toLowerCase (row_content r)) k) keyWords).

(** * The handlers of the two chat routes *)

(** [`${n}`] for a natural number: its decimal digits. *)
Fixpoint digitsOf (d : Decimal.uint) : jsstring :=
  match d with
  | Decimal.Nil => []
  | Decimal.D0 d => 0x30 :: digitsOf d
  | Decimal.D1 d => 0x31 :: digitsOf d
  | Decimal.D2 d => 0x32 :: digitsOf d
  | Decimal.D3 d => 0x33 :: digitsOf d
  | Decimal.D4 d => 0x34 :: digitsOf d
  | Decimal.D5 d => 0x35 :: digitsOf d
  | Decimal.D6 d => 0x36 :: digitsOf d
  | Decimal.D7 d => 0x37 :: digitsOf d
  | Decimal.D8 d => 0x38 :: digitsOf d
  | Decimal.D9 d => 0x39 :: digitsOf d
  end.

Definition numberToString (n : nat) : jsstring := digitsOf (Nat.to_uint n).

(** The separator ["\n\n---\n\n"]. *)
Definition rule : jsstring := [LF; LF] ++ js "---" ++ [LF; LF].

(** ** The handler of src/app/api/chat/route.ts *)

Module ChatHandler.

Inductive Reply :=
  | Status400
  | Status200 (response : jsstring) (sources : list jsstring)
  | Status500.

Section Handler.
Context `{CM : CaseMapping} (svc : Services).

(** [(doc, i) => `[Extrait ${i + 1} - Source: ${doc.source}]\n${doc.content}`]. *)
Definition excerpt (i : nat) (doc : DocumentMatch) : jsstring :=
  js "[Extrait " ++ numberToString (i + 1) ++ js " - Source: " ++ source doc ++ js "]"
  ++ [LF] ++ content doc.

Definition buildContextFromDocuments (documents : list DocumentMatch) : jsstring :=
  match documents with
  | [] => js "Aucun document pertinent trouvé dans la base de connaissances."
  | _ =>
      let context := join rule (imap excerpt documents) in
      js "Voici les extraits pertinents des référentiels de secourisme :" ++ [LF; LF] ++ context
  end.

(** [`${context}\n\n---\n\nQuestion de l'utilisateur : ${question}`]. *)
Definition userMessage (context question : jsstring) : jsstring :=
  context ++ rule ++ js "Question de l'utilisateur : " ++ question.

(** [POST]; [json] is what [await request.json()] does.  The whole body of
    the handler is in a [try] block, whose [catch] answers with status 500.
    The reformulation and the search catch their own exceptions; the call
    that asks for the answer does not. *)
Definition POST (REFORMULATION_PROMPT SYSTEM_PROMPT : jsstring)
    (json : Completion RequestBody) : Reply :=
  tryCatch
    ('(question, sourceFilter) ← readBody json;
     match question with
     | Some q =>
         if truthy question then
           let technicalQuery := reformulateQuery svc REFORMULATION_PROMPT q in
           let documents := Chat.searchDocuments svc technicalQuery q sourceFilter in
           let context := buildContextFromDocuments documents in
           message ← messages_create svc SYSTEM_PROMPT (userMessage context q);
           response ← match message with
                      | TextBlock text :: _ => mret text
                      | OtherBlock :: _ => mret []
                      | [] => Throw (js "TypeError")
                      end;
           let sources := unique (source <$> documents) in
           mret (Status200 response sources)
         else mret Status400
     | None => mret Status400
     end)
    Status500.

End Handler.
End ChatHandler.

(** ** The handler of the second chat route (src/unnamed/part_006) *)

Module Chat2Handler.

Inductive Reply :=
  | Status400
  | Status200 (response : jsstring) (sources ficheRefs : list jsstring)
  | Status500.

Section Handler.
Context `{CM : CaseMapping} (svc : Services).

(** [(doc, i) => { const ficheRef = doc.fiche_ref ? `[${doc.fiche_ref}]` : "";
    return `[Extrait ${i + 1} ${ficheRef} - ${doc.source}]\n${doc.content}` }]. *)
Definition excerpt (i : nat) (doc : DocumentMatch) : jsstring :=
  let ficheRef :=
    match fiche_ref doc with
    | Some r => if truthy (fiche_ref doc) then js "[" ++ r ++ js "]" else []
    | None => []
    end in
  js "[Extrait " ++ numberToString (i + 1) ++ js " " ++ ficheRef ++ js " - " ++ source doc
  ++ js "]" ++ [LF] ++ content doc.

Definition buildContextFromDocuments (documents : list DocumentMatch) : jsstring :=
  match documents with
  | [] => js "Aucun document pertinent trouvé dans la base de connaissances."
  | _ =>
      let context := join rule (imap excerpt documents) in
      js "Voici les extraits des référentiels de secourisme. UTILISE UNIQUEMENT ces informations pour répondre :"
      ++ [LF; LF] ++ context
  end.

(** [`${context}\n\n---\n\nQuestion : ${question}`]. *)
Definition userMessage (context question : jsstring) : jsstring :=
  context ++ rule ++ js "Question : " ++ question.

(** [documents.map(d => d.fiche_ref).filter(Boolean)]. *)
Definition definedRefs (documents : list DocumentMatch) : list jsstring :=
  omap (λ r : option jsstring, if truthy r then r else None) (fiche_ref <$> documents).

(** [POST], as in the chat route. *)
Definition POST (REFORMULATION_PROMPT SYSTEM_PROMPT : jsstring)
    (json : Completion RequestBody) : Reply :=
  tryCatch
    ('(question, sourceFilter) ← readBody json;
     match question with
     | Some q =>
         if truthy question then
           let technicalQuery := reformulateQuery svc REFORMULATION_PROMPT q in
           let documents := Chat2.searchDocuments svc technicalQuery q sourceFilter in
           let context := buildContextFromDocuments documents in
           message ← messages_create svc SYSTEM_PROMPT (userMessage context q);
           response ← match message with
                      | TextBlock text :: _ => mret text
                      | OtherBlock :: _ => mret []
                      | [] => Throw (js "TypeError")
                      end;
           let sources := unique (source <$> documents) in
           let ficheRefs := unique (definedRefs documents) in
           mret (Status200 response sources ficheRefs)
         else mret Status400
     | None => mret Status400
     end)
    Status500.

End Handler.
End Chat2Handler.

(** * The run of the import script (src/unnamed/part_001, from line 225) *)

Module Importer.

(** The object handed to [insert]: the columns of a row of [documents].  The
    columns of a fiche are absent from the row of a chunk. *)
Record Columns := {
  col_content : jsstring;
  col_source : jsstring;
  col_embedding : list Q;
  col_chapter : option jsstring;
  col_chapter_name : option jsstring;
  col_fiche_type : option jsstring;
  col_fiche_type_name : option jsstring;
  col_fiche_ref : option jsstring;
  col_pse_level : option N;
  col_update_date : option jsstring
}.

(** What the script calls outside itself, each call from a state of the
    world to the next: the reader of PDF files, [generateEmbedding] (whose
    body is a call to the inference service), the insertion into the store
    with its [{ error }], the timer, and [path.basename].  What the script
    writes to the console is left out. *)
Record Environment (World : Type) := {
  extractTextFromPDF : World → jsstring → World * Completion jsstring;
  generateEmbedding : World → jsstring → World * Completion (list Q);
  insert : World → Columns → World * Completion (option jsstring);
  setTimeout : World → nat → World;
  basename : jsstring → jsstring
}.
Arguments extractTextFromPDF {World} e.
Arguments generateEmbedding {World} e.
Arguments insert {World} e.
Arguments setTimeout {World} e.
Arguments basename {World} e.

Section Run.
Context `{CM : CaseMapping} {World : Type} (env : Environment World).

Definition isPSEDocument (fileName : jsstring) : bool :=
  includes (toLowerCase fileName) (js "pse").

(** One round of a loop of import, from the row to insert: the counters
    [imported] and [errors] after it. *)
Definition importRow (text : jsstring) (row : list Q → Columns)
    (st : World * (nat * nat)) : World * (nat * nat) :=
  let '(w, (imported, errors)) := st in
  let '(w, r) := generateEmbedding env w text in
  match r with
  | Normal embedding =>
      let '(w, r) := insert env w (row embedding) in
      match r with
      | Normal (Some _) => (setTimeout env w 200, (imported, S errors))
      | Normal None => (setTimeout env w 200, (S imported, errors))
      | Throw _ => (setTimeout env w 3000, (imported, S errors))
      end
  | Throw _ => (setTimeout env w 3000, (imported, S errors))
  end.

Definition ficheRow (fileName : jsstring) (fiche : Import_script.PSEFiche)
    (embedding : list Q) : Columns :=
  {| col_content := Import_script.content fiche;
     col_source := fileName;
     col_embedding := embedding;
     col_chapter := Some (Import_script.chapter fiche);
     col_chapter_name := Some (Import_script.chapterName fiche);
     col_fiche_type := Some (Import_script.ficheType fiche);
     col_fiche_type_name := Some (Import_script.ficheTypeName fiche);
     col_fiche_ref := Some (Import_script.ficheRef fiche);
     col_pse_level := Import_script.pseLevel fiche;
     col_update_date := Some (Import_script.updateDate fiche) |}.

Definition chunkRow (fileName chunk : jsstring) (embedding : list Q) : Columns :=
  {| col_content := chunk;
     col_source := fileName;
     col_embedding := embedding;
     col_chapter := None;
     col_chapter_name := None;
     col_fiche_type := None;
     col_fiche_type_name := None;
     col_fiche_ref := None;
     col_pse_level := None;
     col_update_date := None |}.

(** The result is the pair of counters that the last line of the function
    prints. *)
Definition importPSEDocument (filePath : jsstring) (w : World)
    : World * Completion (nat * nat) :=
  let fileName := basename env filePath in
  let '(w, r) := extractTextFromPDF env w filePath in
  match r with
  | Normal text =>
      let fiches := Import_script.splitIntoPSEFiches text in
      let '(w, counters) :=
        foldl (λ st fiche,
                 importRow (Import_script.content fiche) (ficheRow fileName fiche) st)
              (w, (0, 0)%nat) fiches in
      (w, Normal counters)
  | Throw err => (w, Throw err)
  end.

Definition importStandardDocument (filePath : jsstring) (w : World)
    : World * Completion (nat * nat) :=
  let fileName := basename env filePath in
  let '(w, r) := extractTextFromPDF env w filePath in
  match r with
  | Normal text =>
      let chunks := Import_script.splitIntoChunks text in
      let '(w, counters) :=
        foldl (λ st chunk, importRow chunk (chunkRow fileName chunk) st)
              (w, (0, 0)%nat) chunks in
      (w, Normal counters)
  | Throw err => (w, Throw err)
  end.

Definition importDocument (filePath : jsstring) (w : World)
    : World * Completion (nat * nat) :=
  let fileName := basename env filePath in
  if isPSEDocument fileName then importPSEDocument filePath w
  else importStandardDocument filePath w.

(** The last loop of [main]: [for (const file of files) await
    importDocument(file)].  The result holds the counters of the files that
    were imported. *)
Fixpoint importFiles (files : list jsstring) (w : World)
    : World * Completion (list (nat * nat)) :=
  match files with
  | [] => (w, Normal [])
  | file :: rest =>
      let '(w, r) := importDocument file w in
      match r with
      | Normal counters =>
          let '(w, r) := importFiles rest w in
          (w, match r with
              | Normal l => Normal (counters :: l)
              | Throw err => Throw err
              end)
      | Throw err => (w, Throw err)
      end
  end.

End Run.
End Importer.

(** An environment for the import script: the world is the list of the calls
    made, last call first; every file holds [text], and nothing fails but
    the reading of the files named in [unreadable]. *)
Inductive Call :=
  | Read (filePath : jsstring)
  | Embed (text : jsstring)
  | Insert (row : Importer.Columns)
  | Wait (ms : nat).

Definition recorder (text : jsstring) (unreadable : list jsstring)
    : Importer.Environment (list Call) :=
  {| Importer.extractTextFromPDF w filePath :=
       (Read filePath :: w,
        if bool_decide (filePath ∈ unreadable) then Throw (js "ENOENT") else Normal text);
     Importer.generateEmbedding w t := (Embed t :: w, Normal []);
     Importer.insert w row := (Insert row :: w, Normal None);
     Importer.setTimeout w ms := Wait ms :: w;
     Importer.basename filePath := filePath |}.

(** * Vocabulary of the further statements *)

(** No run of [k] code units of the class [p]: [n] counts the code units of
    the class that come just before [s]. *)
Fixpoint runsBelow (p : N → bool) (k n : nat) (s : jsstring) : bool :=
  match s with
  | [] => true
  | c :: r => if p c then (S n <? k)%nat && runsBelow p k (S n) r else runsBelow p k 0 r
  end.

(** The windows of the rounds of the loop of [splitIntoChunks]: the values
    of [start] and [end] when the chunk is sliced. *)
Fixpoint chunkWindows (fuel : nat) (cleanedText : jsstring) (start : Z) : list (Z * Z) :=
  match fuel with
  | O => []
  | S fuel' =>
      if (start <? Z.of_nat (length cleanedText))%Z then
        let end_ := Import_script.windowEnd cleanedText start in
        (start, end_)
          :: chunkWindows fuel' cleanedText (end_ - Import_script.CHUNK_OVERLAP)%Z
      else []
  end.

(** The chunk of a window, when it is kept. *)
Definition chunkOfWindow (cleanedText : jsstring) (w : Z * Z) : list jsstring :=
  let chunk := trim (Import_script.sliceZ cleanedText w.1 w.2) in
  if (50 <? length chunk)%nat then [chunk] else [].

(** A text holds a marker of a level: the letters PSE in either case, white
    space or none, then the glyph [g] or the digit [d]. *)
Definition holdsMarker (g d : N) (text : jsstring) : Prop :=
  ∃ before p s e ws c after,
    text = before ++ [p; s; e] ++ ws ++ [c] ++ after
    ∧ p ∈ [0x50; 0x70] ∧ s ∈ [0x53; 0x73] ∧ e ∈ [0x45; 0x65]
    ∧ Forall (λ x, isWhiteSpace x = true) ws
    ∧ c ∈ [g; d].

(** * Theorems *)

(** * Facts on the string primitives *)

Lemma span_app p s : (span p s).1 ++ (span p s).2 = s.
Proof.
  induction s as [|c r IH]; simpl; [done|].
  destruct (p c); [|done].
  destruct (span p r) as [a b]; simpl in *. by rewrite IH.
Qed.

Lemma span_all p s : Forall (λ c, p c = true) (span p s).1.
Proof.
  induction s as [|c r IH]; simpl; [constructor|].
  destruct (p c) eqn:E; [|constructor].
  destruct (span p r) as [a b]; simpl in *. by constructor.
Qed.

Lemma span_rest p s c r : (span p s).2 = c :: r → p c = false.
Proof.
  induction s as [|d t IH]; simpl; [done|].
  destruct (p d) eqn:E.
  - destruct (span p t) as [a b]; simpl in *. exact IH.
  - simpl. intros [= -> _]. exact E.
Qed.

Lemma takeN_spec p n s a b :
  takeN p n s = Some (a, b) →
  s = a ++ b ∧ length a = n ∧ Forall (λ c, p c = true) a.
Proof.
  revert s a b. induction n as [|n IH]; intros s a b; simpl.
  - intros [= <- <-]. by repeat split.
  - destruct s as [|c r]; [done|]. destruct (p c) eqn:E; [|done].
    destruct (takeN p n r) as [[a' b']|] eqn:E'; [|done].
    intros [= <- <-]. destruct (IH _ _ _ E') as (-> & <- & Hall).
    repeat split. by constructor.
Qed.

Lemma expect_spec c s r : expect c s = Some r → s = c :: r.
Proof.
  destruct s as [|d t]; simpl; [done|].
  destruct (N.eqb_spec d c); [|done]. by intros [= <-]; subst.
Qed.

(** * The fiche parser *)

Section Parser.
Import Import_script.

Definition notBracket (c : N) : Prop := c ≠ 0x5B.

Lemma digit_notBracket c : isDigit c = true → notBracket c.
Proof. unfold isDigit, notBracket. intros H ->. vm_compute in H. done. Qed.

Lemma space_notBracket c : isWhiteSpace c = true → notBracket c.
Proof. unfold notBracket. intros H ->. vm_compute in H. done. Qed.

Lemma ficheTypeCode_spec s a r :
  ficheTypeCode s = Some (a, r) →
  s = a ++ r ∧ length a = 2%nat ∧ Forall notBracket a.
Proof.
  unfold ficheTypeCode. destruct s as [|x [|y t]]; try done.
  destruct (_ || _) eqn:E; [|done]. intros [= <- <-].
  repeat split.
  change (js "AC") with [0x41; 0x43] in E.
  change (js "PR") with [0x50; 0x52] in E.
  change (js "FT") with [0x46; 0x54] in E.
  cbn [startsWith] in E.
  constructor; [|constructor; [|constructor]]; unfold notBracket; intros ->.
  - simpl in E. done.
  - simpl in E. rewrite !andb_false_r in E. done.
Qed.

Lemma matchHeader_shape s m :
  matchHeader s = Some m →
  ∃ body r, fullMatch m = 0x5B :: body ∧ s = fullMatch m ++ r ∧ Forall notBracket body.
Proof.
  unfold matchHeader. intros Hm.
  apply bind_Some in Hm as (r0 & E0 & Hm).
  apply bind_Some in Hm as ([ch r1] & E1 & Hm).
  apply bind_Some in Hm as ([ft r2] & E2 & Hm).
  pose proof (span_app isDigit r2) as A3. pose proof (span_all isDigit r2) as F3.
  destruct (span isDigit r2) as [num r3]; simpl in A3, F3.
  destruct num as [|n0 num]; [done|].
  pose proof (span_app isWhiteSpace r3) as A4. pose proof (span_all isWhiteSpace r3) as F4.
  destruct (span isWhiteSpace r3) as [ws1 r4]; simpl in A4, F4.
  apply bind_Some in Hm as (r5 & E5 & Hm).
  pose proof (span_app isWhiteSpace r5) as A6. pose proof (span_all isWhiteSpace r5) as F6.
  destruct (span isWhiteSpace r5) as [ws2 r6]; simpl in A6, F6.
  apply bind_Some in Hm as ([mm r7] & E7 & Hm).
  apply bind_Some in Hm as (r8 & E8 & Hm).
  apply bind_Some in Hm as ([yy r9] & E9 & Hm).
  apply bind_Some in Hm as (r10 & E10 & Hm).
  injection Hm as <-. simpl.
  apply expect_spec in E0, E5, E8, E10.
  apply takeN_spec in E1 as (H1 & _ & G1), E7 as (H7 & _ & G7), E9 as (H9 & _ & G9).
  apply ficheTypeCode_spec in E2 as (H2 & _ & G2).
  set (body := ch ++ ft ++ (n0 :: num) ++ ws1 ++ [0x2F] ++ ws2 ++ mm ++ [0x2D] ++ yy ++ [0x5D]).
  assert (Hs : s = (0x5B :: body) ++ r10).
  { unfold body. subst s r0 r1 r2 r3 r4 r5 r6 r7 r8 r9.
    repeat (progress (simpl; rewrite <- ?app_assoc)). reflexivity. }
  exists body, r10.
  assert (Ht : take (length s - length r10) s = 0x5B :: body).
  { rewrite Hs at 2. apply take_app_length'. rewrite Hs, length_app. lia. }
  rewrite Ht. split; [done|]. split; [done|].
  unfold body. rewrite !Forall_app. repeat split.
  - eapply Forall_impl; [exact G1|]. apply digit_notBracket.
  - exact G2.
  - eapply Forall_impl; [exact F3|]. apply digit_notBracket.
  - eapply Forall_impl; [exact F4|]. apply space_notBracket.
  - by repeat constructor.
  - eapply Forall_impl; [exact F6|]. apply space_notBracket.
  - eapply Forall_impl; [exact G7|]. apply digit_notBracket.
  - by repeat constructor.
  - eapply Forall_impl; [exact G9|]. apply digit_notBracket.
  - by repeat constructor.
Qed.

Lemma matchHeader_bracket s : is_Some (matchHeader s) → head s = Some 0x5B.
Proof.
  intros [m Hm]. apply matchHeader_shape in Hm as (body & r & H1 & -> & _).
  by rewrite H1.
Qed.

Lemma matchHeader_length s m :
  matchHeader s = Some m →
  (1 ≤ length (fullMatch m) ≤ length s)%nat.
Proof.
  intros Hm. apply matchHeader_shape in Hm as (body & r & H1 & H2 & _).
  apply (f_equal length) in H2. rewrite length_app, H1 in H2.
  rewrite H1. simpl in *. lia.
Qed.

Lemma searchFrom_Some s i j m :
  searchFrom s i = Some (j, m) →
  ∃ k, j = (i + k)%nat ∧ matchHeader (drop k s) = Some m
       ∧ ∀ k', (k' < k)%nat → matchHeader (drop k' s) = None.
Proof.
  revert i. induction s as [|c r IH]; intros i; cbn [searchFrom].
  - done.
  - destruct (matchHeader (c :: r)) eqn:E.
    + intros [= <- <-]. exists 0%nat. split; [lia|]. split; [done|]. lia.
    + intros Hs. destruct (IH _ Hs) as (k & -> & Hk & Hlt).
      exists (S k). split; [lia|]. split; [done|].
      intros [|k'] ?; [done|]. simpl. apply Hlt. lia.
Qed.

Lemma searchFrom_None s i k : searchFrom s i = None → matchHeader (drop k s) = None.
Proof.
  revert i k. induction s as [|c r IH]; intros i k; cbn [searchFrom].
  - intros _. by rewrite drop_nil.
  - destruct (matchHeader (c :: r)) eqn:E; [done|]. intros Hs.
    destruct k as [|k]; [done|]. simpl. by eapply IH.
Qed.

Lemma exec_Some text lastIndex j m :
  exec text lastIndex = Some (j, m) →
  (lastIndex ≤ j)%nat ∧ matchHeader (drop j text) = Some m
  ∧ ∀ k, (lastIndex ≤ k < j)%nat → matchHeader (drop k text) = None.
Proof.
  unfold exec. intros Hs. apply searchFrom_Some in Hs as (k & -> & Hk & Hlt).
  rewrite drop_drop in Hk. split; [lia|]. split; [done|].
  intros k' Hk'. specialize (Hlt (k' - lastIndex)%nat).
  rewrite drop_drop in Hlt. replace (lastIndex + (k' - lastIndex))%nat with k' in Hlt by lia.
  apply Hlt. lia.
Qed.

Lemma exec_None text lastIndex k :
  exec text lastIndex = None → (lastIndex ≤ k)%nat → matchHeader (drop k text) = None.
Proof.
  unfold exec. intros Hs Hk. apply (searchFrom_None _ _ (k - lastIndex)%nat) in Hs.
  rewrite drop_drop in Hs. by replace (lastIndex + (k - lastIndex))%nat with k in Hs by lia.
Qed.

Lemma match_in_text text j m :
  matchHeader (drop j text) = Some m →
  (1 ≤ length (fullMatch m))%nat ∧ (j + length (fullMatch m) ≤ length text)%nat.
Proof.
  intros Hm. apply matchHeader_length in Hm. rewrite length_drop in Hm. lia.
Qed.

Lemma execLoop_chained fuel text lo :
  chained (length text) lo (execLoop fuel text lo).
Proof.
  revert lo. induction fuel as [|fuel IH]; intros lo; cbn [execLoop]; [constructor|].
  destruct (exec text lo) as [[j m]|] eqn:E; [|constructor].
  apply exec_Some in E as (Hlo & Hm & _). apply match_in_text in Hm as [? ?].
  by constructor.
Qed.

(** More fuel than code units left changes nothing. *)
Lemma execLoop_fuel fuel1 fuel2 text lo :
  (length text - lo < fuel1)%nat → (length text - lo < fuel2)%nat →
  execLoop fuel1 text lo = execLoop fuel2 text lo.
Proof.
  revert fuel2 lo. induction fuel1 as [|fuel1 IH]; intros fuel2 lo H1 H2; [lia|].
  destruct fuel2 as [|fuel2]; [lia|]. cbn [execLoop].
  destruct (exec text lo) as [[j m]|] eqn:E; [|done].
  apply exec_Some in E as (Hlo & Hm & _). apply match_in_text in Hm as [? ?].
  f_equal. apply IH; lia.
Qed.

Lemma filter_seq_nil (P : nat → bool) a n :
  (∀ k, (a ≤ k < a + n)%nat → P k = false) → List.filter P (seq a n) = [].
Proof.
  revert a. induction n as [|n IH]; intros a HP; simpl; [done|].
  rewrite HP by lia. apply IH. intros k Hk. apply HP. lia.
Qed.

Lemma no_header_inside text j m k :
  matchHeader (drop j text) = Some m →
  (j < k < j + length (fullMatch m))%nat →
  matchHeader (drop k text) = None.
Proof.
  intros Hm Hk. destruct (matchHeader (drop k text)) as [m'|] eqn:E; [|done].
  exfalso. assert (Hb : head (drop k text) = Some 0x5B) by (apply matchHeader_bracket; eauto).
  apply matchHeader_shape in Hm as (body & r & H1 & H2 & Hall).
  rewrite H1 in *. simpl in Hk.
  assert (Hd : drop k text = drop (k - j) (drop j text)).
  { rewrite drop_drop. f_equal. lia. }
  rewrite Hd, H2 in Hb.
  destruct (k - j)%nat as [|d] eqn:Ed; [lia|]. simpl in Hb.
  rewrite drop_app_le in Hb by lia.
  destruct (drop d body) as [|c rest] eqn:Edrop.
  { apply (f_equal length) in Edrop. rewrite length_drop in Edrop. simpl in Edrop. lia. }
  simpl in Hb. injection Hb as ->.
  assert (Hin : 0x5B ∈ drop d body) by (rewrite Edrop; left).
  apply (subseteq_drop d body) in Hin.
  rewrite Forall_forall in Hall. by apply Hall in Hin.
Qed.

Lemma execLoop_offsets fuel text lo :
  (length text - lo < fuel)%nat → (lo ≤ S (length text))%nat →
  (execLoop fuel text lo).*1
  = List.filter (λ i, bool_decide (is_Some (matchHeader (drop i text))))
      (seq lo (S (length text) - lo)).
Proof.
  revert lo. induction fuel as [|fuel IH]; intros lo Hf Hlo; [lia|].
  cbn [execLoop]. destruct (exec text lo) as [[j m]|] eqn:E.
  - pose proof E as E'. apply exec_Some in E as (Hj & Hm & Hbefore).
    pose proof (match_in_text _ _ _ Hm) as [HL1 HL2].
    set (L := length (fullMatch m)) in *.
    replace (S (length text) - lo)%nat
      with ((j - lo) + (1 + ((L - 1) + (S (length text) - (j + L)))))%nat by lia.
    rewrite !seq_app, !List.filter_app.
    rewrite filter_seq_nil.
    2:{ intros k Hk. rewrite Hbefore by lia. done. }
    replace (lo + (j - lo))%nat with j by lia.
    cbn [seq List.filter app]. rewrite Hm.
    rewrite bool_decide_true by eauto.
    rewrite filter_seq_nil.
    2:{ intros k Hk. rewrite (no_header_inside text j m k) by (done || lia). done. }
    cbn [fmap list_fmap app fst]. f_equal.
    replace (j + 1 + (L - 1))%nat with (j + L)%nat by lia.
    apply IH; lia.
  - rewrite filter_seq_nil; [done|].
    intros k Hk. rewrite (exec_None text lo k) by (done || lia). done.
Qed.

(** The global scan finds every offset at which the pattern matches. *)
Lemma findMatches_offsets text : (findMatches text).*1 = headerOffsets text.
Proof.
  unfold findMatches, headerOffsets. rewrite execLoop_offsets by lia.
  by rewrite Nat.sub_0_r.
Qed.

Lemma imap_withNext_from {A B} (F : option A → A → B) (pre l : list A) :
  imap (λ i x, F ((pre ++ l) !! S (length pre + i)) x) l = withNext F l.
Proof.
  revert pre. induction l as [|x r IH]; intros pre; [done|].
  rewrite imap_cons. cbn [withNext]. f_equal.
  - rewrite Nat.add_0_r, lookup_app_r by lia.
    replace (S (length pre) - length pre)%nat with 1%nat by lia.
    simpl. by destruct r.
  - rewrite <- (IH (pre ++ [x])). apply imap_ext. intros i y _. simpl.
    rewrite <- app_assoc, length_app. simpl. do 2 f_equal. lia.
Qed.

Lemma imap_withNext {A B} (F : option A → A → B) (l : list A) :
  imap (λ i x, F (l !! S i) x) l = withNext F l.
Proof. exact (imap_withNext_from F [] l). Qed.

Lemma withNext_on_fst {A B C} (F : option A → A → C) (l : list (A * B)) :
  withNext (λ n x, F (fst <$> n) x.1) l = withNext F (l.*1).
Proof.
  induction l as [|x r IH]; [done|].
  rewrite fmap_cons. cbn [withNext]. rewrite IH. by destruct r.
Qed.

(** The offsets of the rounds of the loop, from the offsets of the headers. *)
Lemma ficheSpan_offsets cleanedText matches :
  imap (ficheSpan cleanedText matches) matches
  = withNext (λ next o, (o, default (length cleanedText) next)) (matches.*1).
Proof.
  rewrite <- withNext_on_fst.
  rewrite <- (imap_withNext
    (λ (n : option (nat * RegExpMatch)) x, (x.1, default (length cleanedText) (fst <$> n)))).
  apply imap_ext. intros i x _. unfold ficheSpan.
  by destruct (matches !! S i).
Qed.

Lemma slice_to_end (c : jsstring) i : slice c i (length c) = drop i c.
Proof. unfold slice. apply take_ge. rewrite length_drop. lia. Qed.

Lemma slice_glue (c : jsstring) i j :
  (i ≤ j)%nat → slice c i j ++ drop j c = drop i c.
Proof.
  intros Hij. unfold slice.
  replace (drop j c) with (drop (j - i) (drop i c)).
  - apply take_drop.
  - rewrite drop_drop. f_equal. lia.
Qed.

(** The spans of matches that follow one another make up the text from the
    first match on. *)
Lemma concat_spans (c : jsstring) lo ms :
  chained (length c) lo ms →
  concat ((λ ab, slice c ab.1 ab.2)
            <$> withNext (λ next o, (o, default (length c) next)) (ms.*1))
  = match ms with [] => [] | (i0, _) :: _ => drop i0 c end.
Proof.
  revert lo. induction ms as [|[i m] rest IH]; intros lo Hc; [done|].
  inversion Hc as [|? ? ? ? Hlo HL Hle Hrest]; subst.
  rewrite fmap_cons. cbn [withNext]. rewrite fmap_cons. cbn [concat fst snd].
  rewrite (IH _ Hrest). destruct rest as [|[j m'] rest'].
  - simpl. rewrite app_nil_r. apply slice_to_end.
  - simpl. inversion Hrest; subst. apply slice_glue. lia.
Qed.

(** ** C6 *)

(** C6. The text of the scenario yields two fiches, 05PR08 and 05PR09, of
    chapter 05, of type PR named Procédure, of level 1, read in the first 200
    code units of each fiche, and of date 12-2022. *)
Theorem splitIntoPSEFiches_scenario :
  (λ f, (ficheRef f, chapter f, ficheType f, ficheTypeName f, pseLevel f, updateDate f))
    <$> splitIntoPSEFiches scenarioText
  = [ (js "05PR08", js "05", js "PR", js "Procédure", Some 1, js "12-2022");
      (js "05PR09", js "05", js "PR", js "Procédure", Some 1, js "12-2022") ]
  ∧ Forall (λ f, detectPSELevel (slice (Import_script.content f) 0 200) = Some 1)
      (splitIntoPSEFiches scenarioText).
Proof. split; [vm_compute; reflexivity|]. vm_compute. repeat constructor. Qed.

End Parser.

(** * The fallback splitter *)

Section Chunks.
Import Import_script.

Lemma trimStart_length s : (length (trimStart s) ≤ length s)%nat.
Proof.
  unfold trimStart. pose proof (span_app isWhiteSpace s) as H.
  apply (f_equal length) in H. rewrite length_app in H. lia.
Qed.

Lemma trim_length s : (length (trim s) ≤ length s)%nat.
Proof.
  unfold trim, trimEnd. rewrite length_rev.
  etrans; [apply trimStart_length|]. rewrite length_rev. apply trimStart_length.
Qed.

Lemma lastIndexIn_bound c s i found :
  lastIndexIn c s i found = found
  ∨ (i ≤ lastIndexIn c s i found < i + Z.of_nat (length s))%Z.
Proof.
  revert i found. induction s as [|d r IH]; intros i found; cbn [lastIndexIn]; [by left|].
  destruct (IH (i + 1)%Z (if d =? c then i else found)) as [->|Hr].
  - destruct (d =? c); [right|left; done]. simpl length. lia.
  - right. simpl length. lia.
Qed.

Lemma lastIndexOf_le s c position :
  (0 ≤ position)%Z → (lastIndexOf s c position ≤ position)%Z.
Proof.
  intros Hp. unfold lastIndexOf.
  destruct (lastIndexIn_bound c (take (Z.to_nat (Z.max 0 position + 1)) s) 0 (-1)) as [->|H];
    [lia|].
  rewrite length_take in H. lia.
Qed.

Lemma windowEnd_bounds cleanedText start :
  (0 ≤ start)%Z →
  (start + 251 < windowEnd cleanedText start + 1 ≤ start + CHUNK_SIZE + 2)%Z
  ∧ (windowEnd cleanedText start ≤ start + CHUNK_SIZE + 1)%Z.
Proof.
  intros Hs. unfold windowEnd, CHUNK_SIZE.
  destruct (_ <? _)%Z; [|lia].
  pose proof (lastIndexOf_le cleanedText 0x2E (start + 500)%Z ltac:(lia)).
  pose proof (lastIndexOf_le cleanedText LF (start + 500)%Z ltac:(lia)).
  change (500 / 2)%Z with 250%Z.
  destruct (Z.ltb_spec (start + 250) (Z.max (lastIndexOf cleanedText 46 (start + 500))
                                       (lastIndexOf cleanedText LF (start + 500)))); lia.
Qed.

Lemma sliceZ_length (s : jsstring) a b :
  (0 ≤ a)%Z → (0 ≤ b)%Z → (Z.of_nat (length (sliceZ s a b)) ≤ Z.max 0 (b - a))%Z.
Proof.
  intros Ha Hb. unfold sliceZ, slice, relativeIndex.
  rewrite length_take, length_drop.
  destruct (Z.ltb_spec a 0); [lia|].
  destruct (Z.ltb_spec b 0); lia.
Qed.

(** More fuel than code units left changes nothing. *)
Lemma chunkLoop_fuel fuel1 fuel2 cleanedText start :
  (0 ≤ start)%Z →
  (Z.of_nat (length cleanedText) - start < Z.of_nat fuel1)%Z →
  (Z.of_nat (length cleanedText) - start < Z.of_nat fuel2)%Z →
  chunkLoop fuel1 cleanedText start = chunkLoop fuel2 cleanedText start.
Proof.
  revert fuel2 start. induction fuel1 as [|fuel1 IH]; intros fuel2 start H0 H1 H2.
  - destruct fuel2 as [|fuel2]; [done|]. cbn [chunkLoop].
    destruct (Z.ltb_spec start (Z.of_nat (length cleanedText))); [lia|done].
  - destruct fuel2 as [|fuel2]; cbn [chunkLoop];
      destruct (Z.ltb_spec start (Z.of_nat (length cleanedText))); try done; try lia.
    f_equal. pose proof (windowEnd_bounds cleanedText start H0). unfold CHUNK_OVERLAP, CHUNK_SIZE in *.
    apply IH; lia.
Qed.

(** What holds of the chunks: each one has more than 50 code units, the
    least length kept, and at most one more than [CHUNK_SIZE]. *)
Lemma chunkLoop_lengths fuel cleanedText start :
  (0 ≤ start)%Z →
  Forall (λ chunk, (50 < length chunk)%nat ∧ (Z.of_nat (length chunk) ≤ CHUNK_SIZE + 1)%Z)
    (chunkLoop fuel cleanedText start).
Proof.
  revert start. induction fuel as [|fuel IH]; intros start H0; cbn [chunkLoop]; [constructor|].
  destruct (_ <? _)%Z; [|constructor].
  pose proof (windowEnd_bounds cleanedText start H0) as [Hw1 Hw2].
  apply Forall_app. split.
  - destruct (Nat.ltb_spec 50 (length (trim (sliceZ cleanedText start (windowEnd cleanedText start)))));
      [|constructor].
    constructor; [|constructor]. split; [done|].
    pose proof (trim_length (sliceZ cleanedText start (windowEnd cleanedText start))).
    pose proof (sliceZ_length cleanedText start (windowEnd cleanedText start) H0 ltac:(lia)).
    unfold CHUNK_SIZE in *. lia.
  - apply IH. unfold CHUNK_OVERLAP, CHUNK_SIZE in *. lia.
Qed.

Lemma splitIntoChunks_lengths text :
  Forall (λ chunk, (50 < length chunk)%nat ∧ (Z.of_nat (length chunk) ≤ CHUNK_SIZE + 1)%Z)
    (splitIntoChunks text).
Proof. apply chunkLoop_lengths. lia. Qed.

(** ** C5 *)

(** C5, at the failing input. 500 letters, a full stop and 100 letters: the
    full stop sits at offset [start + CHUNK_SIZE], where [lastIndexOf]
    still finds it, and the first chunk runs up to it: it has 501 code
    units, one more than [CHUNK_SIZE]. *)
Theorem splitIntoChunks_over_CHUNK_SIZE :
  length <$> splitIntoChunks overlongText = [501; 200]%nat
  ∧ cleanChunkText overlongText = overlongText
  ∧ windowEnd overlongText 0 = (CHUNK_SIZE + 1)%Z.
Proof. vm_compute. done. Qed.

End Chunks.

(** * The merge *)

Section Merge.

Lemma foldl_mergeStep gate seen acc l :
  (foldl (mergeStep gate) (seen, acc) l).2 = acc ++ (gate <$> firstOccurrences seen l).
Proof.
  revert seen acc. induction l as [|d r IH]; intros seen acc; cbn [foldl firstOccurrences].
  - by rewrite app_nil_r.
  - unfold mergeStep at 2. destruct (decide (id d ∈ seen)).
    + apply IH.
    + rewrite IH, fmap_cons, <- app_assoc. done.
Qed.

Lemma mergeResults_firstOccurrences gate l :
  mergeResults gate l = gate <$> firstOccurrences ∅ l.
Proof. unfold mergeResults. by rewrite foldl_mergeStep. Qed.

Lemma firstOccurrences_unseen seen l d :
  d ∈ firstOccurrences seen l → (id d ∉ seen) ∧ d ∈ l.
Proof.
  revert seen. induction l as [|x r IH]; intros seen; cbn [firstOccurrences].
  - by intros ?%elem_of_nil.
  - destruct (decide (id x ∈ seen)).
    + intros Hd. destruct (IH _ Hd) as [? ?]. split; [done|]. by right.
    + intros [->|Hd]%elem_of_cons.
      * split; [done|]. by left.
      * destruct (IH _ Hd) as [? ?]. split; [set_solver|]. by right.
Qed.

Lemma firstOccurrences_sublist seen l : firstOccurrences seen l `sublist_of` l.
Proof.
  revert seen. induction l as [|x r IH]; intros seen; cbn [firstOccurrences]; [done|].
  destruct (decide (id x ∈ seen)).
  - by apply sublist_cons.
  - by apply sublist_skip.
Qed.

Lemma firstOccurrences_NoDup seen l : NoDup (id <$> firstOccurrences seen l).
Proof.
  revert seen. induction l as [|x r IH]; intros seen; cbn [firstOccurrences]; [constructor|].
  destruct (decide (id x ∈ seen)); [apply IH|].
  rewrite fmap_cons. constructor; [|apply IH].
  intros (y & Hy & Hin)%list_elem_of_fmap.
  apply firstOccurrences_unseen in Hin as [Hin _]. set_solver.
Qed.

Lemma filter_none {A} (P : A → bool) l :
  (∀ x, x ∈ l → P x = false) → List.filter P l = [].
Proof.
  induction l as [|x r IH]; intros HP; simpl; [done|].
  rewrite HP by left. apply IH. intros y Hy. apply HP. by right.
Qed.

(** The first occurrence of an identity is the only document of that
    identity that the loop keeps. *)
Lemma firstOccurrences_first seen l1 d l2 :
  id d ∉ seen → id d ∉ id <$> l1 →
  List.filter (λ x, bool_decide (id x = id d)) (firstOccurrences seen (l1 ++ d :: l2)) = [d].
Proof.
  revert seen. induction l1 as [|x l1 IH]; intros seen Hseen Hl1.
  - cbn [app firstOccurrences]. rewrite decide_False by done.
    cbn [List.filter]. rewrite bool_decide_true by done. f_equal.
    apply filter_none. intros y [Hy _]%firstOccurrences_unseen.
    apply bool_decide_eq_false. set_solver.
  - rewrite fmap_cons, not_elem_of_cons in Hl1. destruct Hl1 as [Hx Hl1].
    cbn [app firstOccurrences]. destruct (decide (id x ∈ seen)).
    + by apply IH.
    + cbn [List.filter]. rewrite bool_decide_false by done.
      apply IH; [set_solver|done].
Qed.

Lemma elem_of_split_first (l : list DocumentMatch) d :
  NoDup (id <$> l) → d ∈ l → ∃ l1 l2, l = l1 ++ d :: l2 ∧ id d ∉ id <$> l1.
Proof.
  intros Hnd (l1 & l2 & ->)%list_elem_of_split. exists l1, l2. split; [done|].
  rewrite fmap_app, fmap_cons in Hnd. apply NoDup_app in Hnd as (_ & Hnd & _).
  intros Hin. apply (Hnd _ Hin). left.
Qed.

End Merge.

(** * Filter, sort, truncate *)

Section Finish.
Context `{CM : CaseMapping}.

Lemma elem_of_List_filter {A} (P : A → bool) l x :
  x ∈ List.filter P l ↔ x ∈ l ∧ P x = true.
Proof. rewrite !list_elem_of_In. apply filter_In. Qed.

Lemma filterBySource_elem sourceFilter l x :
  x ∈ filterBySource sourceFilter l →
  x ∈ l ∧ ∀ sf, sourceFilter = Some sf → sourceMatches sf x = true.
Proof.
  unfold filterBySource. destruct sourceFilter as [[|c sf]|]; cbn [truthy].
  - intros Hx. split; [done|]. intros ? [= <-]. unfold sourceMatches.
    rewrite (toUpperCase_ascii []) by done. simpl. by destruct (toUpperCase (source x)).
  - intros [? ?]%elem_of_List_filter. split; [done|]. by intros ? [= <-].
  - intros Hx. split; [done|]. by intros ? [=].
Qed.

Lemma insertSorted_perm x l : insertSorted x l ≡ₚ x :: l.
Proof.
  induction l as [|y r IH]; cbn [insertSorted]; [done|].
  destruct (_ ?= _)%Q; [done| |done].
  rewrite IH. apply Permutation_swap.
Qed.

Lemma sortBySimilarity_perm l : sortBySimilarity l ≡ₚ l.
Proof.
  induction l as [|x r IH]; [done|].
  unfold sortBySimilarity in *. cbn [foldr]. by rewrite insertSorted_perm, IH.
Qed.

Lemma compareFn_cases x y :
  match (0 ?= compareFn x y)%Q with
  | Lt => (similarity x < similarity y)%Q
  | _ => (similarity y <= similarity x)%Q
  end.
Proof.
  destruct (0 ?= compareFn x y)%Q eqn:E; unfold compareFn in E.
  - apply Qeq_alt in E. lra.
  - apply Qlt_alt in E. lra.
  - apply Qgt_alt in E. lra.
Qed.

Lemma insertSorted_sorted x l :
  StronglySorted descending l → StronglySorted descending (insertSorted x l).
Proof.
  induction 1 as [|y r Hr IH Hy]; cbn [insertSorted].
  - by repeat constructor.
  - pose proof (compareFn_cases x y) as Hc.
    destruct (0 ?= compareFn x y)%Q.
    + constructor; [by constructor|]. constructor; [exact Hc|].
      eapply Forall_impl; [exact Hy|]. unfold descending. intros z Hz. lra.
    + constructor; [exact IH|].
      rewrite insertSorted_perm. constructor; [|exact Hy].
      unfold descending. lra.
    + constructor; [by constructor|]. constructor; [exact Hc|].
      eapply Forall_impl; [exact Hy|]. unfold descending. intros z Hz. lra.
Qed.

Lemma sortBySimilarity_sorted l : StronglySorted descending (sortBySimilarity l).
Proof.
  induction l as [|x r IH]; [constructor|].
  unfold sortBySimilarity in *. cbn [foldr]. by apply insertSorted_sorted.
Qed.

Lemma StronglySorted_take {A} (R : A → A → Prop) n l :
  StronglySorted R l → StronglySorted R (take n l).
Proof.
  intros Hl. revert n. induction Hl as [|x r Hr IH Hx]; intros [|n]; cbn [take]; try constructor.
  - apply IH.
  - eapply Forall_forall. intros y Hy. rewrite Forall_forall in Hx. apply Hx.
    by eapply subseteq_take.
Qed.

(** What every route does after the merge. *)
Lemma finish_elem k sourceFilter merged x :
  x ∈ take k (sortBySimilarity (filterBySource sourceFilter merged)) →
  x ∈ merged ∧ ∀ sf, sourceFilter = Some sf → sourceMatches sf x = true.
Proof.
  intros Hx%subseteq_take. rewrite sortBySimilarity_perm in Hx.
  by apply filterBySource_elem.
Qed.

Lemma finish_sorted k sourceFilter merged :
  let out := take k (sortBySimilarity (filterBySource sourceFilter merged)) in
  (length out ≤ k)%nat ∧ StronglySorted descending out.
Proof.
  split.
  - rewrite length_take. lia.
  - apply StronglySorted_take, sortBySimilarity_sorted.
Qed.

End Finish.

(** * The routes *)

Section Routes.
Context `{CM : CaseMapping}.

(** A search that does not throw returns what [combine] makes of the
    passes. *)
Lemma Chat_searchBody_Normal svc query originalQuery sourceFilter r :
  Chat.searchBody svc query originalQuery sourceFilter = Normal r →
  ∃ embedding vector exact text,
    generateEmbedding svc query = Normal embedding
    ∧ match_documents svc embedding 0.15%Q 15%nat = Normal vector
    ∧ Chat.exactPass svc originalQuery sourceFilter = Normal exact
    ∧ r = Chat.combine exact (data vector) text sourceFilter.
Proof.
  unfold Chat.searchBody. intros Hb.
  destruct (generateEmbedding svc query) as [embedding|] eqn:E1; [|done].
  cbn [mbind Completion_bind] in Hb.
  destruct (match_documents svc embedding _ _) as [vector|] eqn:E2; [|done].
  cbn [mbind Completion_bind] in Hb.
  destruct (Chat.exactPass svc originalQuery sourceFilter) as [exact|] eqn:E3; [|done].
  cbn [mbind Completion_bind] in Hb.
  destruct (Chat.textPass _ _ _) as [text|] eqn:E4; [|done].
  cbn [mbind Completion_bind mret Completion_ret] in Hb. injection Hb as <-.
  by exists embedding, vector, exact, text.
Qed.

Lemma Chat2_searchBody_Normal svc query originalQuery sourceFilter r :
  Chat2.searchBody svc query originalQuery sourceFilter = Normal r →
  ∃ embedding vector exact,
    generateEmbedding svc query = Normal embedding
    ∧ match_documents svc embedding 0.18%Q 12%nat = Normal vector
    ∧ Chat2.exactPass svc originalQuery sourceFilter = Normal exact
    ∧ r = Chat2.combine originalQuery exact (data vector) sourceFilter.
Proof.
  unfold Chat2.searchBody. intros Hb.
  destruct (generateEmbedding svc query) as [embedding|] eqn:E1; [|done].
  cbn [mbind Completion_bind] in Hb.
  destruct (match_documents svc embedding _ _) as [vector|] eqn:E2; [|done].
  cbn [mbind Completion_bind] in Hb.
  destruct (Chat2.exactPass svc originalQuery sourceFilter) as [exact|] eqn:E3; [|done].
  cbn [mbind Completion_bind mret Completion_ret] in Hb. injection Hb as <-.
  by exists embedding, vector, exact.
Qed.

Lemma Fiches_searchBody_Normal svc query originalQuery sourceFilter r :
  Fiches.searchBody svc query originalQuery sourceFilter = Normal r →
  ∃ embedding vector exact,
    generateEmbedding svc query = Normal embedding
    ∧ match_documents svc embedding 0.20%Q 10%nat = Normal vector
    ∧ Fiches.exactPass svc originalQuery sourceFilter = Normal exact
    ∧ r = Fiches.combine originalQuery exact (data vector) sourceFilter.
Proof.
  unfold Fiches.searchBody. intros Hb.
  destruct (generateEmbedding svc query) as [embedding|] eqn:E1; [|done].
  cbn [mbind Completion_bind] in Hb.
  destruct (match_documents svc embedding _ _) as [vector|] eqn:E2; [|done].
  cbn [mbind Completion_bind] in Hb.
  destruct (Fiches.exactPass svc originalQuery sourceFilter) as [exact|] eqn:E3; [|done].
  cbn [mbind Completion_bind mret Completion_ret] in Hb. injection Hb as <-.
  by exists embedding, vector, exact.
Qed.

(** ** C2 *)

(** C2. In the chat route, a document of the lexical pass is the only
    document of its identity in the merged results, whatever the vector pass
    and the third pass return for that identity: it keeps its lexical score,
    and no other document of that identity reaches the output.  The scenario:
    7 at 0.85 from the lexical pass, 7 at 0.30 and 9 at 0.60 from the vector
    pass give 7 at 0.85, then 9 at 0.60. *)
Theorem merge_precedence :
  (∀ exact vector text sourceFilter d,
      NoDup (id <$> exact) → d ∈ exact →
      List.filter (λ x, bool_decide (id x = id d))
        (mergeResults (λ doc, doc) (exact ++ default [] vector ++ text)) = [d]
      ∧ ∀ x, x ∈ Chat.combine exact vector text sourceFilter → id x = id d → x = d)
  ∧ (∀ c7 s7 c7' s7' c9 s9,
      Chat.combine [doc 7 c7 s7 0.85] (Some [doc 7 c7' s7' 0.30; doc 9 c9 s9 0.60]) [] None
      = [doc 7 c7 s7 0.85; doc 9 c9 s9 0.60]).
Proof.
  split.
  - intros exact vector text sourceFilter d Hnd Hd.
    destruct (elem_of_split_first _ _ Hnd Hd) as (l1 & l2 & -> & Hl1).
    assert (Hf : List.filter (λ x, bool_decide (id x = id d))
        (mergeResults (λ doc, doc) ((l1 ++ d :: l2) ++ default [] vector ++ text)) = [d]).
    { rewrite mergeResults_firstOccurrences, list_fmap_id, <- app_assoc.
      cbn [app]. apply firstOccurrences_first; [set_solver|done]. }
    split; [exact Hf|].
    intros x Hx Hid. unfold Chat.combine in Hx. apply finish_elem in Hx as [Hx _].
    assert (Hin : x ∈ [d]).
    { rewrite <- Hf. apply elem_of_List_filter. split; [done|]. by apply bool_decide_eq_true. }
    by apply list_elem_of_singleton in Hin.
  - intros. reflexivity.
Qed.

(** ** C8 *)

(** C8. Whatever the queries, the filter and the collaborators, the chat
    route returns at most 8 documents, the second chat route at most 6 and
    the fiche route at most 5, in descending order of similarity. *)
Theorem searchDocuments_sorted_topK svc query originalQuery sourceFilter :
  let out8 := Chat.searchDocuments svc query originalQuery sourceFilter in
  let out6 := Chat2.searchDocuments svc query originalQuery sourceFilter in
  let out5 := Fiches.searchDocuments svc query originalQuery sourceFilter in
  ((length out8 ≤ 8)%nat ∧ StronglySorted descending out8)
  ∧ ((length out6 ≤ 6)%nat ∧ StronglySorted descending out6)
  ∧ ((length out5 ≤ 5)%nat ∧ StronglySorted descending out5).
Proof.
  cbv zeta. repeat split.
  all: unfold Chat.searchDocuments, Chat2.searchDocuments, Fiches.searchDocuments, tryCatch.
  1,2: destruct (Chat.searchBody _ _ _ _) as [r|] eqn:E; [|simpl; lia || constructor];
       apply Chat_searchBody_Normal in E as (? & ? & ? & ? & _ & _ & _ & ->);
       apply finish_sorted.
  1,2: destruct (Chat2.searchBody _ _ _ _) as [r|] eqn:E; [|simpl; lia || constructor];
       apply Chat2_searchBody_Normal in E as (? & ? & ? & _ & _ & _ & ->);
       apply finish_sorted.
  1,2: destruct (Fiches.searchBody _ _ _ _) as [r|] eqn:E; [|simpl; lia || constructor];
       apply Fiches_searchBody_Normal in E as (? & ? & ? & _ & _ & _ & ->);
       apply finish_sorted.
Qed.

(** ** C9 *)

(** C9. With a filter, every document that the chat route returns has a
    source that holds the filter once both are in upper case, and no merged
    document whose source does not hold it is returned.  With the filter PSC,
    of the sources Referentiel_PSC1.pdf and Guide_SST.pdf only the first is
    kept. *)
Theorem category_filter :
  (∀ svc query originalQuery sf,
      Forall (λ d, includes (toUpperCase (source d)) (toUpperCase sf) = true)
        (Chat.searchDocuments svc query originalQuery (Some sf)))
  ∧ (∀ exact vector text sf d,
      includes (toUpperCase (source d)) (toUpperCase sf) = false →
      d ∉ Chat.combine exact vector text (Some sf))
  ∧ (∀ i1 c1 sim1 i2 c2 sim2,
      let kept := doc i1 c1 (js "Referentiel_PSC1.pdf") sim1 in
      let dropped := doc i2 c2 (js "Guide_SST.pdf") sim2 in
      filterBySource (Some (js "PSC")) [kept; dropped] = [kept]
      ∧ Chat.combine [] (Some [kept; dropped]) [] (Some (js "PSC")) = [kept]).
Proof.
  split; [|split].
  - intros svc query originalQuery sf. apply Forall_forall. intros d Hd.
    unfold Chat.searchDocuments, tryCatch in Hd.
    destruct (Chat.searchBody _ _ _ _) as [r|] eqn:E; [|by apply elem_of_nil in Hd].
    apply Chat_searchBody_Normal in E as (? & ? & ? & ? & _ & _ & _ & ->).
    unfold Chat.combine in Hd. apply finish_elem in Hd as [_ Hd]. by apply Hd.
  - intros exact vector text sf d Hno Hd.
    unfold Chat.combine in Hd. apply finish_elem in Hd as [_ Hd].
    specialize (Hd sf eq_refl). unfold sourceMatches in Hd. congruence.
  - intros i1 c1 sim1 i2 c2 sim2 kept dropped.
    assert (Hf : filterBySource (Some (js "PSC")) [kept; dropped] = [kept]).
    { unfold filterBySource, sourceMatches. cbn [truthy js List.filter source kept dropped doc].
      rewrite !toUpperCase_ascii by reflexivity. reflexivity. }
    assert (Hf1 : filterBySource (Some (js "PSC")) [kept] = [kept]).
    { unfold filterBySource, sourceMatches. cbn [truthy js List.filter source kept doc].
      rewrite !toUpperCase_ascii by reflexivity. reflexivity. }
    split; [exact Hf|].
    change (Chat.combine [] (Some [kept; dropped]) [] (Some (js "PSC")))
      with (take 8 (sortBySimilarity (filterBySource (Some (js "PSC"))
              (mergeResults (λ d, d) [kept; dropped])))).
    rewrite mergeResults_firstOccurrences, list_fmap_id. cbn [firstOccurrences].
    rewrite decide_False by apply not_elem_of_empty.
    destruct (decide (id dropped ∈ _)); [by rewrite Hf1|by rewrite Hf].
Qed.

(** ** C3 *)

Lemma relevanceGate_id kws d : id (relevanceGate kws d) = id d.
Proof. unfold relevanceGate. by destruct (_ && _). Qed.

Lemma relevanceGate_off_topic kws d :
  existsb (λ k, includes (extractDocumentTitle (content d)) k) kws = false →
  (similarity d < 0.9)%Q →
  relevanceGate kws d
  = {| id := id d; content := content d; source := source d;
       similarity := (similarity d * 0.4)%Q; fiche_ref := fiche_ref d |}.
Proof.
  intros Hoff Hlt. unfold relevanceGate. rewrite Hoff.
  destruct (Qle_bool 0.9 (similarity d)) eqn:E; [|done].
  apply Qle_bool_iff in E. lra.
Qed.

Lemma filter_fmap_gate kws d l :
  List.filter (λ x, bool_decide (id x = id d)) (relevanceGate kws <$> l)
  = relevanceGate kws <$> List.filter (λ x, bool_decide (id x = id d)) l.
Proof.
  induction l as [|x r IH]; [done|].
  rewrite fmap_cons. cbn [List.filter]. rewrite relevanceGate_id.
  destruct (bool_decide (id x = id d)); [rewrite fmap_cons|]; by rewrite IH.
Qed.

(** The gated first occurrence is the only document of its identity in the
    merged results of the two later routes. *)
Lemma gated_first_occurrence kws l1 d l2 :
  id d ∉ id <$> l1 →
  List.filter (λ x, bool_decide (id x = id d))
    (mergeResults (relevanceGate kws) (l1 ++ d :: l2))
  = [relevanceGate kws d].
Proof.
  intros Hl1. rewrite mergeResults_firstOccurrences, filter_fmap_gate.
  rewrite firstOccurrences_first; [done|set_solver|done].
Qed.

(** C3. In the second chat route and in the fiche route, let [d] be the
    first document of its identity among the results of the two passes, with
    a title that holds none of the words of more than 4 code units of the
    original query and a similarity below 0.9.  The merged results hold one
    document of that identity: [d] with its similarity multiplied by 0.4; and
    a document of that identity in the output is that one.  From 0.5 it comes
    out at 0.5 times 0.4 at most, below 0.5. *)
Theorem relevance_gating originalQuery exact vector sourceFilter l1 d l2 :
  let relevanceKeywords := List.filter (longerThan 4) (wordsOf originalQuery) in
  let gated :=
    {| id := id d; content := content d; source := source d;
       similarity := (similarity d * 0.4)%Q; fiche_ref := fiche_ref d |} in
  exact ++ default [] vector = l1 ++ d :: l2 →
  id d ∉ id <$> l1 →
  existsb (λ k, includes (extractDocumentTitle (content d)) k) relevanceKeywords = false →
  (similarity d < 0.9)%Q →
  List.filter (λ x, bool_decide (id x = id d))
    (mergeResults (relevanceGate relevanceKeywords) (exact ++ default [] vector)) = [gated]
  ∧ (∀ x, x ∈ Chat2.combine originalQuery exact vector sourceFilter
          ∨ x ∈ Fiches.combine originalQuery exact vector sourceFilter →
          id x = id d →
          x = gated
          ∧ ((similarity d == 0.5)%Q →
             (similarity x <= 0.5 * 0.4)%Q ∧ (similarity x < similarity d)%Q)).
Proof.
  intros relevanceKeywords gated Hall Hl1 Hoff Hlt.
  assert (Hf : List.filter (λ x, bool_decide (id x = id d))
    (mergeResults (relevanceGate relevanceKeywords) (exact ++ default [] vector)) = [gated]).
  { rewrite Hall, gated_first_occurrence by done.
    by rewrite relevanceGate_off_topic. }
  split; [exact Hf|].
  intros x Hx Hid.
  assert (Hm : x ∈ mergeResults (relevanceGate relevanceKeywords) (exact ++ default [] vector)).
  { destruct Hx as [Hx|Hx]; unfold Chat2.combine, Fiches.combine in Hx;
      by apply finish_elem in Hx as [Hx _]. }
  assert (Hin : x ∈ [gated]).
  { rewrite <- Hf. apply elem_of_List_filter. split; [done|]. by apply bool_decide_eq_true. }
  apply list_elem_of_singleton in Hin. subst x. split; [done|].
  intros H5. cbn [similarity gated]. lra.
Qed.

End Routes.

(** C2, witness: the scenario itself. *)
Lemma merge_precedence_witness :
  let d7 := doc 7 (js "a") (js "PSE1.pdf") 0.85 in
  NoDup (id <$> [d7]) ∧ d7 ∈ [d7]
  ∧ List.filter (λ x, bool_decide (id x = 7%Z))
      (mergeResults (λ doc, doc)
         ([d7] ++ [doc 7 (js "a") (js "PSE1.pdf") 0.30; doc 9 (js "b") (js "PSE1.pdf") 0.60] ++ []))
    = [d7].
Proof.
  intros d7.
  assert (Hnd : NoDup (id <$> [d7])) by (apply NoDup_singleton).
  assert (Hin : d7 ∈ [d7]) by left.
  split; [exact Hnd|]. split; [exact Hin|].
  exact (proj1 (proj1 (merge_precedence (CM := plainCase)) [d7]
    (Some [doc 7 (js "a") (js "PSE1.pdf") 0.30; doc 9 (js "b") (js "PSE1.pdf") 0.60])
    [] None d7 Hnd Hin)).
Defined.

(** C3, witness: an off-topic vector hit at 0.5. *)
Lemma relevance_gating_witness :
  let d := doc 9 (js "[06AC01 / 09-2019] PSE1 Malaise") (js "PSE1.pdf") 0.5 in
  let relevanceKeywords :=
    List.filter (longerThan 4) (wordsOf (CM := plainCase) (js "saignement abondant")) in
  existsb (λ k, includes (extractDocumentTitle (CM := plainCase) (content d)) k)
    relevanceKeywords = false
  ∧ (similarity d < 0.9)%Q
  ∧ List.filter (λ x, bool_decide (id x = id d))
      (mergeResults (relevanceGate (CM := plainCase) relevanceKeywords)
         ([] ++ default [] (Some [d])))
    = [ {| id := id d; content := content d; source := source d;
           similarity := (similarity d * 0.4)%Q; fiche_ref := fiche_ref d |} ].
Proof.
  intros d relevanceKeywords.
  assert (Hoff : existsb (λ k, includes (extractDocumentTitle (CM := plainCase) (content d)) k)
                   relevanceKeywords = false) by (vm_compute; reflexivity).
  assert (Hlt : (similarity d < 0.9)%Q) by (vm_compute; reflexivity).
  assert (Hfirst : id d ∉ id <$> ([] : list DocumentMatch)) by apply not_elem_of_nil.
  split; [exact Hoff|]. split; [exact Hlt|].
  exact (proj1 (relevance_gating (CM := plainCase) (js "saignement abondant")
                  [] (Some [d]) None [] d [] eq_refl Hfirst Hoff Hlt)).
Defined.

(** C3, counterexample. The words of the gate are all the words of more
    than 4 code units of the question, stop words among them.  Of the
    question below the only such word that is no stop word is brulure, which
    the title, conduite generale, does not hold; the similarity is 0.5,
    below 0.9; and the document is not penalised, because the title holds
    the stop word conduite: both routes return it with 0.5. *)
Lemma relevance_gating_counts_stop_words :
  let originalQuery := js "quelle conduite tenir pour une brulure" in
  let d := doc 9 (js "[06AC01 / 09-2019] PSE① Conduite generale") (js "PSE1.pdf") 0.5 in
  List.filter (λ w, longerThan 4 w && negb (isStopWord stopWords2 w))
    (wordsOf (CM := plainCase) originalQuery) = [js "brulure"]
  ∧ List.filter (longerThan 4) (wordsOf (CM := plainCase) originalQuery)
    = [js "quelle"; js "conduite"; js "tenir"; js "brulure"]
  ∧ extractDocumentTitle (CM := plainCase) (content d) = js "conduite generale"
  ∧ includes (extractDocumentTitle (CM := plainCase) (content d)) (js "brulure") = false
  ∧ (similarity d < 0.9)%Q
  ∧ Chat2.combine (CM := plainCase) originalQuery [] (Some [d]) None = [d]
  ∧ Fiches.combine (CM := plainCase) originalQuery [] (Some [d]) None = [d]
  ∧ (similarity d == 0.5)%Q.
Proof. vm_compute. repeat split. Qed.

(** * Scores of the lexical pass *)

Section Scores.
Context `{CM : CaseMapping}.

Lemma filter_length_le {A} (P : A → bool) l : (length (List.filter P l) ≤ length l)%nat.
Proof.
  induction l as [|x r IH]; simpl; [lia|]. destruct (P x); simpl; lia.
Qed.

Lemma share_bounds (found total : nat) :
  (found ≤ total)%nat → (1 ≤ total)%nat →
  (0 <= inject_Z (Z.of_nat found) / inject_Z (Z.of_nat total) <= 1)%Q.
Proof.
  intros Hle Hpos.
  assert (Ht : (0 < inject_Z (Z.of_nat total))%Q).
  { change 0%Q with (inject_Z 0). rewrite <- Zlt_Qlt. lia. }
  assert (Hf : (0 <= inject_Z (Z.of_nat found))%Q).
  { change 0%Q with (inject_Z 0). rewrite <- Zle_Qle. lia. }
  split.
  - apply Qle_shift_div_l; [exact Ht|]. lra.
  - apply Qle_shift_div_r; [exact Ht|].
    assert (inject_Z (Z.of_nat found) <= inject_Z (Z.of_nat total))%Q by (rewrite <- Zle_Qle; lia).
    lra.
Qed.

(** C4 (amended). In the second chat route and in the fiche route a hit of
    the lexical pass gets 0.75 (0.7 in the fiche route) plus 0.2 (0.25) times
    the share of the key words that its content holds, 0.95 at most.  In the
    chat route it gets 0.85, and 0.97 when its content holds the words
    "en présence", whatever the key words: 0.99 at most.  All stay below 1. *)
Theorem lexical_scores (keyWords : list jsstring) (r : Row) :
  (1 ≤ length keyWords)%nat →
  let share :=
    (inject_Z (Z.of_nat (keywordsFound keyWords r))
     / inject_Z (Z.of_nat (length keyWords)))%Q in
  let s2 := similarity (Chat2.exactScore keyWords r) in
  let sF := similarity (Fiches.exactScore keyWords r) in
  let s1 := similarity (Chat.exactScore r) in
  (0 <= share <= 1)%Q
  ∧ (s2 == 0.75 + share * 0.2 ∧ 0.75 <= s2 <= 0.95)%Q
  ∧ (sF == 0.7 + share * 0.25 ∧ 0.7 <= sF <= 0.95)%Q
  ∧ (s1 == (if includes (toLowerCase (row_content r)) (js "en présence")
            then 0.97 else 0.85) ∧ s1 <= 0.99)%Q
  ∧ (s1 < 1 ∧ s2 < 1 ∧ sF < 1)%Q.
Proof.
  intros Hpos share s2 sF s1.
  assert (Hshare : (0 <= share <= 1)%Q).
  { apply share_bounds; [apply filter_length_le|exact Hpos]. }
  assert (H2 : (s2 == 0.75 + share * 0.2)%Q) by reflexivity.
  assert (HF : (sF == 0.7 + share * 0.25)%Q) by reflexivity.
  assert (H1 : (s1 == (if includes (toLowerCase (row_content r)) (js "en présence")
                       then 0.97 else 0.85))%Q).
  { unfold s1, Chat.exactScore. cbn [similarity withSimilarity].
    destruct (includes _ _); reflexivity. }
  assert (H1' : (s1 <= 0.99)%Q).
  { rewrite H1. destruct (includes _ _); lra. }
  repeat split; try lra; try exact H2; try exact HF; try exact H1.
Qed.

End Scores.

(** C4, witness. *)
Lemma lexical_scores_witness :
  let keyWords := [js "hémorragie"; js "externe"] in
  let r := row 7 (js "Hémorragie externe : compression directe") (js "PSE1.pdf") in
  (1 ≤ length keyWords)%nat
  ∧ (0 <= inject_Z (Z.of_nat (keywordsFound (CM := plainCase) keyWords r))
          / inject_Z (Z.of_nat (length keyWords)) <= 1)%Q.
Proof.
  intros keyWords r.
  assert (Hpos : (1 ≤ length keyWords)%nat) by (vm_compute; lia).
  split; [exact Hpos|].
  exact (proj1 (lexical_scores (CM := plainCase) keyWords r Hpos)).
Defined.

(** C4, counterexample. Two hits of the chat route hold the two key words of
    the question; the one that also holds "en présence" gets 0.97 and the
    other 0.85: no base and no bonus per key word give both scores. *)
Lemma chat_score_ignores_keywords :
  let keyWords := [js "hémorragie"; js "externe"] in
  let a := row 1 (js "hémorragie externe : compression directe") (js "PSE1.pdf") in
  let b := row 2 (js "en présence d'une hémorragie externe") (js "PSE1.pdf") in
  keywordsFound (CM := plainCase) keyWords a = keywordsFound (CM := plainCase) keyWords b
  ∧ ¬ ∃ base bonus : Q, ∀ r, r ∈ [a; b] →
        (similarity (Chat.exactScore (CM := plainCase) r)
         == base + bonus * inject_Z (Z.of_nat (keywordsFound (CM := plainCase) keyWords r)))%Q.
Proof.
  intros keyWords a b. split; [vm_compute; reflexivity|].
  intros (base & bonus & Hall).
  pose proof (Hall a ltac:(left)) as Ha.
  pose proof (Hall b ltac:(right; left)) as Hb.
  assert (Ea : similarity (Chat.exactScore (CM := plainCase) a) = 0.85%Q)
    by (vm_compute; reflexivity).
  assert (Eb : similarity (Chat.exactScore (CM := plainCase) b) = (0.85 + 0.12)%Q)
    by (vm_compute; reflexivity).
  assert (Na : keywordsFound (CM := plainCase) keyWords a = 2%nat) by (vm_compute; reflexivity).
  assert (Nb : keywordsFound (CM := plainCase) keyWords b = 2%nat) by (vm_compute; reflexivity).
  rewrite Ea, Na in Ha. rewrite Eb, Nb in Hb.
  change (inject_Z (Z.of_nat 2)) with 2%Q in *. lra.
Qed.

(** * Failures *)

Section Failures.
Context `{CM : CaseMapping}.

(** C7 (amended). Neither [reformulateQuery] nor [searchDocuments] of the
    chat route raises.  When the generation service throws, the question
    itself is the reformulation.  When the store reports an error for the
    vector search, the search goes on with the results of the two lexical
    passes alone.  When the embedding service throws, or anything else in the
    body, the search returns no document, whatever the lexical passes would
    have found; it returns none either when no pass finds anything. *)
Theorem retrieval_failures svc prompt query originalQuery sourceFilter :
  let allKeywords :=
    unique (List.filter (longerThan 2) (wordsOf query)
            ++ List.filter (longerThan 2) (wordsOf originalQuery)) in
  (∀ err, messages_create svc prompt originalQuery = Throw err →
      reformulateQuery svc prompt originalQuery = originalQuery)
  ∧ (∀ embedding err exact text,
      generateEmbedding svc query = Normal embedding →
      match_documents svc embedding 0.15%Q 15%nat
        = Normal {| data := None; error := Some err |} →
      Chat.exactPass svc originalQuery sourceFilter = Normal exact →
      Chat.textPass svc allKeywords sourceFilter = Normal text →
      Chat.searchDocuments svc query originalQuery sourceFilter
        = Chat.combine exact None text sourceFilter)
  ∧ (∀ err, generateEmbedding svc query = Throw err →
      Chat.searchDocuments svc query originalQuery sourceFilter = [])
  ∧ (∀ err, Chat.searchBody svc query originalQuery sourceFilter = Throw err →
      Chat.searchDocuments svc query originalQuery sourceFilter = [])
  ∧ (∀ embedding vector,
      generateEmbedding svc query = Normal embedding →
      match_documents svc embedding 0.15%Q 15%nat = Normal vector →
      default [] (data vector) = [] →
      Chat.exactPass svc originalQuery sourceFilter = Normal [] →
      Chat.textPass svc allKeywords sourceFilter = Normal [] →
      Chat.searchDocuments svc query originalQuery sourceFilter = []).
Proof.
  intros allKeywords. repeat split.
  - intros err He. unfold reformulateQuery. by rewrite He.
  - intros embedding err exact text He Hv Hx Ht.
    unfold Chat.searchDocuments, Chat.searchBody. fold allKeywords.
    rewrite He. cbn [mbind Completion_bind]. rewrite Hv. cbn [mbind Completion_bind].
    rewrite Hx. cbn [mbind Completion_bind]. rewrite Ht. reflexivity.
  - intros err He. unfold Chat.searchDocuments, Chat.searchBody. by rewrite He.
  - intros err He. unfold Chat.searchDocuments. by rewrite He.
  - intros embedding vector He Hv Hd Hx Ht.
    unfold Chat.searchDocuments, Chat.searchBody. fold allKeywords.
    rewrite He. cbn [mbind Completion_bind]. rewrite Hv. cbn [mbind Completion_bind].
    rewrite Hx. cbn [mbind Completion_bind]. rewrite Ht.
    cbn [mbind Completion_bind mret Completion_ret tryCatch].
    unfold Chat.combine. rewrite Hd. by destruct sourceFilter as [[|? ?]|].
Qed.

End Failures.

(** C7, witness: the store reports an error for the vector search and the
    generation service throws. *)
Lemma retrieval_failures_witness :
  let rows := [row 7 (js "hémorragie externe : compression directe") (js "PSE1.pdf")] in
  let svc :=
    memoryStore rows (Normal []) (Normal {| data := None; error := Some (js "rpc") |})
      (Throw (js "overloaded")) in
  let question := js "hémorragie externe" in
  messages_create svc [] question = Throw (js "overloaded")
  ∧ reformulateQuery svc [] question = question.
Proof.
  intros rows svc question.
  assert (Hg : messages_create svc [] question = Throw (js "overloaded")) by reflexivity.
  split; [exact Hg|].
  exact (proj1 (retrieval_failures (CM := plainCase) svc [] question question None)
           (js "overloaded") Hg).
Defined.

(** C7, counterexample. The embedding service throws: the lexical pass
    would find a document, and the search returns none. *)
Lemma embedding_failure_aborts_search :
  let rows := [row 7 (js "hémorragie externe : compression directe") (js "PSE1.pdf")] in
  let svc :=
    memoryStore rows (Throw (js "Hugging Face API error"))
      (Normal {| data := Some []; error := None |}) (Throw (js "overloaded")) in
  let question := js "hémorragie externe" in
  Chat.exactPass (CM := plainCase) svc question None
    = Normal [doc 7 (js "hémorragie externe : compression directe") (js "PSE1.pdf") 0.85]
  ∧ Chat.searchDocuments (CM := plainCase) svc question question None = [].
Proof. vm_compute. split; reflexivity. Qed.

(** * The fiche route: one fiche per reference *)

Section Unique.
Import Fiches.

Lemma if_decide_iff {A} (P Q : Prop) `{!Decision P, !Decision Q} (a b : A) :
  (P ↔ Q) → (if decide P then a else b) = (if decide Q then a else b).
Proof. intros HPQ. destruct (decide P), (decide Q); tauto. Qed.

Lemma uniqueFichesFrom_snoc seenRefs fiches f :
  uniqueFichesFrom seenRefs (fiches ++ [f])
  = uniqueFichesFrom seenRefs fiches
    ++ (if decide (ref f ≠ [] ∧ (ref f ∈ seenRefs ∨ ref f ∈ ref <$> fiches)) then [] else [f]).
Proof.
  revert seenRefs. induction fiches as [|x l IH]; intros seenRefs.
  - cbn [app uniqueFichesFrom fmap list_fmap]. destruct (ref f) as [|c r] eqn:Er; cbn [truthy andb].
    + rewrite decide_False by (intros [? _]; done). done.
    + destruct (bool_decide_reflect (c :: r ∈ seenRefs)) as [Hin|Hin].
      * rewrite decide_True; [done|]. split; [done|by left].
      * rewrite decide_False; [done|]. intros [_ [?|?%elem_of_nil]]; done.
  - cbn [app uniqueFichesFrom]. rewrite fmap_cons.
    destruct (truthy (Some (ref x)) && bool_decide (ref x ∈ seenRefs)) eqn:E.
    + apply andb_true_iff in E as [_ Hin%bool_decide_eq_true].
      rewrite IH. f_equal. apply if_decide_iff.
      rewrite elem_of_cons. split; intros [Hne Hor]; (split; [done|]); [tauto|].
      destruct Hor as [?|[Heq|?]]; [by left| |by right]. left. by rewrite Heq.
    + rewrite IH. cbn [app]. do 2 f_equal. apply if_decide_iff.
      rewrite elem_of_cons. destruct (ref x) as [|c r] eqn:Ex; cbn [truthy].
      * split; intros [Hne Hor]; (split; [done|]); destruct Hor as [?|Hor]; auto.
        destruct Hor as [?|?]; [done|auto].
      * rewrite elem_of_union, elem_of_singleton. tauto.
Qed.

Lemma uniqueFichesFrom_sublist seenRefs fiches :
  uniqueFichesFrom seenRefs fiches `sublist_of` fiches.
Proof.
  revert seenRefs. induction fiches as [|x l IH]; intros seenRefs; cbn [uniqueFichesFrom]; [done|].
  destruct (_ && _); [by apply sublist_cons|by apply sublist_skip].
Qed.

Lemma uniqueFichesFrom_refless seenRefs fiches :
  List.filter (λ f, bool_decide (ref f = [])) (uniqueFichesFrom seenRefs fiches)
  = List.filter (λ f, bool_decide (ref f = [])) fiches.
Proof.
  revert seenRefs. induction fiches as [|x l IH]; intros seenRefs; cbn [uniqueFichesFrom]; [done|].
  destruct (ref x) as [|c r] eqn:Ex; cbn [truthy andb].
  - cbn [List.filter]. rewrite Ex. cbn. by rewrite IH.
  - destruct (bool_decide (c :: r ∈ seenRefs)); cbn [List.filter]; rewrite Ex;
      rewrite bool_decide_false by done; apply IH.
Qed.

(** C10. The fiche route drops a fiche when, and only when, its reference is
    not empty and an earlier fiche has it.  The fiches without a reference
    are all kept, the fiches kept are in the order of the input, and a
    document without [fiche_ref] whose first line holds no bracketed header
    gives a fiche without a reference. *)
Theorem uniqueFiches_keeps_refless :
  (∀ fiches f,
      uniqueFiches (fiches ++ [f])
      = uniqueFiches fiches
        ++ (if decide (ref f ≠ [] ∧ ref f ∈ ref <$> fiches) then [] else [f]))
  ∧ (∀ fiches,
      List.filter (λ f, bool_decide (ref f = [])) (uniqueFiches fiches)
      = List.filter (λ f, bool_decide (ref f = [])) fiches)
  ∧ (∀ fiches, uniqueFiches fiches `sublist_of` fiches)
  ∧ (∀ d,
      orElseEmpty (fiche_ref d) = [] →
      firstMatch matchFicheHeader (firstLineOf (Retrieval.content d)) = None →
      ref (parseFiche d) = []).
Proof.
  repeat split.
  - intros fiches f. unfold uniqueFiches. rewrite uniqueFichesFrom_snoc. f_equal.
    destruct (decide (ref f ≠ [] ∧ (ref f ∈ (∅ : gset jsstring) ∨ ref f ∈ ref <$> fiches)))
      as [Hd|Hd].
    + rewrite decide_True; [done|]. destruct Hd as [? [?%not_elem_of_empty|?]]; done.
    + rewrite decide_False; [done|]. intros [? ?]. apply Hd. split; [done|by right].
  - intros fiches. apply uniqueFichesFrom_refless.
  - intros fiches. apply uniqueFichesFrom_sublist.
  - intros d Href Hhead. unfold parseFiche. rewrite Hhead, Href.
    cbn zeta. destruct (firstMatch matchType []) eqn:E; [|done].
    vm_compute in E. done.
Qed.

End Unique.

(** C10, witness: two documents without a header and without [fiche_ref]. *)
Lemma uniqueFiches_keeps_refless_witness :
  let d := doc 3 (js "Alerter les secours") (js "PSC1.pdf") 0.5 in
  orElseEmpty (fiche_ref d) = []
  ∧ firstMatch Fiches.matchFicheHeader (firstLineOf (content d)) = None
  ∧ Fiches.ref (Fiches.parseFiche d) = []
  ∧ length (Fiches.uniqueFiches (Fiches.parseFiche <$> [d; d])) = 2%nat.
Proof.
  intros d.
  assert (H1 : orElseEmpty (fiche_ref d) = []) by reflexivity.
  assert (H2 : firstMatch Fiches.matchFicheHeader (firstLineOf (content d)) = None)
    by (vm_compute; reflexivity).
  split; [exact H1|]. split; [exact H2|].
  split; [|vm_compute; reflexivity].
  exact (proj2 (proj2 (proj2 uniqueFiches_keeps_refless)) d H1 H2).
Defined.

(** * Further properties *)

(** * More on the fiche parser *)

Section Parser_more.
Import Import_script.

Lemma ficheTypeCode_codes s a r :
  ficheTypeCode s = Some (a, r) → a ∈ [js "AC"; js "PR"; js "FT"].
Proof.
  unfold ficheTypeCode. destruct s as [|x [|y t]]; try done.
  destruct (_ || _) eqn:E; [|done]. intros [= <- <-].
  change (js "AC") with [0x41; 0x43] in *.
  change (js "PR") with [0x50; 0x52] in *.
  change (js "FT") with [0x46; 0x54] in *.
  cbn [startsWith] in E. rewrite !andb_true_r in E.
  apply orb_true_iff in E as [E|E]; [apply orb_true_iff in E as [E|E]|];
    apply andb_true_iff in E as [Ex Ey]; apply N.eqb_eq in Ex, Ey; subst x y.
  - left.
  - right; left.
  - right; right; left.
Qed.

(** The groups of a match of the header pattern. *)
Lemma matchHeader_groups s m :
  matchHeader s = Some m →
  ∃ ws1 ws2 r,
    s = fullMatch m ++ r
    ∧ fullMatch m
      = [0x5B] ++ g_chapter m ++ g_ficheType m ++ g_ficheNumber m ++ ws1 ++ [0x2F]
        ++ ws2 ++ g_month m ++ [0x2D] ++ g_year m ++ [0x5D]
    ∧ (length (g_chapter m) = 2%nat ∧ Forall (λ c, isDigit c = true) (g_chapter m))
    ∧ g_ficheType m ∈ [js "AC"; js "PR"; js "FT"]
    ∧ (g_ficheNumber m ≠ [] ∧ Forall (λ c, isDigit c = true) (g_ficheNumber m))
    ∧ (Forall (λ c, isWhiteSpace c = true) ws1 ∧ Forall (λ c, isWhiteSpace c = true) ws2)
    ∧ (length (g_month m) = 2%nat ∧ Forall (λ c, isDigit c = true) (g_month m))
    ∧ (length (g_year m) = 4%nat ∧ Forall (λ c, isDigit c = true) (g_year m)).
Proof.
  unfold matchHeader. intros Hm.
  apply bind_Some in Hm as (r0 & E0 & Hm).
  apply bind_Some in Hm as ([ch r1] & E1 & Hm).
  apply bind_Some in Hm as ([ft r2] & E2 & Hm).
  pose proof (span_app isDigit r2) as A3. pose proof (span_all isDigit r2) as F3.
  destruct (span isDigit r2) as [num r3]; simpl in A3, F3.
  destruct num as [|n0 num]; [done|].
  pose proof (span_app isWhiteSpace r3) as A4. pose proof (span_all isWhiteSpace r3) as F4.
  destruct (span isWhiteSpace r3) as [ws1 r4]; simpl in A4, F4.
  apply bind_Some in Hm as (r5 & E5 & Hm).
  pose proof (span_app isWhiteSpace r5) as A6. pose proof (span_all isWhiteSpace r5) as F6.
  destruct (span isWhiteSpace r5) as [ws2 r6]; simpl in A6, F6.
  apply bind_Some in Hm as ([mm r7] & E7 & Hm).
  apply bind_Some in Hm as (r8 & E8 & Hm).
  apply bind_Some in Hm as ([yy r9] & E9 & Hm).
  apply bind_Some in Hm as (r10 & E10 & Hm).
  injection Hm as <-. cbn [fullMatch g_chapter g_ficheType g_ficheNumber g_month g_year].
  pose proof (ficheTypeCode_codes _ _ _ E2) as Hft.
  apply expect_spec in E0, E5, E8, E10.
  apply takeN_spec in E1 as (H1 & L1 & G1), E7 as (H7 & L7 & G7), E9 as (H9 & L9 & G9).
  apply ficheTypeCode_spec in E2 as (H2 & _ & G2).
  set (full := [0x5B] ++ ch ++ ft ++ (n0 :: num) ++ ws1 ++ [0x2F] ++ ws2 ++ mm ++ [0x2D]
               ++ yy ++ [0x5D]).
  assert (Hs : s = full ++ r10).
  { unfold full. subst s r0 r1 r2 r3 r4 r5 r6 r7 r8 r9.
    repeat (progress (simpl; rewrite <- ?app_assoc)). reflexivity. }
  assert (Ht : take (length s - length r10) s = full).
  { rewrite Hs at 2. apply take_app_length'. rewrite Hs, length_app. lia. }
  exists ws1, ws2, r10. rewrite Ht. by repeat split.
Qed.

Lemma execLoop_matches fuel text lo :
  Forall (λ im, matchHeader (drop im.1 text) = Some im.2) (execLoop fuel text lo).
Proof.
  revert lo. induction fuel as [|fuel IH]; intros lo; cbn [execLoop]; [constructor|].
  destruct (exec text lo) as [[j m]|] eqn:E; [|constructor].
  apply exec_Some in E as (_ & Hm & _). by constructor.
Qed.

Lemma chained_sorted len lo ms :
  chained len lo ms →
  StronglySorted lt (ms.*1) ∧ Forall (λ i, (lo ≤ i < len)%nat) (ms.*1).
Proof.
  induction 1 as [lo|lo i m rest Hlo HL Hle Hrest [IH1 IH2]]; [by split; constructor|].
  rewrite fmap_cons. cbn [fst]. split.
  - constructor; [exact IH1|]. eapply Forall_impl; [exact IH2|]. simpl. lia.
  - constructor; [lia|]. eapply Forall_impl; [exact IH2|]. simpl. lia.
Qed.

Lemma property_elem table key v : property table key = Some v → (key, v) ∈ table.
Proof.
  induction table as [|[k w] rest IH]; cbn [property]; [done|].
  destruct (decide (k = key)) as [->|].
  - intros [= ->]. left.
  - intros Hp. right. by apply IH.
Qed.

Lemma orElse_cases table key fallback :
  orElse (property table key) fallback = fallback
  ∨ (key, orElse (property table key) fallback) ∈ table.
Proof.
  destruct (property table key) as [[|c r]|] eqn:E; cbn [orElse]; [by left| |by left].
  right. by apply property_elem.
Qed.

(** X1. The fiches are the headers of the cleaned text, one by one and in
    the order of the text: the fiche of rank k has the chapter, the type, the
    number and the date of the header that matches at the offset of rank k
    among the offsets where the pattern matches, and these offsets
    increase. *)
Theorem fiches_follow_headers (text : jsstring) :
  let cleanedText := cleanText text in
  Forall2
    (λ f i, ∃ m, matchHeader (drop i cleanedText) = Some m
                 ∧ chapter f = g_chapter m
                 ∧ ficheType f = g_ficheType m
                 ∧ ficheNumber f = g_ficheNumber m
                 ∧ updateDate f = g_month m ++ [0x2D] ++ g_year m)
    (splitIntoPSEFiches text) (headerOffsets cleanedText)
  ∧ StronglySorted lt (headerOffsets cleanedText)
  ∧ Forall (λ i, (i < length cleanedText)%nat) (headerOffsets cleanedText).
Proof.
  intros cleanedText. rewrite <- findMatches_offsets.
  pose proof (execLoop_chained (S (length cleanedText)) cleanedText 0) as Hc.
  apply chained_sorted in Hc as [Hs Hb]. fold (findMatches cleanedText) in Hs, Hb.
  split; [|split; [exact Hs|]].
  - unfold splitIntoPSEFiches. fold cleanedText.
    apply Forall2_same_length_lookup_2.
    { by rewrite length_imap, length_fmap. }
    intros k f i Hf Hi.
    rewrite list_lookup_imap in Hf. rewrite list_lookup_fmap in Hi.
    destruct (findMatches cleanedText !! k) as [[j m]|] eqn:Ek; [|done].
    simpl in Hf, Hi. injection Hf as <-. injection Hi as <-.
    exists m. split; [|done].
    pose proof (execLoop_matches (S (length cleanedText)) cleanedText 0) as Hall.
    rewrite Forall_forall in Hall. apply (Hall (j, m)).
    by eapply list_elem_of_lookup_2.
  - eapply Forall_impl; [exact Hb|]. simpl. lia.
Qed.

(** X2. Every fiche is well formed: a chapter of two digits, a type among
    AC, PR and FT with the name that the table gives it (the fallback on the
    code is never taken), a number of one digit or more, a date of seven code
    units, a reference made of chapter, type and number, a chapter name from
    the table or else the word Chapitre and the code, and a level that is
    unset, 1 or 2. *)
Theorem fiches_well_formed (text : jsstring) (f : PSEFiche) :
  f ∈ splitIntoPSEFiches text →
  (length (chapter f) = 2%nat ∧ Forall (λ c, isDigit c = true) (chapter f))
  ∧ (ficheType f, ficheTypeName f) ∈ FICHE_TYPES
  ∧ (ficheNumber f ≠ [] ∧ Forall (λ c, isDigit c = true) (ficheNumber f))
  ∧ length (updateDate f) = 7%nat
  ∧ ficheRef f = chapter f ++ ficheType f ++ ficheNumber f
  ∧ (chapterName f = js "Chapitre " ++ chapter f ∨ (chapter f, chapterName f) ∈ CHAPTER_NAMES)
  ∧ pseLevel f ∈ [None; Some 1; Some 2].
Proof.
  unfold splitIntoPSEFiches. intros Hf.
  apply list_elem_of_lookup_1 in Hf as [k Hf]. rewrite list_lookup_imap in Hf.
  destruct (findMatches (cleanText text) !! k) as [[j m]|] eqn:Ek; [|done].
  simpl in Hf. injection Hf as <-.
  pose proof (execLoop_matches (S (length (cleanText text))) (cleanText text) 0) as Hall.
  rewrite Forall_forall in Hall.
  assert (Hm : matchHeader (drop j (cleanText text)) = Some m).
  { apply (Hall (j, m)). by eapply list_elem_of_lookup_2. }
  apply matchHeader_groups in Hm
    as (ws1 & ws2 & r & _ & _ & Hch & Hft & Hnum & _ & [Lm _] & [Ly _]).
  unfold ficheOfMatch. destruct (ficheSpan _ _ _ _) as [a b].
  cbn [chapter ficheType ficheTypeName ficheNumber updateDate ficheRef chapterName pseLevel snd].
  repeat split; try tauto.
  - apply elem_of_cons in Hft as [->|Hft]; [vm_compute; set_solver|].
    apply elem_of_cons in Hft as [->|Hft]; [vm_compute; set_solver|].
    apply list_elem_of_singleton in Hft as ->. vm_compute. set_solver.
  - rewrite !length_app, Lm, Ly. reflexivity.
  - apply orElse_cases.
  - unfold detectPSELevel. destruct (test _ _); [set_solver|]. destruct (test _ _); set_solver.
Qed.

End Parser_more.

(** X2, witness: the first fiche of the scenario. *)
Lemma fiches_well_formed_witness :
  let f :=
    {| Import_script.content :=
         js "[05PR08 / 12-2022] PSE① Hémorragie externe" ++ [LF] ++ js "Body text...";
       Import_script.chapter := js "05";
       Import_script.chapterName := js "Urgences vitales";
       Import_script.ficheType := js "PR";
       Import_script.ficheTypeName := js "Procédure";
       Import_script.ficheRef := js "05PR08";
       Import_script.ficheNumber := js "08";
       Import_script.updateDate := js "12-2022";
       Import_script.pseLevel := Some 1 |} in
  f ∈ Import_script.splitIntoPSEFiches scenarioText
  ∧ length (Import_script.updateDate f) = 7%nat.
Proof.
  intros f.
  assert (Hf : f ∈ Import_script.splitIntoPSEFiches scenarioText) by (vm_compute; left).
  split; [exact Hf|].
  exact (proj1 (proj2 (proj2 (proj2 (fiches_well_formed scenarioText f Hf))))).
Defined.

(** * White space after cleaning *)

Section Cleaning.
Import Import_script.

Lemma runsBelow_block p k n a b :
  Forall (λ c, p c = true) a → (n + length a < k)%nat →
  runsBelow p k n (a ++ b) = runsBelow p k (n + length a) b.
Proof.
  revert n. induction a as [|c a IH]; intros n Ha Hn.
  - by rewrite Nat.add_0_r.
  - apply Forall_cons in Ha as [Hc Ha]. cbn [app runsBelow length] in *. rewrite Hc.
    destruct (Nat.ltb_spec (S n) k); [|lia]. cbn [andb].
    rewrite IH by (done || lia). f_equal. lia.
Qed.

Lemma runsBelow_prefix p k n a b :
  runsBelow p k n (a ++ b) = true → runsBelow p k n a = true.
Proof.
  revert n. induction a as [|c a IH]; intros n; [done|].
  cbn [app runsBelow]. destruct (p c); [|apply IH].
  intros [? ?]%andb_true_iff. apply andb_true_iff. split; [done|]. by apply IH.
Qed.

Lemma runsBelow_mono p k n m s :
  (m ≤ n)%nat → runsBelow p k n s = true → runsBelow p k m s = true.
Proof.
  revert n m. induction s as [|c r IH]; intros n m Hmn; [done|].
  cbn [runsBelow]. destruct (p c); [|done].
  intros [Hn Hr]%andb_true_iff. apply Nat.ltb_lt in Hn.
  apply andb_true_iff. split; [apply Nat.ltb_lt; lia|].
  by apply (IH (S n)); [lia|].
Qed.

Lemma runsBelow_suffix p k n a b :
  runsBelow p k n (a ++ b) = true → runsBelow p k 0 b = true.
Proof.
  revert n. induction a as [|c a IH]; intros n.
  - apply runsBelow_mono. lia.
  - cbn [app runsBelow]. destruct (p c); [|apply IH].
    intros [_ ?]%andb_true_iff. by eapply IH.
Qed.

Lemma runsBelow_leading p k n s :
  runsBelow p k n s = true →
  length (span p s).1 = 0%nat ∨ (n + length (span p s).1 < k)%nat.
Proof.
  revert n. induction s as [|c r IH]; intros n; [by left|].
  cbn [runsBelow span]. destruct (p c); [|by left].
  intros [Hn Hr]%andb_true_iff. apply Nat.ltb_lt in Hn. right.
  destruct (span p r) as [a b] eqn:E. cbn [fst length].
  specialize (IH _ Hr). cbn [fst] in IH. lia.
Qed.

Lemma flushRun_block p k k' repl run :
  Forall (λ c, p c = true) repl → (length repl < k')%nat → (k ≤ k')%nat →
  Forall (λ c, p c = true) run →
  Forall (λ c, p c = true) (flushRun k repl run) ∧ (length (flushRun k repl run) < k')%nat.
Proof.
  intros Hrepl Hk Hkk Hrun. unfold flushRun.
  destruct run as [|c run]; [split; [constructor|simpl; lia]|].
  destruct (Nat.leb_spec k (length (c :: run))); [done|].
  split; [by apply Forall_rev|]. rewrite length_rev. lia.
Qed.

(** After the replacement of the runs of [k] code units or more by fewer
    than [k'] code units of the same class, with [k] at most [k'], no run of
    [k'] is left. *)
Lemma replaceRunsFrom_runsBelow p k k' repl run s :
  Forall (λ c, p c = true) repl → (length repl < k')%nat → (k ≤ k')%nat →
  Forall (λ c, p c = true) run →
  runsBelow p k' 0 (replaceRunsFrom p k repl run s) = true.
Proof.
  intros Hrepl Hk Hkk. revert run. induction s as [|c r IH]; intros run Hrun; cbn [replaceRunsFrom].
  - destruct (flushRun_block p k k' repl run Hrepl Hk Hkk Hrun) as [HF HL].
    rewrite <- (app_nil_r (flushRun k repl run)). by rewrite runsBelow_block.
  - destruct (p c) eqn:Ec; [apply IH; by constructor|].
    destruct (flushRun_block p k k' repl run Hrepl Hk Hkk Hrun) as [HF HL].
    rewrite runsBelow_block by done. cbn [runsBelow]. rewrite Ec. apply IH. constructor.
Qed.

Lemma trimStart_suffix s : ∃ w, s = w ++ trimStart s.
Proof. exists (span isWhiteSpace s).1. unfold trimStart. by rewrite span_app. Qed.

Lemma trimEnd_prefix s : ∃ w, s = trimEnd s ++ w.
Proof.
  destruct (trimStart_suffix (rev s)) as [w Hw]. exists (rev w). unfold trimEnd.
  rewrite <- rev_app_distr, <- Hw. by rewrite rev_involutive.
Qed.

Lemma trim_runsBelow k s :
  runsBelow isWhiteSpace k 0 s = true → runsBelow isWhiteSpace k 0 (trim s) = true.
Proof.
  intros Hs. unfold trim.
  destruct (trimStart_suffix s) as [w Hw]. rewrite Hw in Hs. apply runsBelow_suffix in Hs.
  destruct (trimEnd_prefix (trimStart s)) as [w' Hw']. rewrite Hw' in Hs.
  by apply runsBelow_prefix in Hs.
Qed.

Lemma trimStart_head s c : head (trimStart s) = Some c → isWhiteSpace c = false.
Proof.
  unfold trimStart. destruct (span isWhiteSpace s).2 as [|d r] eqn:E; [done|].
  intros [= <-]. by eapply span_rest.
Qed.

Lemma last_rev {A} (l : list A) : last (rev l) = head l.
Proof. destruct l as [|x l]; [done|]. simpl. apply last_snoc. Qed.

(** The ends of a trimmed string are not white space. *)
Lemma trim_ends s :
  (∀ c, head (trim s) = Some c → isWhiteSpace c = false)
  ∧ (∀ c, last (trim s) = Some c → isWhiteSpace c = false).
Proof.
  split; intros c Hc.
  - destruct (trimEnd_prefix (trimStart s)) as [w Hw]. fold (trim s) in Hw.
    apply (trimStart_head s). rewrite Hw. by destruct (trim s).
  - unfold trim, trimEnd in Hc. rewrite last_rev in Hc. by eapply trimStart_head.
Qed.

Lemma matchBlankLines_None n s :
  runsBelow isWhiteSpace 3 n s = true → matchBlankLines s = None.
Proof.
  destruct s as [|c r]; [done|]. cbn [runsBelow matchBlankLines].
  destruct (N.eqb_spec c LF) as [->|]; [|done].
  change (isWhiteSpace LF) with true. cbv iota.
  intros [Hn Hr]%andb_true_iff. apply runsBelow_leading in Hr.
  pose proof (length_filter (λ d, d = LF) (span isWhiteSpace r).1) as Hle.
  destruct (Nat.leb_spec 2 (length (filter (λ d, d = LF) (span isWhiteSpace r).1))); [lia|done].
Qed.

Lemma replaceBlankLines_id n s :
  runsBelow isWhiteSpace 3 n s = true → replaceBlankLinesFrom 0 s = s.
Proof.
  revert n. induction s as [|c r IH]; intros n Hs; [done|].
  cbn [replaceBlankLinesFrom]. rewrite (matchBlankLines_None n) by done.
  f_equal. cbn [runsBelow] in Hs. destruct (isWhiteSpace c).
  - apply andb_true_iff in Hs as [_ Hs]. by eapply IH.
  - by eapply IH.
Qed.

(** X3. The second replacement of the cleaning of a fiche, the one of three
    line feeds with white space between them, never applies: the first
    replacement has left no three code units of white space in a row.  The
    content is the trimmed result of the first replacement alone: three line
    feeds or more become two spaces. *)
Theorem normalizeContent_one_replacement (ficheContent : jsstring) :
  replaceBlankLines (replaceRuns isWhiteSpace 3 [SP; SP] ficheContent)
  = replaceRuns isWhiteSpace 3 [SP; SP] ficheContent
  ∧ normalizeContent ficheContent = trim (replaceRuns isWhiteSpace 3 [SP; SP] ficheContent)
  ∧ normalizeContent ([0x61; LF; LF; LF; 0x62]) = [0x61; SP; SP; 0x62].
Proof.
  assert (H : replaceBlankLines (replaceRuns isWhiteSpace 3 [SP; SP] ficheContent)
              = replaceRuns isWhiteSpace 3 [SP; SP] ficheContent).
  { apply (replaceBlankLines_id 0). apply replaceRunsFrom_runsBelow.
    - by repeat constructor.
    - simpl. lia.
    - lia.
    - constructor. }
  split; [exact H|]. split; [|by vm_compute].
  unfold normalizeContent. by rewrite H.
Qed.

(** X4. The content of every fiche has neither white space at its ends nor
    three code units of white space in a row. *)
Theorem fiche_content_trimmed (text : jsstring) (f : PSEFiche) :
  f ∈ splitIntoPSEFiches text →
  runsBelow isWhiteSpace 3 0 (Import_script.content f) = true
  ∧ (∀ c, head (Import_script.content f) = Some c → isWhiteSpace c = false)
  ∧ (∀ c, last (Import_script.content f) = Some c → isWhiteSpace c = false).
Proof.
  unfold splitIntoPSEFiches. intros Hf.
  apply list_elem_of_lookup_1 in Hf as [k Hf]. rewrite list_lookup_imap in Hf.
  destruct (findMatches (cleanText text) !! k) as [cur|] eqn:Ek; [|done].
  simpl in Hf. injection Hf as <-.
  unfold ficheOfMatch. destruct (ficheSpan _ _ _ _) as [a b]. cbn [Import_script.content].
  split; [|apply trim_ends].
  assert (Hr : runsBelow isWhiteSpace 3 0
                 (replaceRuns isWhiteSpace 3 [SP; SP] (trim (slice (cleanText text) a b))) = true).
  { apply replaceRunsFrom_runsBelow; [by repeat constructor|simpl; lia|lia|constructor]. }
  unfold normalizeContent. apply trim_runsBelow.
  unfold replaceBlankLines. by rewrite (replaceBlankLines_id 0).
Qed.

End Cleaning.

(** * More on the fallback splitter *)

Section Chunks_more.
Import Import_script.

Lemma trim_middle s : ∃ w w', s = w ++ trim s ++ w'
  ∧ Forall (λ c, isWhiteSpace c = true) w ∧ Forall (λ c, isWhiteSpace c = true) w'.
Proof.
  exists (span isWhiteSpace s).1, (rev (span isWhiteSpace (rev (trimStart s))).1).
  split; [|split].
  - unfold trim, trimEnd, trimStart at 3.
    rewrite <- rev_app_distr, span_app, rev_involutive. unfold trimStart. by rewrite span_app.
  - apply span_all.
  - apply Forall_rev, span_all.
Qed.

Lemma slice_middle (s : jsstring) a b : ∃ l r, s = l ++ slice s a b ++ r.
Proof.
  exists (take a s), (drop (b - a) (drop a s)). unfold slice.
  by rewrite take_drop, take_drop.
Qed.

Lemma sliceZ_middle (s : jsstring) a b : ∃ l r, s = l ++ sliceZ s a b ++ r.
Proof. apply slice_middle. Qed.

Lemma flushRun_one repl run : flushRun 1 repl run = [] ∨ flushRun 1 repl run = repl.
Proof.
  destruct run as [|c run]; [by left|]. right. unfold flushRun.
  destruct (Nat.leb_spec 1 (length (c :: run))); [done|simpl in *; lia].
Qed.

(** After the replacement of every run of the class, the code units of the
    class are those of the replacement. *)
Lemma replaceRunsFrom_one p repl run s :
  Forall (λ c, p c = true → c ∈ repl) (replaceRunsFrom p 1 repl run s).
Proof.
  assert (Hrepl : Forall (λ c, p c = true → c ∈ repl) repl) by (by apply Forall_forall).
  revert run. induction s as [|c r IH]; intros run; cbn [replaceRunsFrom].
  - destruct (flushRun_one repl run) as [->| ->]; [constructor|done].
  - destruct (p c) eqn:Ec; [apply IH|].
    apply Forall_app. split.
    + destruct (flushRun_one repl run) as [->| ->]; [constructor|done].
    + constructor; [congruence|apply IH].
Qed.

Lemma lastIndexIn_absent c s i found : c ∉ s → lastIndexIn c s i found = found.
Proof.
  revert i found. induction s as [|d r IH]; intros i found Hc; [done|].
  cbn [lastIndexIn]. apply not_elem_of_cons in Hc as [Hd Hr].
  rewrite IH by done. destruct (N.eqb_spec d c); congruence.
Qed.

Lemma cleanChunkText_facts (text : jsstring) :
  let cleanedText := cleanChunkText text in
  Forall (λ c, isWhiteSpace c = true → c = SP) cleanedText
  ∧ runsBelow isWhiteSpace 2 0 cleanedText = true
  ∧ (∀ c, head cleanedText = Some c → isWhiteSpace c = false)
  ∧ (∀ c, last cleanedText = Some c → isWhiteSpace c = false)
  ∧ (∀ position, lastIndexOf cleanedText LF position = (-1)%Z)
  ∧ (∀ start, windowEnd cleanedText start = (start + CHUNK_SIZE)%Z
              ∨ (windowEnd cleanedText start
                 = lastIndexOf cleanedText 0x2E (start + CHUNK_SIZE) + 1)%Z).
Proof.
  intros cleanedText.
  set (inner := replaceRuns isWhiteSpace 1 [SP]
                  (replaceRuns (N.eqb LF) 3 [LF; LF] (replaceCRLF text))).
  destruct (trim_middle inner) as (w & w' & Hmid & _ & _).
  assert (Hsp : Forall (λ c, isWhiteSpace c = true → c = SP) cleanedText).
  { pose proof (replaceRunsFrom_one isWhiteSpace [SP] []
                  (replaceRuns (N.eqb LF) 3 [LF; LF] (replaceCRLF text))) as Hin.
    fold (replaceRuns isWhiteSpace 1 [SP] (replaceRuns (N.eqb LF) 3 [LF; LF] (replaceCRLF text)))
      in Hin. fold inner in Hin. rewrite Hmid in Hin.
    apply Forall_app in Hin as [_ Hin]. apply Forall_app in Hin as [Hin _].
    eapply Forall_impl; [exact Hin|]. simpl. intros c Hc Hws.
    by apply list_elem_of_singleton, Hc. }
  assert (Hlf : ∀ position, lastIndexOf cleanedText LF position = (-1)%Z).
  { intros position. unfold lastIndexOf. apply lastIndexIn_absent.
    intros Hin%(subseteq_take _ cleanedText). rewrite Forall_forall in Hsp.
    by specialize (Hsp LF Hin eq_refl). }
  split; [exact Hsp|]. split; [|split; [|split; [|split; [exact Hlf|]]]].
  - apply trim_runsBelow, replaceRunsFrom_runsBelow; [by repeat constructor|simpl; lia|lia|constructor].
  - apply trim_ends.
  - apply trim_ends.
  - intros start. unfold windowEnd. destruct (_ <? _)%Z; [|by left].
    rewrite Hlf. destruct (_ <? _)%Z eqn:E; [|by left]. right.
    pose proof (lastIndexIn_bound 0x2E
      (take (Z.to_nat (Z.max 0 (start + CHUNK_SIZE) + 1)) cleanedText) 0 (-1)) as Hb.
    fold (lastIndexOf cleanedText 0x2E (start + CHUNK_SIZE)) in Hb. lia.
Qed.

(** X5. The text that the splitter cuts has no white space but single
    spaces, and none at its ends.  It holds no line feed, so that the search
    for the last line feed always gives [-1]: a window is cut short after a
    full stop only. *)
Theorem cleanChunkText_spaces (text : jsstring) :
  let cleanedText := cleanChunkText text in
  Forall (λ c, isWhiteSpace c = true → c = SP) cleanedText
  ∧ runsBelow isWhiteSpace 2 0 cleanedText = true
  ∧ (∀ c, head cleanedText = Some c → isWhiteSpace c = false)
  ∧ (∀ c, last cleanedText = Some c → isWhiteSpace c = false)
  ∧ (∀ position, lastIndexOf cleanedText LF position = (-1)%Z)
  ∧ (∀ start, windowEnd cleanedText start = (start + CHUNK_SIZE)%Z
              ∨ (windowEnd cleanedText start
                 = lastIndexOf cleanedText 0x2E (start + CHUNK_SIZE) + 1)%Z).
Proof. apply cleanChunkText_facts. Qed.

(** The loop in terms of its windows. *)
Lemma chunkLoop_windows fuel cleanedText start :
  chunkLoop fuel cleanedText start
  = flat_map (chunkOfWindow cleanedText) (chunkWindows fuel cleanedText start).
Proof.
  revert start. induction fuel as [|fuel IH]; intros start; cbn [chunkLoop chunkWindows]; [done|].
  destruct (_ <? _)%Z; [|done]. cbn [flat_map]. by rewrite IH.
Qed.

Lemma chunkWindows_fuel fuel1 fuel2 cleanedText start :
  (0 ≤ start)%Z →
  (Z.of_nat (length cleanedText) - start < Z.of_nat fuel1)%Z →
  (Z.of_nat (length cleanedText) - start < Z.of_nat fuel2)%Z →
  chunkWindows fuel1 cleanedText start = chunkWindows fuel2 cleanedText start.
Proof.
  revert fuel2 start. induction fuel1 as [|fuel1 IH]; intros fuel2 start H0 H1 H2.
  - destruct fuel2 as [|fuel2]; [done|]. cbn [chunkWindows].
    destruct (Z.ltb_spec start (Z.of_nat (length cleanedText))); [lia|done].
  - destruct fuel2 as [|fuel2]; cbn [chunkWindows];
      destruct (Z.ltb_spec start (Z.of_nat (length cleanedText))); try done; try lia.
    f_equal. pose proof (windowEnd_bounds cleanedText start H0).
    unfold CHUNK_OVERLAP, CHUNK_SIZE in *. apply IH; lia.
Qed.

Lemma chunkWindows_shape fuel cleanedText start :
  (0 ≤ start)%Z →
  (Z.of_nat (length cleanedText) - start < Z.of_nat fuel)%Z →
  let W := chunkWindows fuel cleanedText start in
  Forall (λ w, (start ≤ w.1 < Z.of_nat (length cleanedText))%Z
               ∧ (w.1 + 250 < w.2 ≤ w.1 + CHUNK_SIZE + 1)%Z) W
  ∧ (∀ k w1 w2, W !! k = Some w1 → W !! S k = Some w2 →
        w2.1 = (w1.2 - CHUNK_OVERLAP)%Z)
  ∧ (∀ i, (start ≤ i < Z.of_nat (length cleanedText))%Z →
        ∃ w, w ∈ W ∧ (w.1 ≤ i < w.2)%Z).
Proof.
  revert start. induction fuel as [|fuel IH]; intros start H0 Hf.
  { cbv zeta. cbn [chunkWindows]. split; [constructor|]. split; [by intros ? ? ? [=]|].
    intros i Hi. lia. }
  cbn [chunkWindows]. destruct (Z.ltb_spec start (Z.of_nat (length cleanedText))) as [Hlt|Hge].
  2:{ cbv zeta. split; [constructor|]. split; [by intros ? ? ? [=]|]. intros i Hi. lia. }
  pose proof (windowEnd_bounds cleanedText start H0) as [Hw1 Hw2].
  unfold CHUNK_OVERLAP, CHUNK_SIZE in *.
  destruct (IH (windowEnd cleanedText start - 100)%Z ltac:(lia) ltac:(lia)) as (IH1 & IH2 & IH3).
  cbv zeta. split; [|split].
  - constructor; [simpl; lia|]. eapply Forall_impl; [exact IH1|]. simpl. lia.
  - intros [|k] w1 w2 Hk1 Hk2.
    + simpl in Hk1. injection Hk1 as <-. simpl in Hk2.
      set (rest := chunkWindows fuel cleanedText (windowEnd cleanedText start - 100)) in *.
      destruct fuel as [|fuel']; [done|]. unfold rest in Hk2. cbn [chunkWindows] in Hk2.
      destruct (_ <? _)%Z; [|done]. simpl in Hk2. by injection Hk2 as <-.
    + simpl in Hk1, Hk2. by eapply IH2.
  - intros i Hi.
    destruct (Z.lt_ge_cases i (windowEnd cleanedText start)) as [Hin|Hout].
    + exists (start, windowEnd cleanedText start). split; [left|simpl; lia].
    + destruct (IH3 i ltac:(lia)) as (w & Hw & Hi'). exists w. split; [by right|done].
Qed.

(** X6. The windows of the splitter: the chunks are those of the windows
    that hold more than 50 code units once trimmed; a window starts at most
    [CHUNK_SIZE] + 1 and at least 251 code units before it ends, and the
    next one starts [CHUNK_OVERLAP] code units before that end; every offset
    of the text lies in a window; and the loop ends within as many rounds as
    the text has code units. *)
Theorem splitIntoChunks_windows (text : jsstring) :
  let cleanedText := cleanChunkText text in
  let W := chunkWindows (S (length cleanedText)) cleanedText 0 in
  splitIntoChunks text = flat_map (chunkOfWindow cleanedText) W
  ∧ Forall (λ w, (0 ≤ w.1 < Z.of_nat (length cleanedText))%Z
                 ∧ (w.1 + 250 < w.2 ≤ w.1 + CHUNK_SIZE + 1)%Z) W
  ∧ (∀ k w1 w2, W !! k = Some w1 → W !! S k = Some w2 → w2.1 = (w1.2 - CHUNK_OVERLAP)%Z)
  ∧ (∀ i, (0 ≤ i < Z.of_nat (length cleanedText))%Z → ∃ w, w ∈ W ∧ (w.1 ≤ i < w.2)%Z)
  ∧ (∀ fuel, (length cleanedText < fuel)%nat → chunkWindows fuel cleanedText 0 = W).
Proof.
  intros cleanedText W.
  destruct (chunkWindows_shape (S (length cleanedText)) cleanedText 0 ltac:(lia) ltac:(lia))
    as (H1 & H2 & H3).
  split; [apply chunkLoop_windows|]. split; [exact H1|]. split; [exact H2|].
  split; [exact H3|].
  intros fuel Hf. apply chunkWindows_fuel; lia.
Qed.

End Chunks_more.

Section Chunks_kept.
Import Import_script.

Lemma run_short p k n w x :
  Forall (λ c, p c = true) w → runsBelow p k n (w ++ x) = true →
  w = [] ∨ (n + length w < k)%nat.
Proof.
  revert n. induction w as [|c w IH]; intros n Hw Hr; [by left|]. right.
  apply Forall_cons in Hw as [Hc Hw]. cbn [app runsBelow] in Hr. rewrite Hc in Hr.
  apply andb_true_iff in Hr as [Hn Hr]. apply Nat.ltb_lt in Hn.
  destruct (IH _ Hw Hr) as [->|?]; simpl; lia.
Qed.

(** Trimming takes at most one code unit at each end of a text without two
    code units of white space in a row. *)
Lemma trim_length_ge s :
  runsBelow isWhiteSpace 2 0 s = true → (length s ≤ length (trim s) + 2)%nat.
Proof.
  intros Hs. destruct (trim_middle s) as (w & w' & Hmid & Hw & Hw').
  rewrite Hmid in Hs.
  pose proof (run_short _ _ _ _ _ Hw Hs) as H1.
  apply runsBelow_suffix, runsBelow_suffix in Hs.
  rewrite <- (app_nil_r w') in Hs. pose proof (run_short _ _ _ _ _ Hw' Hs) as H2.
  apply (f_equal length) in Hmid. rewrite !length_app in Hmid.
  destruct H1 as [->|?], H2 as [->|?]; simpl in *; lia.
Qed.

Lemma trim_fixed s :
  (∀ c, head s = Some c → isWhiteSpace c = false) →
  (∀ c, last s = Some c → isWhiteSpace c = false) →
  trim s = s.
Proof.
  intros Hh Hl. destruct (trim_middle s) as (w & w' & Hmid & Hw & Hw').
  assert (w = []) as ->.
  { destruct w as [|c w]; [done|]. apply Forall_cons in Hw as [Hc _].
    rewrite Hmid in Hh. specialize (Hh c eq_refl). congruence. }
  assert (w' = []) as ->.
  { destruct (decide (w' = [])) as [|Hne]; [done|].
    destruct (exists_last Hne) as (u & c & ->).
    apply Forall_app in Hw' as [_ Hc]. apply Forall_cons in Hc as [Hc _].
    rewrite Hmid in Hl. rewrite !app_assoc, last_snoc in Hl.
    specialize (Hl c eq_refl). congruence. }
  rewrite app_nil_r in Hmid. simpl in Hmid. by symmetry.
Qed.

Lemma sliceZ_inner (s : jsstring) a b :
  (0 ≤ a ≤ b)%Z → (b ≤ Z.of_nat (length s))%Z →
  Z.of_nat (length (sliceZ s a b)) = (b - a)%Z.
Proof.
  intros Hab Hb. unfold sliceZ, slice, relativeIndex.
  destruct (Z.ltb_spec a 0); [lia|]. destruct (Z.ltb_spec b 0); [lia|].
  rewrite length_take, length_drop. lia.
Qed.

Lemma sliceZ_to_end (s : jsstring) a b :
  (0 ≤ a)%Z → (Z.of_nat (length s) ≤ b)%Z → sliceZ s a b = drop (Z.to_nat a) s.
Proof.
  intros Ha Hb. unfold sliceZ, slice, relativeIndex.
  destruct (Z.ltb_spec a 0); [lia|]. destruct (Z.ltb_spec b 0); [lia|].
  replace (Nat.min (Z.to_nat b) (length s)) with (length s) by lia.
  destruct (Nat.le_gt_cases (Z.to_nat a) (length s)).
  - replace (Nat.min (Z.to_nat a) (length s)) with (Z.to_nat a) by lia.
    apply take_ge. rewrite length_drop. lia.
  - replace (Nat.min (Z.to_nat a) (length s)) with (length s) by lia.
    rewrite Nat.sub_diag, take_0. symmetry. apply drop_ge. lia.
Qed.

Lemma kept_windows_cover fuel cleanedText start :
  runsBelow isWhiteSpace 2 0 cleanedText = true →
  (0 ≤ start < Z.of_nat (length cleanedText))%Z →
  (Z.of_nat (length cleanedText) - start < Z.of_nat fuel)%Z →
  (50 < length (trim (drop (Z.to_nat start) cleanedText)))%nat →
  ∀ i, (start ≤ i < Z.of_nat (length cleanedText))%Z →
    ∃ w, w ∈ chunkWindows fuel cleanedText start ∧ (w.1 ≤ i < w.2)%Z
         ∧ chunkOfWindow cleanedText w = [trim (sliceZ cleanedText w.1 w.2)].
Proof.
  intros Hruns. revert start.
  induction fuel as [|fuel IH]; intros start Hs Hf Hkeep i Hi; [lia|].
  cbn [chunkWindows]. destruct (Z.ltb_spec start (Z.of_nat (length cleanedText))); [|lia].
  pose proof (windowEnd_bounds cleanedText start ltac:(lia)) as [Hw1 Hw2].
  unfold CHUNK_OVERLAP, CHUNK_SIZE in *.
  set (e := windowEnd cleanedText start) in *.
  destruct (Z.lt_ge_cases e (Z.of_nat (length cleanedText))) as [Hin|Hout].
  - assert (Hk : (50 < length (trim (sliceZ cleanedText start e)))%nat).
    { pose proof (sliceZ_inner cleanedText start e ltac:(lia) ltac:(lia)) as Hl.
      destruct (sliceZ_middle cleanedText start e) as (l & r & Hm).
      assert (Hr : runsBelow isWhiteSpace 2 0 (sliceZ cleanedText start e) = true).
      { rewrite Hm in Hruns. by apply runsBelow_suffix, runsBelow_prefix in Hruns. }
      apply trim_length_ge in Hr. lia. }
    destruct (Z.lt_ge_cases i e) as [Hie|Hie].
    + exists (start, e). split; [left|]. split; [simpl; lia|].
      unfold chunkOfWindow. cbn [fst snd]. apply Nat.ltb_lt in Hk. by rewrite Hk.
    + assert (Hk' : (50 < length (trim (drop (Z.to_nat (e - 100)) cleanedText)))%nat).
      { assert (Hr : runsBelow isWhiteSpace 2 0 (drop (Z.to_nat (e - 100)) cleanedText) = true).
        { rewrite <- (take_drop (Z.to_nat (e - 100)) cleanedText) in Hruns.
          by apply runsBelow_suffix in Hruns. }
        apply trim_length_ge in Hr. rewrite length_drop in Hr. lia. }
      destruct (IH (e - 100)%Z ltac:(lia) ltac:(lia) Hk' i ltac:(lia)) as (w & Hw & Hiw & Hkw).
      exists w. split; [by right|done].
  - exists (start, e). split; [left|]. split; [simpl; lia|].
    unfold chunkOfWindow. cbn [fst snd].
    rewrite sliceZ_to_end by lia. apply Nat.ltb_lt in Hkeep. by rewrite Hkeep.
Qed.

(** X7. Every chunk is a piece of the cleaned text, of more than 50 and at
    most [CHUNK_SIZE] + 1 code units, with no white space at its ends and no
    white space inside but single spaces. *)
Theorem chunks_are_pieces (text chunk : jsstring) :
  chunk ∈ splitIntoChunks text →
  (∃ l r, cleanChunkText text = l ++ chunk ++ r)
  ∧ (50 < length chunk)%nat ∧ (Z.of_nat (length chunk) ≤ CHUNK_SIZE + 1)%Z
  ∧ Forall (λ c, isWhiteSpace c = true → c = SP) chunk
  ∧ runsBelow isWhiteSpace 2 0 chunk = true
  ∧ (∀ c, head chunk = Some c → isWhiteSpace c = false)
  ∧ (∀ c, last chunk = Some c → isWhiteSpace c = false).
Proof.
  intros Hc.
  pose proof (splitIntoChunks_lengths text) as Hlen. rewrite Forall_forall in Hlen.
  destruct (Hlen _ Hc) as [Hmin Hmax].
  unfold splitIntoChunks in Hc. rewrite chunkLoop_windows in Hc.
  apply list_elem_of_In, in_flat_map in Hc as (w & _ & Hw).
  unfold chunkOfWindow in Hw. destruct (_ <? _)%nat; [|done].
  destruct Hw as [<-|[]].
  set (cleanedText := cleanChunkText text) in *.
  destruct (sliceZ_middle cleanedText w.1 w.2) as (l & r & Hs).
  destruct (trim_middle (sliceZ cleanedText w.1 w.2)) as (u & u' & Ht & _ & _).
  assert (Hm : cleanedText = (l ++ u) ++ trim (sliceZ cleanedText w.1 w.2) ++ (u' ++ r)).
  { rewrite Hs at 1. rewrite Ht at 1. by rewrite <- !app_assoc. }
  pose proof (cleanChunkText_facts text) as (Hsp & Hruns & _).
  fold cleanedText in Hsp, Hruns.
  split; [by exists (l ++ u), (u' ++ r)|]. split; [done|]. split; [done|].
  split; [|split; [|apply trim_ends]].
  - rewrite Hm in Hsp. apply Forall_app in Hsp as [_ Hsp]. by apply Forall_app in Hsp as [Hsp _].
  - rewrite Hm in Hruns. by apply runsBelow_suffix, runsBelow_prefix in Hruns.
Qed.

(** X8. A text of at most 50 code units once cleaned gives no chunk; a
    longer one loses nothing: every offset of the cleaned text lies in a
    window whose chunk is kept. *)
Theorem splitIntoChunks_loses_nothing (text : jsstring) :
  let cleanedText := cleanChunkText text in
  let W := chunkWindows (S (length cleanedText)) cleanedText 0 in
  ((length cleanedText ≤ 50)%nat → splitIntoChunks text = [])
  ∧ ((50 < length cleanedText)%nat →
     ∀ i, (0 ≤ i < Z.of_nat (length cleanedText))%Z →
       ∃ w, w ∈ W ∧ (w.1 ≤ i < w.2)%Z
            ∧ trim (sliceZ cleanedText w.1 w.2) ∈ splitIntoChunks text).
Proof.
  intros cleanedText W. split.
  - intros Hshort. destruct (splitIntoChunks text) as [|chunk rest] eqn:E; [done|].
    assert (Hc : chunk ∈ splitIntoChunks text) by (rewrite E; left).
    pose proof (splitIntoChunks_lengths text) as Hlen. rewrite Forall_forall in Hlen.
    destruct (Hlen _ Hc) as [Hmin _].
    unfold splitIntoChunks in Hc. rewrite chunkLoop_windows in Hc.
    apply list_elem_of_In, in_flat_map in Hc as (w & _ & Hw).
    unfold chunkOfWindow in Hw. destruct (_ <? _)%nat; [|done].
    destruct Hw as [<-|[]].
    pose proof (trim_length (sliceZ (cleanChunkText text) w.1 w.2)) as H1.
    destruct (sliceZ_middle (cleanChunkText text) w.1 w.2) as (l & r & Hs).
    apply (f_equal length) in Hs. rewrite !length_app in Hs. fold cleanedText in Hs.
    fold cleanedText in H1, Hmin. lia.
  - intros Hlong i Hi.
    pose proof (cleanChunkText_facts text) as (_ & Hruns & Hh & Hl & _).
    fold cleanedText in Hruns, Hh, Hl.
    assert (Hk0 : (50 < length (trim (drop (Z.to_nat 0) cleanedText)))%nat).
    { change (Z.to_nat 0) with 0%nat. rewrite drop_0, trim_fixed by done. lia. }
    destruct (kept_windows_cover (S (length cleanedText)) cleanedText 0 Hruns
                ltac:(lia) ltac:(lia) Hk0 i Hi) as (w & Hw & Hiw & Hk).
    exists w. split; [exact Hw|]. split; [exact Hiw|].
    unfold splitIntoChunks. fold cleanedText. rewrite chunkLoop_windows.
    apply list_elem_of_In, in_flat_map. exists w. split; [by apply list_elem_of_In|].
    rewrite Hk. by left.
Qed.

End Chunks_kept.

(** * More on the merge *)

Section Merge_more.
Context `{CM : CaseMapping}.

Lemma List_filter_sublist {A} (P : A → bool) l : List.filter P l `sublist_of` l.
Proof.
  induction l as [|x r IH]; [done|]. cbn [List.filter].
  destruct (P x); [by apply sublist_skip|by apply sublist_cons].
Qed.

Lemma filterBySource_sublist sourceFilter l : filterBySource sourceFilter l `sublist_of` l.
Proof.
  unfold filterBySource. destruct sourceFilter as [sf|]; [|done].
  destruct (truthy (Some sf)); [apply List_filter_sublist|done].
Qed.

Lemma finish_NoDup k sourceFilter merged :
  NoDup (id <$> merged) →
  NoDup (id <$> take k (sortBySimilarity (filterBySource sourceFilter merged))).
Proof.
  intros Hnd.
  apply (sublist_NoDup _ (id <$> sortBySimilarity (filterBySource sourceFilter merged)));
    [|apply fmap_sublist, sublist_take].
  rewrite sortBySimilarity_perm.
  apply (sublist_NoDup _ (id <$> merged)); [done|].
  apply fmap_sublist, filterBySource_sublist.
Qed.

Lemma mergeResults_NoDup gate l :
  (∀ d, id (gate d) = id d) → NoDup (id <$> mergeResults gate l).
Proof.
  intros Hg. rewrite mergeResults_firstOccurrences, <- list_fmap_compose.
  replace (id ∘ gate <$> firstOccurrences ∅ l) with (id <$> firstOccurrences ∅ l).
  - apply firstOccurrences_NoDup.
  - apply list_fmap_ext. intros ? d _. symmetry. apply Hg.
Qed.

Lemma mergeResults_elem gate l x :
  x ∈ mergeResults gate l → ∃ d, d ∈ l ∧ x = gate d.
Proof.
  rewrite mergeResults_firstOccurrences. intros (d & -> & Hd)%list_elem_of_fmap.
  apply firstOccurrences_unseen in Hd as [_ Hd]. by exists d.
Qed.

(** X9. No route returns two documents of the same identity. *)
Theorem searchDocuments_distinct svc query originalQuery sourceFilter :
  NoDup (id <$> Chat.searchDocuments svc query originalQuery sourceFilter)
  ∧ NoDup (id <$> Chat2.searchDocuments svc query originalQuery sourceFilter)
  ∧ NoDup (id <$> Fiches.searchDocuments svc query originalQuery sourceFilter).
Proof.
  repeat split.
  - unfold Chat.searchDocuments, tryCatch.
    destruct (Chat.searchBody _ _ _ _) as [r|] eqn:E; [|constructor].
    apply Chat_searchBody_Normal in E as (? & ? & ? & ? & _ & _ & _ & ->).
    apply finish_NoDup, mergeResults_NoDup. done.
  - unfold Chat2.searchDocuments, tryCatch.
    destruct (Chat2.searchBody _ _ _ _) as [r|] eqn:E; [|constructor].
    apply Chat2_searchBody_Normal in E as (? & ? & ? & _ & _ & _ & ->).
    apply finish_NoDup, mergeResults_NoDup, relevanceGate_id.
  - unfold Fiches.searchDocuments, tryCatch.
    destruct (Fiches.searchBody _ _ _ _) as [r|] eqn:E; [|constructor].
    apply Fiches_searchBody_Normal in E as (? & ? & ? & _ & _ & _ & ->).
    apply finish_NoDup, mergeResults_NoDup, relevanceGate_id.
Qed.

Lemma relevanceGate_fields kws d :
  id (relevanceGate kws d) = id d
  ∧ content (relevanceGate kws d) = content d
  ∧ source (relevanceGate kws d) = source d
  ∧ fiche_ref (relevanceGate kws d) = fiche_ref d
  ∧ (similarity (relevanceGate kws d) = similarity d
     ∨ similarity (relevanceGate kws d) = (similarity d * 0.4)%Q).
Proof. unfold relevanceGate. destruct (_ && _); cbn; tauto. Qed.

(** X10. A route returns only documents that a pass has found.  The chat
    route returns them as they are; the two later routes may have multiplied
    the similarity by 0.4 and leave the rest as it is. *)
Theorem searchDocuments_from_passes :
  (∀ exact vector text sourceFilter x,
      x ∈ Chat.combine exact vector text sourceFilter →
      x ∈ exact ++ default [] vector ++ text)
  ∧ (∀ originalQuery exact vector sourceFilter x,
      x ∈ Chat2.combine originalQuery exact vector sourceFilter
      ∨ x ∈ Fiches.combine originalQuery exact vector sourceFilter →
      ∃ d, d ∈ exact ++ default [] vector
           ∧ id x = id d ∧ content x = content d ∧ source x = source d
           ∧ fiche_ref x = fiche_ref d
           ∧ (similarity x = similarity d ∨ similarity x = (similarity d * 0.4)%Q)).
Proof.
  split.
  - intros exact vector text sourceFilter x Hx. unfold Chat.combine in Hx.
    apply finish_elem in Hx as [Hx _]. apply mergeResults_elem in Hx as (d & Hd & ->). done.
  - intros originalQuery exact vector sourceFilter x Hx.
    assert (Hm : x ∈ mergeResults
              (relevanceGate (List.filter (longerThan 4) (wordsOf originalQuery)))
              (exact ++ default [] vector)).
    { destruct Hx as [Hx|Hx]; unfold Chat2.combine, Fiches.combine in Hx;
        by apply finish_elem in Hx as [Hx _]. }
    apply mergeResults_elem in Hm as (d & Hd & ->). exists d. split; [done|].
    apply relevanceGate_fields.
Qed.

(** X11. In the chat route a hit of the search on any key word gets between
    0.4 and 0.8, below the 0.85 at least of a hit of the search on all key
    words, which it never precedes in the results. *)
Theorem text_hits_rank_below_exact_hits (allKeywords : list jsstring) (r r' : Row) :
  (0.4 <= similarity (Chat.textScore allKeywords r) <= 0.8)%Q
  ∧ (0.85 <= similarity (Chat.exactScore r') <= 0.99)%Q
  ∧ (similarity (Chat.textScore allKeywords r) < similarity (Chat.exactScore r'))%Q
  ∧ sortBySimilarity [Chat.textScore allKeywords r; Chat.exactScore r']
    = [Chat.exactScore r'; Chat.textScore allKeywords r].
Proof.
  set (found := length (List.filter (λ k, includes (toLowerCase (row_content r)) k) allKeywords)).
  set (total := Nat.max (length allKeywords) 1).
  assert (Hshare : (0 <= inject_Z (Z.of_nat found) / inject_Z (Z.of_nat total) <= 1)%Q).
  { apply share_bounds; unfold found, total.
    - pose proof (filter_length_le (λ k, includes (toLowerCase (row_content r)) k) allKeywords).
      lia.
    - lia. }
  assert (Ht : (0.4 <= similarity (Chat.textScore allKeywords r) <= 0.8)%Q).
  { unfold Chat.textScore. cbn [similarity withSimilarity]. fold found total.
    set (share := (inject_Z (Z.of_nat found) / inject_Z (Z.of_nat total))%Q) in *.
    destruct (Q.min_spec (0.4 + share * 0.4)%Q 0.8%Q) as [[_ ->]|[_ ->]]; lra. }
  assert (He : (0.85 <= similarity (Chat.exactScore r') <= 0.99)%Q).
  { unfold Chat.exactScore. cbn [similarity withSimilarity].
    destruct (includes _ _); vm_compute; split; discriminate. }
  split; [exact Ht|]. split; [exact He|]. split; [lra|].
  unfold sortBySimilarity. cbn [foldr insertSorted].
  pose proof (compareFn_cases (Chat.textScore allKeywords r) (Chat.exactScore r')) as Hc.
  destruct (0 ?= compareFn _ _)%Q; [lra|done|lra].
Qed.

(** X12. The gate of the two later routes leaves alone a document whose
    title holds a long word of the question, and one of similarity 0.9 or
    more; a document it penalises ends at 0.36 at most, below every document
    of similarity 0.9 or more, behind which it is sorted; and with no long
    word in the question every document below 0.9 is penalised. *)
Theorem relevanceGate_spares (relevanceKeywords : list jsstring) (d : DocumentMatch) :
  (existsb (λ k, includes (extractDocumentTitle (content d)) k) relevanceKeywords = true →
   relevanceGate relevanceKeywords d = d)
  ∧ ((0.9 <= similarity d)%Q → relevanceGate relevanceKeywords d = d)
  ∧ (relevanceGate relevanceKeywords d ≠ d →
     (similarity (relevanceGate relevanceKeywords d) <= 0.36)%Q
     ∧ ∀ d', (0.9 <= similarity d')%Q →
         (similarity (relevanceGate relevanceKeywords d) < similarity d')%Q
         ∧ sortBySimilarity [relevanceGate relevanceKeywords d; d']
           = [d'; relevanceGate relevanceKeywords d])
  ∧ (relevanceKeywords = [] → (similarity d < 0.9)%Q →
     similarity (relevanceGate relevanceKeywords d) = (similarity d * 0.4)%Q).
Proof.
  split; [|split; [|split]].
  - unfold relevanceGate. intros ->. done.
  - unfold relevanceGate. intros Hs. apply Qle_bool_iff in Hs. rewrite Hs.
    by rewrite andb_false_r.
  - intros Hne.
    assert (Hle : (similarity (relevanceGate relevanceKeywords d) <= 0.36)%Q).
    { unfold relevanceGate in Hne |- *.
      destruct (negb _ && negb (Qle_bool 0.9 (similarity d))) eqn:E; [|done].
      apply andb_true_iff in E as [_ E]. apply negb_true_iff in E.
      cbn [similarity].
      assert (¬ (0.9 <= similarity d)%Q) by (intros Hle%Qle_bool_iff; congruence). lra. }
    split; [exact Hle|]. intros d' Hd'.
    assert (Hlt : (similarity (relevanceGate relevanceKeywords d) < similarity d')%Q) by lra.
    split; [exact Hlt|].
    unfold sortBySimilarity. cbn [foldr insertSorted]. unfold compareFn.
    destruct (0 ?= similarity d' - similarity (relevanceGate relevanceKeywords d))%Q eqn:Ec;
      [|done|].
    + apply Qeq_alt in Ec. lra.
    + apply Qgt_alt in Ec. lra.
  - unfold relevanceGate. intros -> Hlt. cbn [existsb negb andb].
    destruct (Qle_bool 0.9 (similarity d)) eqn:E; [apply Qle_bool_iff in E; lra|done].
Qed.

End Merge_more.

(** * Lines *)

Section Lines.

Lemma splitOn_acc sep word s :
  splitOn sep word s
  = match splitOn sep [] s with
    | [] => []
    | first :: rest => (rev word ++ first) :: rest
    end.
Proof.
  revert word. induction s as [|c r IH]; intros word; cbn [splitOn].
  - by rewrite app_nil_r.
  - destruct (c =? sep); [by rewrite app_nil_r|].
    rewrite (IH (c :: word)), (IH [c]).
    destruct (splitOn sep [] r) as [|first rest]; [done|].
    cbn [rev app]. by rewrite <- !app_assoc.
Qed.

Lemma splitOn_nonempty sep word s : splitOn sep word s ≠ [].
Proof. revert word. induction s as [|c r IH]; intros word; cbn [splitOn]; [done|]. by destruct (c =? sep). Qed.

Lemma join_cons sep p pieces :
  pieces ≠ [] → join sep (p :: pieces) = p ++ sep ++ join sep pieces.
Proof. by destruct pieces. Qed.

Lemma join_head sep c p rest : join sep ((c :: p) :: rest) = c :: join sep (p :: rest).
Proof. by destruct rest. Qed.

(** [s.split("\n").join("\n")] is [s]. *)
Lemma join_splitOn sep s : join [sep] (splitOn sep [] s) = s.
Proof.
  induction s as [|c r IH]; [done|]. cbn [splitOn].
  destruct (N.eqb_spec c sep) as [->|Hc].
  - rewrite join_cons by apply splitOn_nonempty. by rewrite IH.
  - rewrite splitOn_acc. pose proof (splitOn_nonempty sep [] r) as Hne.
    destruct (splitOn sep [] r) as [|first rest] eqn:E; [done|].
    cbn [rev app]. by rewrite join_head, IH.
Qed.

Lemma splitOn_no_sep sep s : Forall (λ piece, sep ∉ piece) (splitOn sep [] s).
Proof.
  induction s as [|c r IH]; cbn [splitOn]; [repeat constructor; apply not_elem_of_nil|].
  destruct (N.eqb_spec c sep) as [->|Hc].
  - constructor; [apply not_elem_of_nil|done].
  - rewrite splitOn_acc. destruct (splitOn sep [] r) as [|first rest]; [constructor|].
    apply Forall_cons in IH as [H1 H2]. constructor; [|done].
    cbn [rev app]. apply not_elem_of_cons. by split.
Qed.

Lemma splitOn_line sep line rest :
  sep ∉ line → splitOn sep [] (line ++ sep :: rest) = line :: splitOn sep [] rest.
Proof.
  induction line as [|c line IH]; intros Hl; cbn [app splitOn].
  - by rewrite N.eqb_refl.
  - apply not_elem_of_cons in Hl as [Hc Hl]. destruct (N.eqb_spec c sep); [congruence|].
    rewrite splitOn_acc, IH by done. done.
Qed.

Lemma splitOn_single sep line : sep ∉ line → splitOn sep [] line = [line].
Proof.
  induction line as [|c line IH]; intros Hl; cbn [splitOn]; [done|].
  apply not_elem_of_cons in Hl as [Hc Hl]. destruct (N.eqb_spec c sep); [congruence|].
  rewrite splitOn_acc, IH by done. done.
Qed.

(** X13. What [parseFiche] makes of the lines of a document: splitting at
    line feeds and joining with line feeds gives the text back, no line holds
    a line feed, and the content of the fiche is the text after the first
    line feed, trimmed, or nothing when the document is one line. *)
Theorem parseFiche_content :
  (∀ s, join [LF] (splitOn LF [] s) = s)
  ∧ (∀ s, Forall (λ line, LF ∉ line) (splitOn LF [] s))
  ∧ (∀ d line rest,
      LF ∉ line → content d = line ++ LF :: rest →
      firstLineOf (content d) = line
      ∧ Fiches.content (Fiches.parseFiche d) = trim rest)
  ∧ (∀ d, LF ∉ content d →
      firstLineOf (content d) = content d
      ∧ Fiches.content (Fiches.parseFiche d) = []).
Proof.
  split; [apply join_splitOn|]. split; [apply splitOn_no_sep|]. split.
  - intros d line rest Hl Hc.
    assert (Hs : splitOn LF [] (content d) = line :: splitOn LF [] rest)
      by (rewrite Hc; by apply splitOn_line).
    split.
    + unfold firstLineOf. by rewrite Hs.
    + unfold Fiches.parseFiche. repeat (destruct (_ : _ * _)); cbn [Fiches.content].
      rewrite Hs. cbn [drop]. rewrite drop_0. by rewrite join_splitOn.
  - intros d Hl.
    assert (Hs : splitOn LF [] (content d) = [content d]) by (by apply splitOn_single).
    split.
    + unfold firstLineOf. by rewrite Hs.
    + unfold Fiches.parseFiche. repeat (destruct (_ : _ * _)); cbn [Fiches.content].
      rewrite Hs. reflexivity.
Qed.

End Lines.

(** * From the import script to the fiche route *)

Section Round_trip.
Import Import_script.

Lemma takeN_app p n a b :
  length a = n → Forall (λ c, p c = true) a → takeN p n (a ++ b) = Some (a, b).
Proof.
  revert n. induction a as [|c a IH]; intros n <- Ha; [done|].
  apply Forall_cons in Ha as [Hc Ha]. cbn [app length takeN]. rewrite Hc.
  by rewrite (IH _ eq_refl Ha).
Qed.

Lemma span_stop p a b :
  Forall (λ c, p c = true) a → (∀ c, head b = Some c → p c = false) →
  span p (a ++ b) = (a, b).
Proof.
  intros Ha Hb. induction Ha as [|c a Hc Ha IH]; cbn [app span].
  - destruct b as [|c b]; [done|]. cbn [span]. by rewrite (Hb c eq_refl).
  - by rewrite Hc, IH.
Qed.

Lemma firstMatch_here {A} (matcher : jsstring → option A) s x :
  matcher s = Some x → firstMatch matcher s = Some x.
Proof. intros Hm. destruct s; cbn [firstMatch]; by rewrite Hm. Qed.

Lemma splitOn_prefix sep word a b :
  sep ∉ a → splitOn sep word (a ++ b) = splitOn sep (rev a ++ word) b.
Proof.
  revert word. induction a as [|c a IH]; intros word Ha; [done|].
  apply not_elem_of_cons in Ha as [Hc Ha]. cbn [app splitOn].
  destruct (N.eqb_spec c sep); [congruence|]. rewrite IH by done.
  cbn [rev]. by rewrite <- app_assoc.
Qed.

Lemma firstLineOf_app a b : LF ∉ a → firstLineOf (a ++ b) = a ++ firstLineOf b.
Proof.
  intros Ha. unfold firstLineOf. rewrite splitOn_prefix by done.
  rewrite splitOn_acc. pose proof (splitOn_nonempty LF [] b).
  destruct (splitOn LF [] b) as [|first rest]; [done|].
  cbn [head default]. by rewrite app_nil_r, rev_involutive.
Qed.

Lemma digit_classes c :
  isDigit c = true → isWhiteSpace c = false ∧ c ≠ 0x5D ∧ isUpperAZ c = false.
Proof.
  unfold isDigit. intros [H1 H2]%andb_true_iff.
  apply N.leb_le in H1, H2.
  assert (Hc : c ∈ [0x30; 0x31; 0x32; 0x33; 0x34; 0x35; 0x36; 0x37; 0x38; 0x39]).
  { assert (c = 0x30 ∨ c = 0x31 ∨ c = 0x32 ∨ c = 0x33 ∨ c = 0x34 ∨ c = 0x35 ∨ c = 0x36
            ∨ c = 0x37 ∨ c = 0x38 ∨ c = 0x39) as Hd by lia.
    set_solver. }
  repeat (apply elem_of_cons in Hc as [->|Hc]; [by vm_compute|]).
  by apply elem_of_nil in Hc.
Qed.

Lemma space_not_close c : isWhiteSpace c = true → c ≠ 0x5D.
Proof. intros H ->. by vm_compute in H. Qed.

Lemma type_classes ft :
  ft ∈ [js "AC"; js "PR"; js "FT"] →
  length ft = 2%nat ∧ Forall (λ c, isUpperAZ c = true) ft ∧ Forall (λ c, c ≠ 0x5D) ft.
Proof.
  intros Hft. repeat (apply elem_of_cons in Hft as [->|Hft];
    [split; [done|]; split; repeat constructor; done|]).
  by apply elem_of_nil in Hft.
Qed.

(** The bracket of a header, as [parseFiche] reads it. *)
Lemma matchRef_inner ch ft num ws1 ws2 mm yy :
  length ch = 2%nat → Forall (λ c, isDigit c = true) ch →
  ft ∈ [js "AC"; js "PR"; js "FT"] →
  length num = 2%nat → Forall (λ c, isDigit c = true) num →
  Forall (λ c, isWhiteSpace c = true) ws1 → Forall (λ c, isWhiteSpace c = true) ws2 →
  length mm = 2%nat → Forall (λ c, isDigit c = true) mm →
  length yy = 4%nat → Forall (λ c, isDigit c = true) yy →
  Fiches.matchRef (ch ++ ft ++ num ++ ws1 ++ [0x2F] ++ ws2 ++ mm ++ [0x2D] ++ yy)
  = Some (ch ++ ft ++ num, Some (mm ++ [0x2D] ++ yy)).
Proof.
  intros Lch Dch Hft Lnum Dnum W1 W2 Lmm Dmm Lyy Dyy.
  destruct (type_classes ft Hft) as (Lft & Uft & _).
  unfold Fiches.matchRef, Fiches.refCode.
  rewrite (takeN_app isDigit 2 ch) by done. cbn [mbind option_bind].
  rewrite (takeN_app isUpperAZ 2 ft) by done. cbn [mbind option_bind].
  rewrite (takeN_app isDigit 2 num) by done. cbn [mbind option_bind].
  rewrite (span_stop isWhiteSpace ws1) by (done || by intros c [= <-]).
  cbn [snd app expect]. change (0x2F =? 0x2F) with true. cbn [default].
  destruct mm as [|m1 [|m2 [|]]]; try done. unfold Datatypes.id.
  destruct yy as [|y1 [|y2 [|y3 [|y4 [|]]]]]; try done.
  apply Forall_cons in Dmm as [Dm1 Dmm]. apply Forall_cons in Dmm as [Dm2 _].
  apply Forall_cons in Dyy as [Dy1 Dyy]. apply Forall_cons in Dyy as [Dy2 Dyy].
  apply Forall_cons in Dyy as [Dy3 Dyy]. apply Forall_cons in Dyy as [Dy4 _].
  rewrite (span_stop isWhiteSpace ws2)
    by (done || (intros c [= <-]; by apply digit_classes)).
  cbn [snd app takeN]. rewrite Dm1, Dm2. cbn [mbind option_bind expect].
  change (0x2D =? 0x2D) with true. cbv iota.
  cbn [mbind option_bind]. rewrite Dy1, Dy2, Dy3, Dy4. reflexivity.
Qed.

Lemma matchFicheHeader_bracket inner tail :
  inner ≠ [] → Forall (λ c, c ≠ 0x5D) inner →
  ∃ g2 g3, Fiches.matchFicheHeader ([0x5B] ++ inner ++ [0x5D] ++ tail) = Some (inner, g2, g3).
Proof.
  intros Hne Hin. unfold Fiches.matchFicheHeader.
  cbn [app expect]. change (0x5B =? 0x5B) with true. cbn [mbind option_bind].
  rewrite (span_stop (λ c, negb (c =? 0x5D)) inner).
  - destruct inner as [|c inner]; [done|].
    cbn [expect]. change (0x5D =? 0x5D) with true. cbn [mbind option_bind].
    destruct (Fiches.levelMarker _) as [[g r]|]; eauto.
  - eapply Forall_impl; [exact Hin|]. intros c Hc. cbv beta.
    destruct (N.eqb_spec c 0x5D); done.
  - by intros c [= <-].
Qed.

Lemma matchType_ref ch ft num :
  length ch = 2%nat → Forall (λ c, isDigit c = true) ch →
  ft ∈ [js "AC"; js "PR"; js "FT"] →
  length num = 2%nat → Forall (λ c, isDigit c = true) num →
  Fiches.matchType (ch ++ ft ++ num) = Some ft.
Proof.
  intros Lch Dch Hft Lnum Dnum. destruct (type_classes ft Hft) as (Lft & Uft & _).
  unfold Fiches.matchType.
  rewrite (takeN_app isDigit 2 ch) by done. cbn [mbind option_bind].
  rewrite (takeN_app isUpperAZ 2 ft) by done. cbn [mbind option_bind].
  rewrite <- (app_nil_r num). rewrite (takeN_app isDigit 2 num) by done. reflexivity.
Qed.

(** X14. What the fiche route reads back from a content that begins with a
    header of the import script, on one line and with a number of two
    digits: the reference, the date and the type of that header. *)
Theorem parseFiche_reads_header (d : DocumentMatch) (m : RegExpMatch) :
  matchHeader (Retrieval.content d) = Some m →
  LF ∉ fullMatch m →
  length (g_ficheNumber m) = 2%nat →
  Fiches.ref (Fiches.parseFiche d) = g_chapter m ++ g_ficheType m ++ g_ficheNumber m
  ∧ Fiches.date (Fiches.parseFiche d) = g_month m ++ [0x2D] ++ g_year m
  ∧ (g_ficheType m, Fiches.type (Fiches.parseFiche d), Fiches.typeName (Fiches.parseFiche d))
    ∈ [ (js "AC", Fiches.AC, js "Connaissance");
        (js "PR", Fiches.PR, js "Procédure");
        (js "FT", Fiches.FT, js "Fiche Technique") ].
Proof.
  intros Hm Hlf Lnum.
  apply matchHeader_groups in Hm
    as (ws1 & ws2 & r & Hc & Hfull & [Lch Dch] & Hft & [_ Dnum] & [W1 W2] & [Lmm Dmm] & [Lyy Dyy]).
  destruct (type_classes _ Hft) as (Lft & Uft & Cft).
  set (ch := g_chapter m) in *. set (ft := g_ficheType m) in *.
  set (num := g_ficheNumber m) in *. set (mm := g_month m) in *. set (yy := g_year m) in *.
  set (inner := ch ++ ft ++ num ++ ws1 ++ [0x2F] ++ ws2 ++ mm ++ [0x2D] ++ yy).
  assert (Hfull' : fullMatch m = [0x5B] ++ inner ++ [0x5D] ++ []).
  { rewrite Hfull. unfold inner. by rewrite <- !app_assoc. }
  assert (Hline : firstLineOf (Retrieval.content d) = [0x5B] ++ inner ++ [0x5D] ++ firstLineOf r).
  { rewrite Hc, firstLineOf_app by done. rewrite Hfull'. by rewrite <- !app_assoc. }
  assert (Hinner : Forall (λ c, c ≠ 0x5D) inner).
  { unfold inner. rewrite !Forall_app. repeat split; try done.
    - eapply Forall_impl; [exact Dch|]. intros c Hd. by apply digit_classes.
    - eapply Forall_impl; [exact Dnum|]. intros c Hd. by apply digit_classes.
    - eapply Forall_impl; [exact W1|]. apply space_not_close.
    - by repeat constructor.
    - eapply Forall_impl; [exact W2|]. apply space_not_close.
    - eapply Forall_impl; [exact Dmm|]. intros c Hd. by apply digit_classes.
    - by repeat constructor.
    - eapply Forall_impl; [exact Dyy|]. intros c Hd. by apply digit_classes. }
  assert (Hne : inner ≠ []).
  { unfold inner. destruct ch; [done|]. done. }
  destruct (matchFicheHeader_bracket inner (firstLineOf r) Hne Hinner) as (g2 & g3 & Hh).
  apply firstMatch_here in Hh. rewrite <- Hline in Hh.
  assert (Hr : firstMatch Fiches.matchRef inner
               = Some (ch ++ ft ++ num, Some (mm ++ [0x2D] ++ yy))).
  { apply firstMatch_here. by apply matchRef_inner. }
  assert (Ht : firstMatch Fiches.matchType (ch ++ ft ++ num) = Some ft).
  { apply firstMatch_here. by apply matchType_ref. }
  unfold Fiches.parseFiche. cbv zeta. rewrite Hh, Hr. cbv beta iota. rewrite Ht.
  cbn [orElseEmpty default]. unfold Datatypes.id.
  repeat (apply elem_of_cons in Hft as [Hft|Hft]; [rewrite Hft; vm_compute; set_solver|]).
  by apply elem_of_nil in Hft.
Qed.

Lemma digit_not_punct c : isDigit c = true → c ≠ 0x2F ∧ c ≠ 0x2D.
Proof.
  unfold isDigit. intros [H1 H2]%andb_true_iff. apply N.leb_le in H1, H2. lia.
Qed.

Lemma space_not_punct c : isWhiteSpace c = true → isDigit c = false ∧ c ≠ 0x2D.
Proof.
  intros Hw. split.
  - destruct (isDigit c) eqn:E; [|done]. apply digit_classes in E as [E _]. congruence.
  - intros ->. by vm_compute in Hw.
Qed.

(** After the two digits that the reference takes from a number of three
    digits or more, no date can be read. *)
Lemma no_date_after_digit n3 num' ws1 tail :
  isDigit n3 = true → Forall (λ c, isDigit c = true) num' →
  Forall (λ c, isWhiteSpace c = true) ws1 →
  (takeN isDigit 2 (n3 :: num' ++ ws1 ++ 0x2F :: tail)
     ≫= λ '(mm, r5), expect 0x2D r5
     ≫= λ r6, takeN isDigit 4 r6 ≫= λ '(yyyy, _), Some (mm ++ [0x2D] ++ yyyy)) = None.
Proof.
  intros D3 Dnum W1. cbn [takeN]. rewrite D3.
  destruct num' as [|x num'].
  - cbn [app]. destruct ws1 as [|w ws1]; cbn [app].
    + done.
    + apply Forall_cons in W1 as [Hw _]. apply space_not_punct in Hw as [-> _]. done.
  - apply Forall_cons in Dnum as [Dx Dnum]. cbn [app]. rewrite Dx.
    cbn [mbind option_bind].
    destruct num' as [|y num'].
    + cbn [app]. destruct ws1 as [|w ws1]; cbn [app expect]; [done|].
      apply Forall_cons in W1 as [Hw _]. apply space_not_punct in Hw as [_ Hw].
      by destruct (N.eqb_spec w 0x2D).
    + apply Forall_cons in Dnum as [Dy _]. cbn [app expect].
      apply digit_not_punct in Dy as [_ Dy]. by destruct (N.eqb_spec y 0x2D).
Qed.

(** X15. A number of three digits or more, which the import script takes
    whole, is cut by the fiche route: the reference keeps its first two
    digits and the date is not read. *)
Theorem parseFiche_cuts_long_number (d : DocumentMatch) (m : RegExpMatch) :
  matchHeader (Retrieval.content d) = Some m →
  LF ∉ fullMatch m →
  (3 ≤ length (g_ficheNumber m))%nat →
  Fiches.ref (Fiches.parseFiche d) = g_chapter m ++ g_ficheType m ++ take 2 (g_ficheNumber m)
  ∧ Fiches.ref (Fiches.parseFiche d) ≠ g_chapter m ++ g_ficheType m ++ g_ficheNumber m
  ∧ Fiches.date (Fiches.parseFiche d) = [].
Proof.
  intros Hm Hlf Lnum.
  apply matchHeader_groups in Hm
    as (ws1 & ws2 & r & Hc & Hfull & [Lch Dch] & Hft & [_ Dnum] & [W1 W2] & [Lmm Dmm] & [Lyy Dyy]).
  destruct (type_classes _ Hft) as (Lft & Uft & Cft).
  set (ch := g_chapter m) in *. set (ft := g_ficheType m) in *.
  set (num := g_ficheNumber m) in *. set (mm := g_month m) in *. set (yy := g_year m) in *.
  set (inner := ch ++ ft ++ num ++ ws1 ++ [0x2F] ++ ws2 ++ mm ++ [0x2D] ++ yy).
  assert (Hfull' : fullMatch m = [0x5B] ++ inner ++ [0x5D] ++ []).
  { rewrite Hfull. unfold inner. by rewrite <- !app_assoc. }
  assert (Hline : firstLineOf (Retrieval.content d)
                  = [0x5B] ++ inner ++ [0x5D] ++ firstLineOf r).
  { rewrite Hc, firstLineOf_app by done. rewrite Hfull'. by rewrite <- !app_assoc. }
  assert (Hinner : Forall (λ c, c ≠ 0x5D) inner).
  { unfold inner. rewrite !Forall_app. repeat split; try done.
    - eapply Forall_impl; [exact Dch|]. intros c Hd. by apply digit_classes.
    - eapply Forall_impl; [exact Dnum|]. intros c Hd. by apply digit_classes.
    - eapply Forall_impl; [exact W1|]. apply space_not_close.
    - by repeat constructor.
    - eapply Forall_impl; [exact W2|]. apply space_not_close.
    - eapply Forall_impl; [exact Dmm|]. intros c Hd. by apply digit_classes.
    - by repeat constructor.
    - eapply Forall_impl; [exact Dyy|]. intros c Hd. by apply digit_classes. }
  assert (Hne : inner ≠ []).
  { unfold inner. destruct ch; [done|]. done. }
  destruct (matchFicheHeader_bracket inner (firstLineOf r) Hne Hinner) as (g2 & g3 & Hh).
  apply firstMatch_here in Hh. rewrite <- Hline in Hh.
  destruct num as [|n1 [|n2 [|n3 num']]] eqn:En; try (simpl in Lnum; lia).
  apply Forall_cons in Dnum as [D1 Dnum]. apply Forall_cons in Dnum as [D2 Dnum].
  apply Forall_cons in Dnum as [D3 Dnum].
  assert (Hr : firstMatch Fiches.matchRef inner = Some (ch ++ ft ++ [n1; n2], None)).
  { apply firstMatch_here. unfold inner, Fiches.matchRef, Fiches.refCode.
    rewrite (takeN_app isDigit 2 ch) by done. cbn [mbind option_bind].
    rewrite (takeN_app isUpperAZ 2 ft) by done. cbn [mbind option_bind].
    cbn [app takeN]. rewrite D1, D2. cbn [mbind option_bind].
    destruct (digit_classes _ D3) as (Hw3 & _ & _).
    destruct (digit_not_punct _ D3) as [Hs3 _].
    cbn [span]. rewrite Hw3. cbn [snd expect].
    destruct (N.eqb_spec n3 0x2F); [done|]. cbn [default]. unfold Datatypes.id.
    cbn [span]. rewrite Hw3. cbn [snd].
    pose proof (no_date_after_digit n3 num' ws1 (ws2 ++ mm ++ [0x2D] ++ yy) D3 Dnum W1) as Hd.
    cbn [app takeN] in Hd |- *. rewrite Hd. reflexivity. }
  unfold Fiches.parseFiche. cbv zeta. rewrite Hh, Hr. cbv beta iota.
  cbn [orElseEmpty default]. unfold Datatypes.id.
  destruct (firstMatch Fiches.matchType (ch ++ ft ++ [n1; n2])) as [code|];
    [repeat (destruct (decide _))|]; cbn [Fiches.ref Fiches.date take];
    (split; [done|]); (split; [|done]);
    intros Heq; apply app_inv_head, app_inv_head in Heq; discriminate.
Qed.

End Round_trip.

(** * The reply of the fiche route *)

Section Fiche_reply.
Context `{CM : CaseMapping}.
Import Fiches.

Lemma uniqueFichesFrom_fresh seenRefs fiches f :
  f ∈ uniqueFichesFrom seenRefs fiches → ref f ≠ [] → ref f ∉ seenRefs.
Proof.
  revert seenRefs. induction fiches as [|x l IH]; intros seenRefs; cbn [uniqueFichesFrom].
  - by intros ?%elem_of_nil.
  - destruct (truthy (Some (ref x)) && bool_decide (ref x ∈ seenRefs)) eqn:E.
    + apply IH.
    + intros [->|Hf]%elem_of_cons Hne.
      * destruct (ref x) as [|c r] eqn:Ex; [done|]. cbn [truthy andb] in E.
        by apply bool_decide_eq_false in E.
      * specialize (IH _ Hf Hne). destruct (truthy (Some (ref x))); [|done].
        intros Hin. apply IH. apply elem_of_union. by right.
Qed.

Lemma uniqueFichesFrom_NoDup seenRefs fiches :
  NoDup (filter (λ r, r ≠ []) (ref <$> uniqueFichesFrom seenRefs fiches)).
Proof.
  revert seenRefs. induction fiches as [|x l IH]; intros seenRefs; cbn [uniqueFichesFrom].
  - constructor.
  - destruct (truthy (Some (ref x)) && bool_decide (ref x ∈ seenRefs)) eqn:E; [apply IH|].
    rewrite fmap_cons, filter_cons. destruct (decide (ref x ≠ [])) as [Hne|]; [|apply IH].
    constructor; [|apply IH].
    intros [_ Hin]%list_elem_of_filter. apply list_elem_of_fmap in Hin as (f & Hf & Hin).
    apply uniqueFichesFrom_fresh in Hin; [|congruence].
    destruct (ref x) as [|c r] eqn:Ex; [done|]. cbn [truthy] in Hin.
    apply Hin. apply elem_of_union. left. apply elem_of_singleton. congruence.
Qed.

Lemma uniqueFichesFrom_head seenRefs f fiches :
  ref f ∉ seenRefs → ∃ rest, uniqueFichesFrom seenRefs (f :: fiches) = f :: rest.
Proof.
  intros Hf. cbn [uniqueFichesFrom]. rewrite bool_decide_false by done.
  rewrite andb_false_r. eauto.
Qed.

Lemma Fiches_searchDocuments_length svc query originalQuery sourceFilter :
  (length (searchDocuments svc query originalQuery sourceFilter) ≤ 5)%nat.
Proof.
  unfold searchDocuments, tryCatch.
  destruct (searchBody _ _ _ _) as [r|] eqn:E; [|simpl; lia].
  apply Fiches_searchBody_Normal in E as (? & ? & ? & _ & _ & _ & ->).
  apply finish_sorted.
Qed.

Lemma POST_with_question svc prompt (q : jsstring) sourceFilter :
  q ≠ [] →
  POST svc prompt (Normal (Fields (Some q) sourceFilter))
  = match searchDocuments svc (reformulateQuery svc prompt q) q sourceFilter with
    | [] => NoDocument
    | documents =>
        FichesFound (uniqueFiches (List.map parseFiche documents))
          (reformulateQuery svc prompt q)
    end.
Proof.
  intros Hq. destruct q as [|c q]; [done|]. unfold POST, readBody.
  cbn [mbind Completion_bind mret Completion_ret truthy].
  by destruct (searchDocuments svc _ _ sourceFilter).
Qed.

(** X16. The reply of the fiche route.  Status 500 when the body of the
    request cannot be read or is [null]; a bad request when the question is
    missing, no string or empty; with a question, no document when the search
    finds none, and otherwise between one and five fiches, each one parsed
    from a document of the search, no two with the same reference unless it
    is empty, with the reformulated query.  Every reply comes from its case
    alone. *)
Theorem POST_reply svc prompt (json : Completion RequestBody) :
  (∀ err, POST svc prompt (Throw err) = ServerError)
  ∧ POST svc prompt (Normal NullBody) = ServerError
  ∧ (∀ question sourceFilter, truthy question = false →
       POST svc prompt (Normal (Fields question sourceFilter)) = BadRequest)
  ∧ match POST svc prompt json with
    | ServerError => (∃ err, json = Throw err) ∨ json = Normal NullBody
    | BadRequest =>
        ∃ question sourceFilter,
          json = Normal (Fields question sourceFilter) ∧ truthy question = false
    | NoDocument =>
        ∃ q sourceFilter,
          json = Normal (Fields (Some q) sourceFilter) ∧ q ≠ []
          ∧ searchDocuments svc (reformulateQuery svc prompt q) q sourceFilter = []
    | FichesFound fiches query =>
        ∃ q sourceFilter,
          json = Normal (Fields (Some q) sourceFilter) ∧ q ≠ []
          ∧ query = reformulateQuery svc prompt q
          ∧ (1 ≤ length fiches ≤ 5)%nat
          ∧ NoDup (filter (λ r, r ≠ []) (ref <$> fiches))
          ∧ ∀ f, f ∈ fiches →
              ∃ d, d ∈ searchDocuments svc query q sourceFilter ∧ f = parseFiche d
    end.
Proof.
  split; [done|]. split; [done|]. split.
  { intros [[|c q]|] sourceFilter Hq; done. }
  destruct json as [[|[q|] sourceFilter]|err].
  - right. reflexivity.
  - destruct q as [|c q0]; [by exists (Some []), sourceFilter|].
    set (q := c :: q0). assert (Hq : q ≠ []) by done.
    rewrite (POST_with_question svc prompt q sourceFilter Hq). clearbody q.
    set (query := reformulateQuery svc prompt q).
    destruct (searchDocuments svc query q sourceFilter) as [|d0 docs] eqn:E;
      [by exists q, sourceFilter|].
    exists q, sourceFilter. split; [done|]. split; [done|]. split; [done|].
    pose proof (Fiches_searchDocuments_length svc query q sourceFilter) as Hlen.
    rewrite E in Hlen.
    pose proof (uniqueFichesFrom_sublist ∅ (List.map parseFiche (d0 :: docs))) as Hsub.
    fold (uniqueFiches (List.map parseFiche (d0 :: docs))) in Hsub.
    split; [split|split].
    + cbn [List.map]. unfold uniqueFiches.
      destruct (uniqueFichesFrom_head ∅ (parseFiche d0) (List.map parseFiche docs))
        as [rest ->]; [apply not_elem_of_empty|]. simpl. lia.
    + apply sublist_length in Hsub. rewrite length_map in Hsub. lia.
    + apply uniqueFichesFrom_NoDup.
    + intros f Hf. eapply elem_of_sublist in Hf; [|exact Hsub].
      apply list_elem_of_In in Hf. apply in_map_iff in Hf as (d & <- & Hd).
      exists d. split; [|done]. fold query. rewrite E. by apply list_elem_of_In.
  - by exists None, sourceFilter.
  - left. by exists err.
Qed.

End Fiche_reply.

(** * The replies of the chat routes *)

Section Chat_replies.
Context `{CM : CaseMapping}.

Lemma uniqueFrom_elem seen l x : x ∈ uniqueFrom seen l ↔ x ∈ l ∧ x ∉ seen.
Proof.
  revert seen. induction l as [|y l IH]; intros seen; cbn [uniqueFrom].
  - split; [by intros ?%elem_of_nil|by intros [?%elem_of_nil _]].
  - destruct (decide (y ∈ seen)) as [Hy|Hy].
    + rewrite IH, elem_of_cons. split; [tauto|]. intros [[->|?] ?]; [done|tauto].
    + rewrite !elem_of_cons, IH. split.
      * intros [->|[? Hn]]; [tauto|]. split; [tauto|]. set_solver.
      * intros [[->|?] ?]; [tauto|]. destruct (decide (x = y)) as [->|]; [tauto|].
        right. split; [done|]. set_solver.
Qed.

Lemma uniqueFrom_NoDup seen l : NoDup (uniqueFrom seen l).
Proof.
  revert seen. induction l as [|y l IH]; intros seen; cbn [uniqueFrom]; [constructor|].
  destruct (decide (y ∈ seen)); [apply IH|]. constructor; [|apply IH].
  rewrite uniqueFrom_elem. set_solver.
Qed.

Lemma uniqueFrom_length seen l : (length (uniqueFrom seen l) ≤ length l)%nat.
Proof.
  revert seen. induction l as [|y l IH]; intros seen; cbn [uniqueFrom]; [done|].
  destruct (decide (y ∈ seen)); cbn [length]; [specialize (IH seen)|specialize (IH ({[y]} ∪ seen))];
    lia.
Qed.

Lemma unique_facts l :
  NoDup (unique l) ∧ (length (unique l) ≤ length l)%nat ∧ ∀ x, x ∈ unique l ↔ x ∈ l.
Proof.
  split; [apply uniqueFrom_NoDup|]. split; [apply uniqueFrom_length|].
  intros x. unfold unique. rewrite uniqueFrom_elem. set_solver.
Qed.

Lemma Chat_searchDocuments_length svc query originalQuery sourceFilter :
  (length (Chat.searchDocuments svc query originalQuery sourceFilter) ≤ 8)%nat.
Proof.
  unfold Chat.searchDocuments, tryCatch.
  destruct (Chat.searchBody _ _ _ _) as [r|] eqn:E; [|simpl; lia].
  apply Chat_searchBody_Normal in E as (? & ? & ? & ? & _ & _ & _ & ->).
  apply finish_sorted.
Qed.

Lemma Chat2_searchDocuments_length svc query originalQuery sourceFilter :
  (length (Chat2.searchDocuments svc query originalQuery sourceFilter) ≤ 6)%nat.
Proof.
  unfold Chat2.searchDocuments, tryCatch.
  destruct (Chat2.searchBody _ _ _ _) as [r|] eqn:E; [|simpl; lia].
  apply Chat2_searchBody_Normal in E as (? & ? & ? & _ & _ & _ & ->).
  apply finish_sorted.
Qed.

Lemma sources_facts (documents : list DocumentMatch) (k : nat) :
  (length documents ≤ k)%nat →
  NoDup (unique (source <$> documents))
  ∧ (length (unique (source <$> documents)) ≤ k)%nat
  ∧ ∀ s, s ∈ unique (source <$> documents) ↔ ∃ d, d ∈ documents ∧ source d = s.
Proof.
  intros Hk. destruct (unique_facts (source <$> documents)) as (Hnd & Hlen & Hin).
  rewrite length_fmap in Hlen. split; [done|]. split; [lia|].
  intros s. rewrite Hin, list_elem_of_fmap. naive_solver.
Qed.

Lemma ChatHandler_POST_with_question svc REFORMULATION_PROMPT SYSTEM_PROMPT
    (q : jsstring) sourceFilter :
  q ≠ [] →
  let documents :=
    Chat.searchDocuments svc (reformulateQuery svc REFORMULATION_PROMPT q) q sourceFilter in
  ChatHandler.POST svc REFORMULATION_PROMPT SYSTEM_PROMPT (Normal (Fields (Some q) sourceFilter))
  = match messages_create svc SYSTEM_PROMPT
            (ChatHandler.userMessage (ChatHandler.buildContextFromDocuments documents) q) with
    | Normal (TextBlock text :: _) =>
        ChatHandler.Status200 text (unique (source <$> documents))
    | Normal (OtherBlock :: _) => ChatHandler.Status200 [] (unique (source <$> documents))
    | Normal [] => ChatHandler.Status500
    | Throw _ => ChatHandler.Status500
    end.
Proof.
  intros Hq documents. destruct q as [|c q]; [done|]. unfold ChatHandler.POST, readBody.
  cbn [mbind Completion_bind mret Completion_ret truthy]. fold documents.
  by destruct (messages_create svc SYSTEM_PROMPT _) as [[|[text|] blocks]|err].
Qed.

(** X17. The reply of the chat route.  Status 400 when the question is
    missing, no string or empty.  Status 500 when the body of the request
    cannot be read or is [null], and when the call for the answer throws or
    brings no block; whatever fails in the reformulation and in the search
    gives no status 500.  Otherwise the text of the first block, or nothing
    if it is no text, with the sources of the documents found: each one once,
    at most 8.  Every reply comes from its case alone. *)
Theorem chat_reply svc REFORMULATION_PROMPT SYSTEM_PROMPT (json : Completion RequestBody) :
  let documents q sourceFilter :=
    Chat.searchDocuments svc (reformulateQuery svc REFORMULATION_PROMPT q) q sourceFilter in
  let answer q sourceFilter :=
    messages_create svc SYSTEM_PROMPT
      (ChatHandler.userMessage
         (ChatHandler.buildContextFromDocuments (documents q sourceFilter)) q) in
  let POST := ChatHandler.POST svc REFORMULATION_PROMPT SYSTEM_PROMPT in
  (∀ err, POST (Throw err) = ChatHandler.Status500)
  ∧ POST (Normal NullBody) = ChatHandler.Status500
  ∧ (∀ question sourceFilter, truthy question = false →
       POST (Normal (Fields question sourceFilter)) = ChatHandler.Status400)
  ∧ (∀ q sourceFilter, q ≠ [] →
       (∀ block blocks, answer q sourceFilter ≠ Normal (block :: blocks)) →
       POST (Normal (Fields (Some q) sourceFilter)) = ChatHandler.Status500)
  ∧ match POST json with
    | ChatHandler.Status400 =>
        ∃ question sourceFilter,
          json = Normal (Fields question sourceFilter) ∧ truthy question = false
    | ChatHandler.Status500 =>
        (∃ err, json = Throw err) ∨ json = Normal NullBody
        ∨ ∃ q sourceFilter,
            json = Normal (Fields (Some q) sourceFilter) ∧ q ≠ []
            ∧ ∀ block blocks, answer q sourceFilter ≠ Normal (block :: blocks)
    | ChatHandler.Status200 response sources =>
        ∃ q sourceFilter,
          json = Normal (Fields (Some q) sourceFilter) ∧ q ≠ []
          ∧ (∃ blocks, answer q sourceFilter = Normal (TextBlock response :: blocks)
                       ∨ (answer q sourceFilter = Normal (OtherBlock :: blocks)
                          ∧ response = []))
          ∧ NoDup sources
          ∧ (length sources ≤ 8)%nat
          ∧ ∀ s, s ∈ sources ↔ ∃ d, d ∈ documents q sourceFilter ∧ source d = s
    end.
Proof.
  intros documents answer POST. unfold POST.
  split; [done|]. split; [done|]. split.
  { intros [[|c q]|] sourceFilter Hq; done. }
  split.
  { intros q sourceFilter Hq Hfail. rewrite ChatHandler_POST_with_question by done.
    cbv zeta. fold (documents q sourceFilter). fold (answer q sourceFilter).
    destruct (answer q sourceFilter) as [[|block blocks]|err] eqn:E; [done| |done].
    by destruct (Hfail block blocks). }
  destruct json as [[|[q|] sourceFilter]|err].
  - right. by left.
  - destruct q as [|c q0]; [by exists (Some []), sourceFilter|].
    set (q := c :: q0). assert (Hq : q ≠ []) by done.
    rewrite (ChatHandler_POST_with_question svc _ _ q sourceFilter Hq). clearbody q.
    cbv zeta. fold (documents q sourceFilter). fold (answer q sourceFilter).
    destruct (answer q sourceFilter) as [[|[text|] blocks]|err] eqn:E.
    + right. right. exists q, sourceFilter. split; [done|]. split; [done|].
      intros ? ?. by rewrite E.
    + exists q, sourceFilter. split; [done|]. split; [done|].
      split; [exists blocks; by left|].
      apply sources_facts, Chat_searchDocuments_length.
    + exists q, sourceFilter. split; [done|]. split; [done|].
      split; [exists blocks; by right|].
      apply sources_facts, Chat_searchDocuments_length.
    + right. right. exists q, sourceFilter. split; [done|]. split; [done|].
      intros ? ?. by rewrite E.
  - by exists None, sourceFilter.
  - left. by exists err.
Qed.

Lemma omap_length {A B} (f : A → option B) (l : list A) : (length (omap f l) ≤ length l)%nat.
Proof. induction l as [|x l IH]; [done|]. cbn. destruct (f x); cbn; lia. Qed.

Lemma definedRefs_elem (documents : list DocumentMatch) r :
  r ∈ Chat2Handler.definedRefs documents ↔ r ≠ [] ∧ ∃ d, d ∈ documents ∧ fiche_ref d = Some r.
Proof.
  unfold Chat2Handler.definedRefs. rewrite list_elem_of_omap. split.
  - intros (o & Ho & Hr). apply list_elem_of_fmap in Ho as (d & -> & Hd).
    destruct (fiche_ref d) as [[|c s]|] eqn:Ed; cbn [truthy] in Hr; try done.
    injection Hr as <-. split; [done|]. by exists d.
  - intros (Hne & d & Hd & Hr). exists (Some r). split.
    + apply list_elem_of_fmap. by exists d.
    + destruct r; [done|]. reflexivity.
Qed.

Lemma Chat2Handler_POST_with_question svc REFORMULATION_PROMPT SYSTEM_PROMPT
    (q : jsstring) sourceFilter :
  q ≠ [] →
  let documents :=
    Chat2.searchDocuments svc (reformulateQuery svc REFORMULATION_PROMPT q) q sourceFilter in
  Chat2Handler.POST svc REFORMULATION_PROMPT SYSTEM_PROMPT
    (Normal (Fields (Some q) sourceFilter))
  = match messages_create svc SYSTEM_PROMPT
            (Chat2Handler.userMessage (Chat2Handler.buildContextFromDocuments documents) q) with
    | Normal (TextBlock text :: _) =>
        Chat2Handler.Status200 text (unique (source <$> documents))
          (unique (Chat2Handler.definedRefs documents))
    | Normal (OtherBlock :: _) =>
        Chat2Handler.Status200 [] (unique (source <$> documents))
          (unique (Chat2Handler.definedRefs documents))
    | Normal [] => Chat2Handler.Status500
    | Throw _ => Chat2Handler.Status500
    end.
Proof.
  intros Hq documents. destruct q as [|c q]; [done|]. unfold Chat2Handler.POST, readBody.
  cbn [mbind Completion_bind mret Completion_ret truthy]. fold documents.
  by destruct (messages_create svc SYSTEM_PROMPT _) as [[|[text|] blocks]|err].
Qed.

Lemma definedRefs_facts (documents : list DocumentMatch) :
  (length documents ≤ 6)%nat →
  NoDup (unique (Chat2Handler.definedRefs documents))
  ∧ (length (unique (Chat2Handler.definedRefs documents)) ≤ 6)%nat
  ∧ ∀ r, r ∈ unique (Chat2Handler.definedRefs documents)
         ↔ r ≠ [] ∧ ∃ d, d ∈ documents ∧ fiche_ref d = Some r.
Proof.
  intros Hd. destruct (unique_facts (Chat2Handler.definedRefs documents)) as (Hnd & Hlen & Hin).
  split; [done|]. split.
  - unfold Chat2Handler.definedRefs in Hlen |- *.
    pose proof (omap_length (λ r : option jsstring, if truthy r then r else None)
      (fiche_ref <$> documents)) as Ho.
    rewrite length_fmap in Ho. lia.
  - intros r. rewrite Hin. apply definedRefs_elem.
Qed.

(** X18. The reply of the second chat route: the statuses as in the chat
    route; at most 6 sources, each one once; and the references of the
    documents found: each one once, none empty, a document without a
    reference adding none. *)
Theorem chat2_reply svc REFORMULATION_PROMPT SYSTEM_PROMPT (json : Completion RequestBody) :
  let documents q sourceFilter :=
    Chat2.searchDocuments svc (reformulateQuery svc REFORMULATION_PROMPT q) q sourceFilter in
  let answer q sourceFilter :=
    messages_create svc SYSTEM_PROMPT
      (Chat2Handler.userMessage
         (Chat2Handler.buildContextFromDocuments (documents q sourceFilter)) q) in
  let POST := Chat2Handler.POST svc REFORMULATION_PROMPT SYSTEM_PROMPT in
  (∀ err, POST (Throw err) = Chat2Handler.Status500)
  ∧ POST (Normal NullBody) = Chat2Handler.Status500
  ∧ (∀ question sourceFilter, truthy question = false →
       POST (Normal (Fields question sourceFilter)) = Chat2Handler.Status400)
  ∧ (∀ q sourceFilter, q ≠ [] →
       (∀ block blocks, answer q sourceFilter ≠ Normal (block :: blocks)) →
       POST (Normal (Fields (Some q) sourceFilter)) = Chat2Handler.Status500)
  ∧ match POST json with
    | Chat2Handler.Status400 =>
        ∃ question sourceFilter,
          json = Normal (Fields question sourceFilter) ∧ truthy question = false
    | Chat2Handler.Status500 =>
        (∃ err, json = Throw err) ∨ json = Normal NullBody
        ∨ ∃ q sourceFilter,
            json = Normal (Fields (Some q) sourceFilter) ∧ q ≠ []
            ∧ ∀ block blocks, answer q sourceFilter ≠ Normal (block :: blocks)
    | Chat2Handler.Status200 response sources ficheRefs =>
        ∃ q sourceFilter,
          json = Normal (Fields (Some q) sourceFilter) ∧ q ≠ []
          ∧ (∃ blocks, answer q sourceFilter = Normal (TextBlock response :: blocks)
                       ∨ (answer q sourceFilter = Normal (OtherBlock :: blocks)
                          ∧ response = []))
          ∧ (NoDup sources
             ∧ (length sources ≤ 6)%nat
             ∧ ∀ s, s ∈ sources ↔ ∃ d, d ∈ documents q sourceFilter ∧ source d = s)
          ∧ (NoDup ficheRefs
             ∧ (length ficheRefs ≤ 6)%nat
             ∧ ∀ r, r ∈ ficheRefs
                    ↔ r ≠ [] ∧ ∃ d, d ∈ documents q sourceFilter ∧ fiche_ref d = Some r)
    end.
Proof.
  intros documents answer POST. unfold POST.
  split; [done|]. split; [done|]. split.
  { intros [[|c q]|] sourceFilter Hq; done. }
  split.
  { intros q sourceFilter Hq Hfail. rewrite Chat2Handler_POST_with_question by done.
    cbv zeta. fold (documents q sourceFilter). fold (answer q sourceFilter).
    destruct (answer q sourceFilter) as [[|block blocks]|err] eqn:E; [done| |done].
    by destruct (Hfail block blocks). }
  destruct json as [[|[q|] sourceFilter]|err].
  - right. by left.
  - destruct q as [|c q0]; [by exists (Some []), sourceFilter|].
    set (q := c :: q0). assert (Hq : q ≠ []) by done.
    rewrite (Chat2Handler_POST_with_question svc _ _ q sourceFilter Hq). clearbody q.
    cbv zeta. fold (documents q sourceFilter). fold (answer q sourceFilter).
    destruct (answer q sourceFilter) as [[|[text|] blocks]|err] eqn:E.
    + right. right. exists q, sourceFilter. split; [done|]. split; [done|].
      intros ? ?. by rewrite E.
    + exists q, sourceFilter. split; [done|]. split; [done|].
      split; [exists blocks; by left|]. split.
      * apply sources_facts, Chat2_searchDocuments_length.
      * apply definedRefs_facts, Chat2_searchDocuments_length.
    + exists q, sourceFilter. split; [done|]. split; [done|].
      split; [exists blocks; by right|]. split.
      * apply sources_facts, Chat2_searchDocuments_length.
      * apply definedRefs_facts, Chat2_searchDocuments_length.
    + right. right. exists q, sourceFilter. split; [done|]. split; [done|].
      intros ? ?. by rewrite E.
  - by exists None, sourceFilter.
  - left. by exists err.
Qed.

Lemma join_lookup sep (l : list jsstring) i x :
  l !! i = Some x → ∃ pre post, join sep l = pre ++ x ++ post.
Proof.
  revert i. induction l as [|y l IH]; intros i Hi; [done|].
  destruct i as [|i]; cbn in Hi.
  - injection Hi as ->. destruct l as [|z l].
    + exists [], []. cbn. by rewrite app_nil_r.
    + exists [], (sep ++ join sep (z :: l)). reflexivity.
  - destruct (IH _ Hi) as (pre & post & E). destruct l as [|z l]; [done|].
    exists (y ++ sep ++ pre), post. change (join sep (y :: z :: l)) with (y ++ sep ++ join sep (z :: l)).
    rewrite E. by rewrite <- !app_assoc.
Qed.

Lemma message_shape (h l pre x post r t q : jsstring) :
  (h ++ l ++ pre ++ x ++ post) ++ r ++ t ++ q = (h ++ l ++ pre) ++ x ++ (post ++ r ++ t) ++ q.
Proof. by rewrite <- !app_assoc. Qed.

(** X19. What the model is asked.  Without a document the context is one
    fixed sentence.  Otherwise the message holds every document found: the
    document of rank i appears as the excerpt of number i + 1, its source in
    the label and its whole content after it; and the message ends with the
    question as the user wrote it. *)
Theorem userMessage_holds_every_document (documents : list DocumentMatch) (question : jsstring) :
  (ChatHandler.buildContextFromDocuments []
     = js "Aucun document pertinent trouvé dans la base de connaissances."
   ∧ Chat2Handler.buildContextFromDocuments []
     = js "Aucun document pertinent trouvé dans la base de connaissances.")
  ∧ (∀ i d, documents !! i = Some d →
       ∃ pre post,
         ChatHandler.userMessage (ChatHandler.buildContextFromDocuments documents) question
         = pre
           ++ (js "[Extrait " ++ numberToString (i + 1) ++ js " - Source: " ++ source d
               ++ js "]" ++ [LF] ++ content d)
           ++ post ++ question)
  ∧ (∀ i d, documents !! i = Some d →
       ∃ pre post,
         Chat2Handler.userMessage (Chat2Handler.buildContextFromDocuments documents) question
         = pre
           ++ (js "[Extrait " ++ numberToString (i + 1) ++ js " "
               ++ (if truthy (fiche_ref d) then js "[" ++ default [] (fiche_ref d) ++ js "]" else [])
               ++ js " - " ++ source d ++ js "]" ++ [LF] ++ content d)
           ++ post ++ question).
Proof.
  split; [done|]. split.
  - intros i d Hi.
    assert (Hl : imap ChatHandler.excerpt documents !! i = Some (ChatHandler.excerpt i d)).
    { by rewrite list_lookup_imap, Hi. }
    destruct (join_lookup rule _ _ _ Hl) as (pre & post & E).
    destruct documents as [|d0 ds]; [done|].
    exists (js "Voici les extraits pertinents des référentiels de secourisme :" ++ [LF; LF] ++ pre),
      (post ++ rule ++ js "Question de l'utilisateur : ").
    unfold ChatHandler.userMessage, ChatHandler.buildContextFromDocuments. cbv zeta.
    rewrite E. unfold ChatHandler.excerpt. apply message_shape.
  - intros i d Hi.
    assert (Hl : imap Chat2Handler.excerpt documents !! i = Some (Chat2Handler.excerpt i d)).
    { by rewrite list_lookup_imap, Hi. }
    destruct (join_lookup rule _ _ _ Hl) as (pre & post & E).
    destruct documents as [|d0 ds]; [done|].
    exists (js "Voici les extraits des référentiels de secourisme. UTILISE UNIQUEMENT ces informations pour répondre :"
            ++ [LF; LF] ++ pre),
      (post ++ rule ++ js "Question : ").
    unfold Chat2Handler.userMessage, Chat2Handler.buildContextFromDocuments. cbv zeta.
    rewrite E. unfold Chat2Handler.excerpt. cbv zeta.
    destruct (fiche_ref d) as [r|]; [|apply message_shape].
    cbn [default]. unfold Datatypes.id. apply message_shape.
Qed.

End Chat_replies.

(** * The run of the import script *)

Section Import_run.
Context `{CM : CaseMapping} {World : Type} (env : Importer.Environment World).
Import Import_script.

Lemma importRow_counts text row (w : World) imported errors :
  ∃ w' imported' errors',
    Importer.importRow env text row (w, (imported, errors)) = (w', (imported', errors'))
    ∧ (imported' + errors' = S (imported + errors))%nat.
Proof.
  unfold Importer.importRow.
  destruct (Importer.generateEmbedding env w text) as [w1 [embedding|err]].
  - destruct (Importer.insert env w1 (row embedding)) as [w2 [[e|]|err]];
      eexists _, _, _; (split; [reflexivity|lia]).
  - eexists _, _, _. split; [reflexivity|lia].
Qed.

Lemma importLoop_counts {A} (text : A → jsstring) (row : A → list Q → Importer.Columns)
    (l : list A) (w : World) imported errors :
  ∃ w' imported' errors',
    foldl (λ st x, Importer.importRow env (text x) (row x) st) (w, (imported, errors)) l
    = (w', (imported', errors'))
    ∧ (imported' + errors' = imported + errors + length l)%nat.
Proof.
  revert w imported errors. induction l as [|x l IH]; intros w imported errors.
  - exists w, imported, errors. split; [done|]. cbn. lia.
  - cbn [foldl].
    destruct (importRow_counts (text x) (row x) w imported errors) as (w1 & i1 & e1 & -> & H1).
    destruct (IH w1 i1 e1) as (w2 & i2 & e2 & -> & H2).
    exists w2, i2, e2. split; [done|]. cbn [length]. lia.
Qed.

(** X20. Every fiche and every chunk is counted once, whatever fails: when
    the text of the file is read, the import of a document ends, and its two
    counters add up to the number of fiches, or of chunks, of the text.  It
    throws only when the file cannot be read. *)
Theorem import_counts_every_piece (filePath : jsstring) (w : World) :
  match Importer.extractTextFromPDF env w filePath with
  | (w1, Normal text) =>
      (∃ w' imported errors,
          Importer.importPSEDocument env filePath w = (w', Normal (imported, errors))
          ∧ (imported + errors = length (splitIntoPSEFiches text))%nat)
      ∧ (∃ w' imported errors,
          Importer.importStandardDocument env filePath w = (w', Normal (imported, errors))
          ∧ (imported + errors = length (splitIntoChunks text))%nat)
  | (w1, Throw err) =>
      Importer.importPSEDocument env filePath w = (w1, Throw err)
      ∧ Importer.importStandardDocument env filePath w = (w1, Throw err)
  end.
Proof.
  unfold Importer.importPSEDocument, Importer.importStandardDocument.
  destruct (Importer.extractTextFromPDF env w filePath) as [w1 [text|err]]; [|done].
  split.
  - destruct (importLoop_counts Import_script.content
                (Importer.ficheRow (Importer.basename env filePath))
                (splitIntoPSEFiches text) w1 0 0) as (w' & i & e & -> & H).
    exists w', i, e. split; [done|lia].
  - destruct (importLoop_counts (λ chunk : jsstring, chunk)
                (Importer.chunkRow (Importer.basename env filePath))
                (splitIntoChunks text) w1 0 0) as (w' & i & e & -> & H).
    exists w', i, e. split; [done|lia].
Qed.

Lemma replaceCRLF_cons a b r :
  replaceCRLF (a :: b :: r)
  = if (a =? CR) && (b =? LF) then LF :: replaceCRLF r else a :: replaceCRLF (b :: r).
Proof. reflexivity. Qed.

Lemma replaceCRLF_elem_le n s c : (length s ≤ n)%nat → c ∈ replaceCRLF s → c ∈ s.
Proof.
  revert s. induction n as [|n IH]; intros s Hn.
  - destruct s; [|cbn in Hn; lia]. done.
  - destruct s as [|a [|b r]]; [done|done|].
    rewrite replaceCRLF_cons. destruct ((a =? CR) && (b =? LF)) eqn:E.
    + apply andb_true_iff in E as [_ Eb%N.eqb_eq]. subst b.
      intros [->|Hc]%elem_of_cons; [set_solver|].
      apply IH in Hc; [set_solver|]. cbn in Hn |- *. lia.
    + intros [->|Hc]%elem_of_cons; [set_solver|].
      apply IH in Hc; [set_solver|]. cbn in Hn |- *. lia.
Qed.

Lemma flushRun_elem k repl run c : c ∈ flushRun k repl run → c ∈ repl ∨ c ∈ run.
Proof.
  destruct run as [|a run]; unfold flushRun; [by intros ?%elem_of_nil|].
  destruct (k <=? _)%nat; [by left|]. intros Hc. right.
  apply list_elem_of_In. apply list_elem_of_In, in_rev in Hc. exact Hc.
Qed.

Lemma replaceRunsFrom_elem p k repl run s c :
  c ∈ replaceRunsFrom p k repl run s → c ∈ repl ∨ c ∈ run ∨ c ∈ s.
Proof.
  revert run. induction s as [|a s IH]; intros run; cbn [replaceRunsFrom].
  - intros [?|?]%flushRun_elem; tauto.
  - destruct (p a).
    + intros [?|[Hc|?]]%IH; [tauto| |set_solver].
      apply elem_of_cons in Hc as [->|?]; set_solver.
    + intros [[?|?]%flushRun_elem|Hc]%elem_of_app; [tauto|tauto|].
      apply elem_of_cons in Hc as [->|Hc]; [set_solver|].
      apply IH in Hc as [?|[?%elem_of_nil|?]]; [tauto|done|set_solver].
Qed.

Lemma trim_elem s c : c ∈ trim s → c ∈ s.
Proof.
  intros Hc. destruct (trim_middle s) as (w & w' & E & _). rewrite E. set_solver.
Qed.

Lemma searchFrom_no_bracket s i : 0x5B ∉ s → searchFrom s i = None.
Proof.
  revert i. induction s as [|a s IH]; intros i Hs; [done|].
  cbn [searchFrom]. unfold matchHeader, expect.
  destruct (a =? 0x5B) eqn:E; [apply N.eqb_eq in E; set_solver|].
  cbn [mbind option_bind]. apply IH. set_solver.
Qed.

Lemma splitIntoPSEFiches_no_bracket text : 0x5B ∉ text → splitIntoPSEFiches text = [].
Proof.
  intros Ht. unfold splitIntoPSEFiches. cbv zeta.
  assert (Hc : 0x5B ∉ cleanText text).
  { unfold cleanText. intros Hc%trim_elem.
    apply replaceRunsFrom_elem in Hc as [Hc|[Hc%elem_of_nil|Hc]]; [|done|].
    - unfold LF in Hc. set_solver.
    - by apply (replaceCRLF_elem_le (length text)) in Hc. }
  assert (E : findMatches (cleanText text) = []).
  { unfold findMatches. cbn [execLoop]. unfold exec. rewrite drop_0.
    by rewrite searchFrom_no_bracket. }
  by rewrite E.
Qed.

(** X21. A file that is taken for a PSE document by its name, and whose text
    holds no opening bracket, imports nothing and counts no error: after the
    file is read, no embedding is asked for and nothing is inserted. *)
Theorem import_without_header (filePath text : jsstring) (w w1 : World) :
  Importer.isPSEDocument (Importer.basename env filePath) = true →
  Importer.extractTextFromPDF env w filePath = (w1, Normal text) →
  0x5B ∉ text →
  Importer.importDocument env filePath w = (w1, Normal (0, 0)%nat).
Proof.
  intros Hpse Hread Ht. unfold Importer.importDocument. rewrite Hpse.
  unfold Importer.importPSEDocument. rewrite Hread.
  by rewrite splitIntoPSEFiches_no_bracket.
Qed.

Lemma importDocument_unreadable (file : jsstring) (w w' : World) err :
  Importer.extractTextFromPDF env w file = (w', Throw err) →
  Importer.importDocument env file w = (w', Throw err).
Proof.
  intros Hread. unfold Importer.importDocument, Importer.importPSEDocument,
    Importer.importStandardDocument. rewrite Hread. by destruct (Importer.isPSEDocument _).
Qed.

(** X22. A file that cannot be read stops the run: the files before it are
    imported, the exception of the reader leaves the loop, and the files
    after it are not touched. *)
Theorem unreadable_file_stops_run (before after : list jsstring) (file : jsstring)
    (w w1 w2 : World) counters err :
  Importer.importFiles env before w = (w1, Normal counters) →
  Importer.extractTextFromPDF env w1 file = (w2, Throw err) →
  Importer.importFiles env (before ++ file :: after) w = (w2, Throw err).
Proof.
  revert w counters. induction before as [|f before IH]; intros w counters Hb Hread.
  - cbn in Hb. injection Hb as <- _. cbn [app Importer.importFiles].
    by rewrite (importDocument_unreadable _ _ _ _ Hread).
  - cbn [app Importer.importFiles] in Hb |- *.
    destruct (Importer.importDocument env f w) as [w' [c|e]]; [|done].
    destruct (Importer.importFiles env before w') as [w'' [l|e]] eqn:E; [|done].
    injection Hb as -> _. by rewrite (IH _ _ E Hread).
Qed.

End Import_run.

(** * The level of a fiche *)

Section Level.
Import Import_script.

Lemma test_spec (matcher : jsstring → bool) s :
  test matcher s = true ↔ ∃ a b, s = a ++ b ∧ matcher b = true.
Proof.
  induction s as [|c s IH]; cbn [test].
  - rewrite orb_false_r. split.
    + intros Hm. by exists [], [].
    + intros (a & b & E & Hm). symmetry in E. apply app_eq_nil in E as [_ ->]. done.
  - rewrite orb_true_iff, IH. split.
    + intros [Hm|(a & b & -> & Hm)]; [by exists [], (c :: s)|by exists (c :: a), b].
    + intros ([|x a] & b & E & Hm).
      * cbn in E. subst b. by left.
      * injection E as -> ->. right. by exists a, b.
Qed.

Lemma ciLetter_spec upper c : ciLetter upper c = true ↔ c ∈ [upper; upper + 32].
Proof.
  unfold ciLetter. rewrite orb_true_iff, !N.eqb_eq. set_solver.
Qed.

Lemma matchLevel_spec g d s :
  isWhiteSpace g = false → isWhiteSpace d = false →
  matchLevel g d s = true
  ↔ ∃ p s1 e ws c after,
      s = [p; s1; e] ++ ws ++ [c] ++ after
      ∧ p ∈ [0x50; 0x70] ∧ s1 ∈ [0x53; 0x73] ∧ e ∈ [0x45; 0x65]
      ∧ Forall (λ x, isWhiteSpace x = true) ws
      ∧ c ∈ [g; d].
Proof.
  intros Hg Hd. split.
  - destruct s as [|p [|s1 [|e r]]]; try done. cbn [matchLevel].
    rewrite !andb_true_iff, !ciLetter_spec. intros [[[Hp Hs] He] Hc].
    destruct (span isWhiteSpace r).2 as [|c after] eqn:E; [done|].
    exists p, s1, e, (span isWhiteSpace r).1, c, after.
    split; [|repeat split; try done].
    + cbn [app]. do 3 f_equal. rewrite <- E. symmetry. apply span_app.
    + apply span_all.
    + apply orb_true_iff in Hc. rewrite !N.eqb_eq in Hc. set_solver.
  - intros (p & s1 & e & ws & c & after & -> & Hp & Hs & He & Hws & Hc).
    cbn [app matchLevel]. rewrite !andb_true_iff, !ciLetter_spec.
    split; [done|]. rewrite span_stop; [|done|].
    + cbn [snd]. apply orb_true_iff. rewrite !N.eqb_eq. set_solver.
    + intros x [= <-]. set_solver.
Qed.

Lemma test_matchLevel g d text :
  isWhiteSpace g = false → isWhiteSpace d = false →
  test (matchLevel g d) text = true ↔ holdsMarker g d text.
Proof.
  intros Hg Hd. rewrite test_spec. unfold holdsMarker. split.
  - intros (a & b & -> & Hm). apply matchLevel_spec in Hm; [|done..].
    destruct Hm as (p & s1 & e & ws & c & after & -> & H).
    by exists a, p, s1, e, ws, c, after.
  - intros (a & p & s1 & e & ws & c & after & -> & H).
    exists a, ([p; s1; e] ++ ws ++ [c] ++ after). split; [done|].
    apply matchLevel_spec; [done..|]. by exists p, s1, e, ws, c, after.
Qed.

(** X23. The level read in a text is 1 as soon as the text holds a marker
    of level 1 at any place, also behind a marker of level 2; it is 2 when
    the text holds a marker of level 2 and none of level 1, and unset when
    it holds neither. *)
Theorem detectPSELevel_level_1_first (text : jsstring) :
  (detectPSELevel text = Some 1 ↔ holdsMarker 0x2460 0x31 text)
  ∧ (detectPSELevel text = Some 2
     ↔ ¬ holdsMarker 0x2460 0x31 text ∧ holdsMarker 0x2461 0x32 text)
  ∧ (detectPSELevel text = None
     ↔ ¬ holdsMarker 0x2460 0x31 text ∧ ¬ holdsMarker 0x2461 0x32 text)
  ∧ detectPSELevel (js "[05PR08 / 12-2022] PSE② Voir aussi PSE 1") = Some 1.
Proof.
  pose proof (test_matchLevel 0x2460 0x31 text eq_refl eq_refl) as H1.
  pose proof (test_matchLevel 0x2461 0x32 text eq_refl eq_refl) as H2.
  unfold detectPSELevel.
  split; [|split; [|split; [|vm_compute; reflexivity]]];
    destruct (test (matchLevel 0x2460 0x31) text);
    destruct (test (matchLevel 0x2461 0x32) text);
    intuition congruence.
Qed.

End Level.

(** * The header in the content of a fiche *)

Section Header_kept.
Import Import_script.

Lemma chained_lookup len lo ms k i m :
  chained len lo ms → ms !! k = Some (i, m) →
  (i + length (fullMatch m) ≤ len)%nat
  ∧ ∀ j m', ms !! S k = Some (j, m') → (i + length (fullMatch m) ≤ j)%nat.
Proof.
  intros Hc. revert k. induction Hc as [lo|lo i0 m0 rest Hlo H1 Hlen Hrest IH]; intros k Hk.
  - done.
  - destruct k as [|k].
    + injection Hk as -> ->. split; [done|].
      intros j m' Hj. cbn in Hj. destruct rest as [|[j0 m1] rest]; [done|].
      injection Hj as -> ->. by inversion Hrest.
    + cbn in Hk. apply (IH _ Hk).
Qed.

Lemma trimStart_stop u v c :
  head v = Some c → isWhiteSpace c = false → ∃ x, trimStart (u ++ v) = x ++ v.
Proof.
  intros Hv Hc. induction u as [|a u [x IH]].
  - exists []. destruct v as [|c' v]; [done|]. injection Hv as ->.
    unfold trimStart. cbn [app span]. by rewrite Hc.
  - unfold trimStart in *. cbn [app span]. destruct (isWhiteSpace a).
    + destruct (span isWhiteSpace (u ++ v)) as [s1 s2] eqn:E. cbn [snd] in IH |- *. by exists x.
    + by exists (a :: u).
Qed.

Lemma trim_keeps_prefix a r c c' :
  head a = Some c → isWhiteSpace c = false →
  last a = Some c' → isWhiteSpace c' = false →
  ∃ r', trim (a ++ r) = a ++ r'.
Proof.
  intros Hh Hc Hl Hc'. unfold trim.
  assert (Hs : trimStart (a ++ r) = a ++ r).
  { destruct a as [|x a]; [done|]. injection Hh as ->.
    unfold trimStart. cbn [app span]. by rewrite Hc. }
  rewrite Hs. unfold trimEnd. rewrite rev_app_distr.
  destruct (trimStart_stop (rev r) (rev a) c') as [x Hx]; [|done|].
  - rewrite <- Hl. clear. induction a as [|y a IH] using rev_ind; [done|].
    rewrite rev_unit, last_snoc. done.
  - rewrite Hx, rev_app_distr, rev_involutive. by exists (rev x).
Qed.

Lemma replaceRunsFrom_plain p k repl n s :
  Forall (λ c, p c = false) n →
  replaceRunsFrom p k repl [] (n ++ s) = n ++ replaceRunsFrom p k repl [] s.
Proof.
  induction 1 as [|c n Hc _ IH]; [done|].
  cbn [app replaceRunsFrom]. rewrite Hc. cbn [flushRun app]. by rewrite IH.
Qed.

Lemma replaceRunsFrom_run p k repl run ws c s :
  Forall (λ x, p x = true) ws → p c = false →
  replaceRunsFrom p k repl run (ws ++ c :: s)
  = flushRun k repl (rev ws ++ run) ++ c :: replaceRunsFrom p k repl [] s.
Proof.
  intros Hws Hc. revert run. induction Hws as [|x ws Hx _ IH]; intros run.
  - cbn [app replaceRunsFrom rev]. by rewrite Hc.
  - cbn [app replaceRunsFrom rev]. rewrite Hx, IH. by rewrite <- app_assoc.
Qed.

Lemma flushRun_class (p : N → bool) k repl run :
  Forall (λ x, p x = true) repl → Forall (λ x, p x = true) run →
  Forall (λ x, p x = true) (flushRun k repl run).
Proof.
  intros Hr Hrun. unfold flushRun. destruct run as [|a run]; [constructor|].
  destruct (k <=? _)%nat; [done|]. by apply Forall_rev.
Qed.

Lemma head_run (p : N → bool) ws c0 rest c :
  Forall (λ x, p x = true) ws → head (ws ++ c0 :: rest) = Some c → c = c0 ∨ p c = true.
Proof.
  intros Hws Hc. destruct Hws as [|x ws Hx _]; cbn in Hc; injection Hc as <-; [by left|by right].
Qed.

Lemma expect_here c r : expect c (c :: r) = Some r.
Proof. unfold expect. by rewrite N.eqb_refl. Qed.

Lemma ficheTypeCode_here ft r :
  ft ∈ [js "AC"; js "PR"; js "FT"] → ficheTypeCode (ft ++ r) = Some (ft, r).
Proof.
  intros Hft. repeat (apply elem_of_cons in Hft as [->|Hft]; [by vm_compute|]).
  by apply elem_of_nil in Hft.
Qed.

Lemma matchHeader_complete ch ft num ws1 ws2 mo yr r :
  length ch = 2%nat → Forall (λ c, isDigit c = true) ch →
  ft ∈ [js "AC"; js "PR"; js "FT"] →
  num ≠ [] → Forall (λ c, isDigit c = true) num →
  Forall (λ c, isWhiteSpace c = true) ws1 → Forall (λ c, isWhiteSpace c = true) ws2 →
  length mo = 2%nat → Forall (λ c, isDigit c = true) mo →
  length yr = 4%nat → Forall (λ c, isDigit c = true) yr →
  ∃ m, matchHeader ([0x5B] ++ ch ++ ft ++ num ++ ws1 ++ [0x2F] ++ ws2 ++ mo ++ [0x2D]
                    ++ yr ++ [0x5D] ++ r) = Some m
       ∧ g_chapter m = ch ∧ g_ficheType m = ft ∧ g_ficheNumber m = num
       ∧ g_month m = mo ∧ g_year m = yr.
Proof.
  intros Lch Hch Hft Hnum Dnum Hws1 Hws2 Lmo Hmo Lyr Hyr.
  unfold matchHeader. cbn [app]. rewrite expect_here. cbn [mbind option_bind].
  rewrite (takeN_app _ _ _ _ Lch Hch). cbn [mbind option_bind].
  rewrite (ficheTypeCode_here _ _ Hft). cbn [mbind option_bind].
  rewrite (span_stop isDigit num);
    [|done|intros c [->|Hw]%(head_run _ _ _ _ _ Hws1);
           [done|by apply space_not_punct in Hw as [? _]]].
  destruct num as [|n0 num]; [done|].
  rewrite (span_stop isWhiteSpace ws1); [|done|by intros c [= <-]].
  rewrite expect_here. cbn [mbind option_bind].
  rewrite (span_stop isWhiteSpace ws2);
    [|done|intros c Hc; destruct mo as [|d mo]; [done|];
           injection Hc as <-; apply Forall_cons in Hmo as [Hd _];
           by apply digit_classes in Hd as [? _]].
  rewrite (takeN_app _ _ _ _ Lmo Hmo). cbn [mbind option_bind].
  rewrite expect_here. cbn [mbind option_bind].
  rewrite (takeN_app _ _ _ _ Lyr Hyr). cbn [mbind option_bind].
  rewrite expect_here. cbn [mbind option_bind].
  eexists. split; [reflexivity|]. by repeat split.
Qed.

Lemma digit_Forall_plain l :
  Forall (λ c, isDigit c = true) l → Forall (λ c, isWhiteSpace c = false) l.
Proof.
  intros H. eapply Forall_impl; [exact H|]. intros c Hc. by apply digit_classes in Hc as [? _].
Qed.

Lemma type_Forall_plain ft :
  ft ∈ [js "AC"; js "PR"; js "FT"] → Forall (λ c, isWhiteSpace c = false) ft.
Proof.
  intros Hft. repeat (apply elem_of_cons in Hft as [->|Hft]; [by repeat constructor|]).
  by apply elem_of_nil in Hft.
Qed.

(** What the cleaning of a fiche makes of a text that begins with a header:
    the header stays, with at most two spaces for the white space around its
    slash. *)
Lemma normalizeContent_header ch ft num ws1 ws2 mo yr r :
  length ch = 2%nat → Forall (λ c, isDigit c = true) ch →
  ft ∈ [js "AC"; js "PR"; js "FT"] →
  num ≠ [] → Forall (λ c, isDigit c = true) num →
  Forall (λ c, isWhiteSpace c = true) ws1 → Forall (λ c, isWhiteSpace c = true) ws2 →
  length mo = 2%nat → Forall (λ c, isDigit c = true) mo →
  length yr = 4%nat → Forall (λ c, isDigit c = true) yr →
  ∃ ws1' ws2' r',
    Forall (λ c, isWhiteSpace c = true) ws1' ∧ Forall (λ c, isWhiteSpace c = true) ws2'
    ∧ normalizeContent ([0x5B] ++ ch ++ ft ++ num ++ ws1 ++ [0x2F] ++ ws2 ++ mo ++ [0x2D]
                        ++ yr ++ [0x5D] ++ r)
      = [0x5B] ++ ch ++ ft ++ num ++ ws1' ++ [0x2F] ++ ws2' ++ mo ++ [0x2D]
        ++ yr ++ [0x5D] ++ r'.
Proof.
  intros Lch Hch Hft Hnum Dnum Hws1 Hws2 Lmo Hmo Lyr Hyr.
  set (ws1' := flushRun 3 [SP; SP] (rev ws1 ++ [])).
  set (ws2' := flushRun 3 [SP; SP] (rev ws2 ++ [])).
  assert (Hw1 : Forall (λ c, isWhiteSpace c = true) ws1').
  { apply flushRun_class; [by repeat constructor|]. rewrite app_nil_r. by apply Forall_rev. }
  assert (Hw2 : Forall (λ c, isWhiteSpace c = true) ws2').
  { apply flushRun_class; [by repeat constructor|]. rewrite app_nil_r. by apply Forall_rev. }
  destruct mo as [|d mo]; [done|].
  assert (Hd : isWhiteSpace d = false).
  { apply Forall_cons in Hmo as [Hd _]. by apply digit_classes in Hd as [? _]. }
  assert (E : replaceRuns isWhiteSpace 3 [SP; SP]
                ([0x5B] ++ ch ++ ft ++ num ++ ws1 ++ [0x2F] ++ ws2 ++ (d :: mo) ++ [0x2D]
                 ++ yr ++ [0x5D] ++ r)
              = ([0x5B] ++ ch ++ ft ++ num ++ ws1' ++ [0x2F] ++ ws2' ++ (d :: mo) ++ [0x2D]
                 ++ yr ++ [0x5D]) ++ replaceRuns isWhiteSpace 3 [SP; SP] r).
  { unfold replaceRuns.
    rewrite (replaceRunsFrom_plain _ _ _ [0x5B]) by (by repeat constructor).
    rewrite (replaceRunsFrom_plain _ _ _ ch) by (by apply digit_Forall_plain).
    rewrite (replaceRunsFrom_plain _ _ _ ft) by (by apply type_Forall_plain).
    rewrite (replaceRunsFrom_plain _ _ _ num) by (by apply digit_Forall_plain).
    cbn [app]. rewrite (replaceRunsFrom_run _ _ _ _ ws1) by done.
    rewrite (replaceRunsFrom_run _ _ _ _ ws2) by done.
    fold ws1' ws2'.
    rewrite (replaceRunsFrom_plain _ _ _ mo)
      by (apply digit_Forall_plain; by apply Forall_cons in Hmo as [_ ?]).
    cbn [app]. change (0x2D :: yr ++ 0x5D :: r) with ([0x2D] ++ yr ++ [0x5D] ++ r).
    rewrite (replaceRunsFrom_plain _ _ _ [0x2D]) by (by repeat constructor).
    rewrite (replaceRunsFrom_plain _ _ _ yr) by (by apply digit_Forall_plain).
    rewrite (replaceRunsFrom_plain _ _ _ [0x5D]) by (by repeat constructor).
    repeat (progress (cbn [app]; rewrite <- ?app_assoc)). reflexivity. }
  unfold normalizeContent. unfold replaceBlankLines.
  rewrite (replaceBlankLines_id 0)
    by (apply replaceRunsFrom_runsBelow; [by repeat constructor|simpl; lia|lia|constructor]).
  rewrite E.
  destruct (trim_keeps_prefix
              ([0x5B] ++ ch ++ ft ++ num ++ ws1' ++ [0x2F] ++ ws2' ++ (d :: mo) ++ [0x2D]
               ++ yr ++ [0x5D])
              (replaceRuns isWhiteSpace 3 [SP; SP] r) 0x5B 0x5D) as [r' Hr']; try done.
  { rewrite !app_assoc. by rewrite last_snoc. }
  exists ws1', ws2', r'. split; [done|]. split; [done|]. rewrite Hr'.
  repeat (progress (cbn [app]; rewrite <- ?app_assoc)). reflexivity.
Qed.

(** X24. The content of every fiche begins with a header that the pattern
    of the import script matches again, with the chapter, the type, the
    number and the date of the fiche: the cleaning keeps the header. *)
Theorem fiche_content_begins_with_header (text : jsstring) (f : PSEFiche) :
  f ∈ splitIntoPSEFiches text →
  ∃ m, matchHeader (Import_script.content f) = Some m
       ∧ g_chapter m = chapter f
       ∧ g_ficheType m = ficheType f
       ∧ g_ficheNumber m = ficheNumber f
       ∧ g_month m ++ [0x2D] ++ g_year m = updateDate f.
Proof.
  unfold splitIntoPSEFiches. intros Hf.
  apply list_elem_of_lookup_1 in Hf as [k Hf]. rewrite list_lookup_imap in Hf.
  destruct (findMatches (cleanText text) !! k) as [[i m]|] eqn:Ek; [|done].
  simpl in Hf. injection Hf as <-.
  set (cleanedText := cleanText text) in *.
  assert (Hm : matchHeader (drop i cleanedText) = Some m).
  { pose proof (execLoop_matches (S (length cleanedText)) cleanedText 0) as HF.
    rewrite Forall_forall in HF. apply (HF (i, m)).
    by eapply list_elem_of_lookup_2. }
  destruct (chained_lookup _ _ _ _ _ _
              (execLoop_chained (S (length cleanedText)) cleanedText 0) Ek) as [Hlen Hnext].
  destruct (matchHeader_groups _ _ Hm)
    as (ws1 & ws2 & r & Hs & Hfull & [Lch Hch] & Hft & [Hnum Dnum] & [Hws1 Hws2]
        & [Lmo Hmo] & [Lyr Hyr]).
  unfold ficheOfMatch, ficheSpan. cbn [fst snd].
  cbn [Import_script.content chapter ficheType ficheNumber updateDate].
  set (endIndex := match findMatches cleanedText !! S k with
                   | Some nm => nm.1
                   | None => length cleanedText
                   end).
  assert (Hend : (i + length (fullMatch m) ≤ endIndex)%nat).
  { unfold endIndex. destruct (findMatches cleanedText !! S k) as [[j m']|] eqn:En.
    - by apply (Hnext j m').
    - done. }
  assert (Hslice : slice cleanedText i endIndex
                   = fullMatch m ++ take (endIndex - i - length (fullMatch m)) r).
  { unfold slice. rewrite Hs. rewrite take_app_ge by lia. done. }
  rewrite Hslice.
  destruct (trim_keeps_prefix (fullMatch m)
              (take (endIndex - i - length (fullMatch m)) r) 0x5B 0x5D) as [r1 Hr1]; try done.
  { by rewrite Hfull. }
  { rewrite Hfull, !app_assoc. by rewrite last_snoc. }
  rewrite Hr1, Hfull. repeat (progress (cbn [app]; rewrite <- ?app_assoc)).
  destruct (normalizeContent_header (g_chapter m) (g_ficheType m) (g_ficheNumber m)
              ws1 ws2 (g_month m) (g_year m) r1) as (ws1' & ws2' & r' & Hw1 & Hw2 & E);
    try done.
  repeat (progress (cbn [app] in E; rewrite <- ?app_assoc in E)).
  rewrite E.
  destruct (matchHeader_complete (g_chapter m) (g_ficheType m) (g_ficheNumber m)
              ws1' ws2' (g_month m) (g_year m) r') as (m' & Hm' & E1 & E2 & E3 & E4 & E5);
    try done.
  exists m'. repeat (progress (cbn [app] in Hm'; rewrite <- ?app_assoc in Hm')).
  split; [exact Hm'|]. by rewrite E1, E2, E3, E4, E5.
Qed.

End Header_kept.

(** * The headers of the raw text *)

Section Raw_headers.
Import Import_script.

Lemma List_filter_map {A B} (f : B → bool) (g : A → B) (l : list A) :
  List.filter f (List.map g l) = List.map g (List.filter (λ x, f (g x)) l).
Proof.
  induction l as [|x l IH]; [done|]. cbn [List.map List.filter].
  destruct (f (g x)); cbn [List.map]; by rewrite IH.
Qed.

Lemma headerOffsets_nil : headerOffsets [] = [].
Proof. reflexivity. Qed.

Lemma headerOffsets_cons c s :
  length (headerOffsets (c :: s))
  = ((if bool_decide (is_Some (matchHeader (c :: s))) then 1 else 0)
     + length (headerOffsets s))%nat.
Proof.
  unfold headerOffsets. cbn [length]. rewrite <- cons_seq, <- seq_shift.
  cbn [List.filter drop]. rewrite List_filter_map. cbn [drop].
  destruct (bool_decide (is_Some (matchHeader (c :: s)))); cbn [length];
    by rewrite length_map.
Qed.

Lemma matchHeader_bracket_first c s : c ≠ 0x5B → matchHeader (c :: s) = None.
Proof.
  intros Hc. unfold matchHeader, expect. destruct (N.eqb_spec c 0x5B); [done|]. done.
Qed.

Lemma matchHeader_space c s : isWhiteSpace c = true → matchHeader (c :: s) = None.
Proof. intros Hc. apply matchHeader_bracket_first. intros ->. by vm_compute in Hc. Qed.

Lemma headers_space_prefix w s :
  Forall (λ c, isWhiteSpace c = true) w →
  length (headerOffsets (w ++ s)) = length (headerOffsets s).
Proof.
  induction 1 as [|c w Hc _ IH]; [done|].
  cbn [app]. rewrite headerOffsets_cons, matchHeader_space by done.
  rewrite bool_decide_false by (by intros [? ?]). by rewrite IH.
Qed.

(** A header ends with a bracket: white space at the end of the text takes
    no part in it. *)
Lemma app_plain_inside (a w p r : jsstring) x :
  Forall (λ c, isWhiteSpace c = true) w → isWhiteSpace x = false →
  a ++ w = p ++ x :: r → ∃ r', a = p ++ x :: r'.
Proof.
  intros Hw Hx. revert a. induction p as [|y p IH]; intros a E.
  - destruct a as [|c a].
    + cbn in E. subst w. apply Forall_cons in Hw as [Hw _]. congruence.
    + cbn in E. injection E as -> _. by exists a.
  - destruct a as [|c a].
    + cbn in E. subst w. apply Forall_cons in Hw as [_ Hw].
      apply Forall_app in Hw as [_ Hw]. apply Forall_cons in Hw as [Hw _]. congruence.
    + cbn in E. injection E as -> E. destruct (IH _ E) as [r' ->]. by exists r'.
Qed.

Lemma matchHeader_is_Some_shape s :
  is_Some (matchHeader s)
  ↔ ∃ ch ft num ws1 ws2 mo yr r,
      s = [0x5B] ++ ch ++ ft ++ num ++ ws1 ++ [0x2F] ++ ws2 ++ mo ++ [0x2D] ++ yr
          ++ [0x5D] ++ r
      ∧ (length ch = 2%nat ∧ Forall (λ c, isDigit c = true) ch)
      ∧ ft ∈ [js "AC"; js "PR"; js "FT"]
      ∧ (num ≠ [] ∧ Forall (λ c, isDigit c = true) num)
      ∧ (Forall (λ c, isWhiteSpace c = true) ws1 ∧ Forall (λ c, isWhiteSpace c = true) ws2)
      ∧ (length mo = 2%nat ∧ Forall (λ c, isDigit c = true) mo)
      ∧ (length yr = 4%nat ∧ Forall (λ c, isDigit c = true) yr).
Proof.
  split.
  - intros [m Hm].
    destruct (matchHeader_groups _ _ Hm) as (ws1 & ws2 & r & Hs & Hfull & H).
    exists (g_chapter m), (g_ficheType m), (g_ficheNumber m), ws1, ws2, (g_month m),
      (g_year m), r.
    split; [|exact H]. rewrite Hs, Hfull.
    repeat (progress (cbn [app]; rewrite <- ?app_assoc)). reflexivity.
  - intros (ch & ft & num & ws1 & ws2 & mo & yr & r & -> & [? ?] & ? & [? ?] & [? ?]
            & [? ?] & [? ?]).
    destruct (matchHeader_complete ch ft num ws1 ws2 mo yr r) as (m & Hm & _); [done..|].
    by exists m.
Qed.

Lemma matchHeader_space_suffix a w :
  Forall (λ c, isWhiteSpace c = true) w →
  is_Some (matchHeader (a ++ w)) ↔ is_Some (matchHeader a).
Proof.
  intros Hw. rewrite !matchHeader_is_Some_shape. split.
  - intros (ch & ft & num & ws1 & ws2 & mo & yr & r & E & H).
    assert (E' : a ++ w = ([0x5B] ++ ch ++ ft ++ num ++ ws1 ++ [0x2F] ++ ws2 ++ mo ++ [0x2D]
                          ++ yr) ++ 0x5D :: r).
    { rewrite E. repeat (progress (cbn [app]; rewrite <- ?app_assoc)). reflexivity. }
    destruct (app_plain_inside a w _ r 0x5D Hw eq_refl E') as [r' ->].
    exists ch, ft, num, ws1, ws2, mo, yr, r'. split; [|exact H].
    repeat (progress (cbn [app]; rewrite <- ?app_assoc)). reflexivity.
  - intros (ch & ft & num & ws1 & ws2 & mo & yr & r & -> & H).
    exists ch, ft, num, ws1, ws2, mo, yr, (r ++ w). split; [|exact H].
    repeat (progress (cbn [app]; rewrite <- ?app_assoc)). reflexivity.
Qed.

Lemma headers_space_suffix a w :
  Forall (λ c, isWhiteSpace c = true) w →
  length (headerOffsets (a ++ w)) = length (headerOffsets a).
Proof.
  intros Hw. induction a as [|c a IH].
  - cbn [app]. rewrite <- (app_nil_r w). by rewrite headers_space_prefix.
  - cbn [app]. rewrite !headerOffsets_cons, IH. f_equal.
    rewrite (bool_decide_ext _ _ (matchHeader_space_suffix (c :: a) w Hw)). done.
Qed.

Lemma headers_trim s : length (headerOffsets (trim s)) = length (headerOffsets s).
Proof.
  destruct (trim_middle s) as (w & w' & E & Hw & Hw'). rewrite E at 2.
  by rewrite headers_space_prefix, headers_space_suffix.
Qed.

(** ** White space made single spaces *)

Lemma replaceRunsFrom_spaces (p : N → bool) k repl run w :
  Forall (λ c, p c = true) w →
  replaceRunsFrom p k repl run w = flushRun k repl (rev w ++ run).
Proof.
  intros Hw. revert run. induction Hw as [|c w Hc _ IH]; intros run; [done|].
  cbn [replaceRunsFrom rev]. rewrite Hc, IH. by rewrite <- app_assoc.
Qed.

Lemma flushRun_1 repl run : run ≠ [] → flushRun 1 repl run = repl.
Proof. destruct run; [done|]. intros _. reflexivity. Qed.

Lemma squeeze_plain c s :
  isWhiteSpace c = false →
  replaceRuns isWhiteSpace 1 [SP] (c :: s) = c :: replaceRuns isWhiteSpace 1 [SP] s.
Proof. intros Hc. unfold replaceRuns. cbn [replaceRunsFrom]. by rewrite Hc. Qed.

Lemma squeeze_run w s :
  w ≠ [] → Forall (λ c, isWhiteSpace c = true) w →
  (∀ c, head s = Some c → isWhiteSpace c = false) →
  replaceRuns isWhiteSpace 1 [SP] (w ++ s) = SP :: replaceRuns isWhiteSpace 1 [SP] s.
Proof.
  intros Hne Hw Hs. unfold replaceRuns. destruct s as [|x s].
  - rewrite app_nil_r, replaceRunsFrom_spaces by done. rewrite flushRun_1; [done|].
    rewrite app_nil_r. destruct w using rev_ind; [done|]. rewrite rev_unit. done.
  - rewrite replaceRunsFrom_run by (try done; by apply Hs).
    rewrite flushRun_1; [|rewrite app_nil_r; destruct w using rev_ind; [done|];
                          rewrite rev_unit; done].
    cbn [app]. f_equal. cbn [replaceRunsFrom]. rewrite (Hs x eq_refl). done.
Qed.

Lemma squeeze_split (s : jsstring) :
  ∃ w rest, s = w ++ rest ∧ Forall (λ c, isWhiteSpace c = true) w
            ∧ ∀ c, head rest = Some c → isWhiteSpace c = false.
Proof.
  exists (span isWhiteSpace s).1, (span isWhiteSpace s).2.
  split; [by rewrite span_app|]. split; [apply span_all|].
  intros c Hc. destruct (span isWhiteSpace s).2 as [|x r] eqn:E; [done|].
  injection Hc as <-. by eapply span_rest.
Qed.

Lemma app_first_plain (a b u v : jsstring) x y :
  Forall (λ c, isWhiteSpace c = true) a → Forall (λ c, isWhiteSpace c = true) b →
  isWhiteSpace x = false → isWhiteSpace y = false →
  a ++ x :: u = b ++ y :: v → a = b ∧ x = y ∧ u = v.
Proof.
  intros Ha. revert b. induction Ha as [|c a Hc _ IH]; intros b Hb Hx Hy E.
  - destruct b as [|d b]; cbn in E.
    + by injection E as -> ->.
    + injection E as -> _. apply Forall_cons in Hb as [Hb _]. congruence.
  - destruct b as [|d b]; cbn in E.
    + injection E as -> _. congruence.
    + injection E as -> E. apply Forall_cons in Hb as [_ Hb].
      destruct (IH _ Hb Hx Hy E) as (-> & -> & ->). done.
Qed.

(** What a text is when its squeezed form begins with white space, or none,
    and then a code unit that is none. *)
Lemma squeeze_inv (t o X : jsstring) x :
  Forall (λ c, isWhiteSpace c = true) o → isWhiteSpace x = false →
  replaceRuns isWhiteSpace 1 [SP] t = o ++ x :: X →
  ∃ w t', t = w ++ x :: t' ∧ Forall (λ c, isWhiteSpace c = true) w
          ∧ replaceRuns isWhiteSpace 1 [SP] t' = X.
Proof.
  intros Ho Hx E. destruct (squeeze_split t) as (w & rest & -> & Hw & Hrest).
  destruct rest as [|y rest].
  - exfalso. rewrite app_nil_r in E. unfold replaceRuns in E.
    rewrite replaceRunsFrom_spaces in E by done.
    assert (Hin : x ∈ flushRun 1 [SP] (rev w ++ [])) by (rewrite E; set_solver).
    assert (HF : Forall (λ c, isWhiteSpace c = true) (flushRun 1 [SP] (rev w ++ []))).
    { apply flushRun_class; [by repeat constructor|]. rewrite app_nil_r. by apply Forall_rev. }
    rewrite Forall_forall in HF. specialize (HF x Hin). congruence.
  - assert (Hy : isWhiteSpace y = false) by (by apply Hrest).
    unfold replaceRuns in E. rewrite replaceRunsFrom_run in E by done.
    apply app_first_plain in E as (_ & -> & E); try done.
    + by exists w, rest.
    + apply flushRun_class; [by repeat constructor|]. rewrite app_nil_r. by apply Forall_rev.
Qed.

Lemma squeeze_inv_plain (p t X : jsstring) :
  Forall (λ c, isWhiteSpace c = false) p →
  replaceRuns isWhiteSpace 1 [SP] t = p ++ X →
  ∃ t', t = p ++ t' ∧ replaceRuns isWhiteSpace 1 [SP] t' = X.
Proof.
  intros Hp. revert t. induction Hp as [|c p Hc _ IH]; intros t E; [by exists t|].
  cbn [app] in E. destruct (squeeze_inv t [] (p ++ X) c) as (w & t' & -> & Hw & E');
    [constructor|done|done|].
  destruct w as [|d w].
  - destruct (IH _ E') as (t'' & -> & E''). by exists t''.
  - exfalso. rewrite squeeze_run in E; [| done | done |].
    + injection E as <- _. done.
    + by intros ? [= <-].
Qed.

Lemma squeeze_plain_list (p s : jsstring) :
  Forall (λ c, isWhiteSpace c = false) p →
  replaceRuns isWhiteSpace 1 [SP] (p ++ s) = p ++ replaceRuns isWhiteSpace 1 [SP] s.
Proof. intros Hp. by apply replaceRunsFrom_plain. Qed.

Lemma squeeze_spaces_then w x s :
  Forall (λ c, isWhiteSpace c = true) w → isWhiteSpace x = false →
  ∃ w', Forall (λ c, isWhiteSpace c = true) w'
        ∧ replaceRuns isWhiteSpace 1 [SP] (w ++ x :: s)
          = w' ++ x :: replaceRuns isWhiteSpace 1 [SP] s.
Proof.
  intros Hw Hx. exists (flushRun 1 [SP] (rev w ++ [])). split.
  - apply flushRun_class; [by repeat constructor|]. rewrite app_nil_r. by apply Forall_rev.
  - unfold replaceRuns. by rewrite replaceRunsFrom_run.
Qed.

(** The pattern matches at the beginning of a text when it matches at the
    beginning of its squeezed form, and only then. *)
Lemma matchHeader_squeeze s :
  is_Some (matchHeader (replaceRuns isWhiteSpace 1 [SP] s)) ↔ is_Some (matchHeader s).
Proof.
  rewrite !matchHeader_is_Some_shape. split.
  - intros (ch & ft & num & ws1 & ws2 & mo & yr & r & E & [Lch Hch] & Hft & [Hnum Dnum]
            & [Hws1 Hws2] & [Lmo Hmo] & [Lyr Hyr]).
    destruct mo as [|d mo]; [done|].
    apply Forall_cons in Hmo as [Hd Hmo].
    assert (Wd : isWhiteSpace d = false) by (by apply digit_classes in Hd as [? _]).
    assert (E1 : replaceRuns isWhiteSpace 1 [SP] s
                 = ([0x5B] ++ ch ++ ft ++ num)
                   ++ (ws1 ++ 0x2F :: ws2 ++ d :: mo ++ [0x2D] ++ yr ++ [0x5D] ++ r)).
    { rewrite E. repeat (progress (cbn [app]; rewrite <- ?app_assoc)). reflexivity. }
    apply squeeze_inv_plain in E1 as (t1 & -> & E1).
    2:{ rewrite !Forall_app. split; [by repeat constructor|]. split; [by apply digit_Forall_plain|].
        split; [by apply type_Forall_plain|by apply digit_Forall_plain]. }
    apply squeeze_inv in E1 as (w1 & t2 & -> & Hw1 & E2); [|done..].
    apply squeeze_inv in E2 as (w2 & t3 & -> & Hw2 & E3); [|done..].
    assert (E4 : replaceRuns isWhiteSpace 1 [SP] t3 = (mo ++ [0x2D] ++ yr ++ [0x5D]) ++ r).
    { rewrite E3. repeat (progress (cbn [app]; rewrite <- ?app_assoc)). reflexivity. }
    apply squeeze_inv_plain in E4 as (t4 & -> & _).
    2:{ rewrite !Forall_app. split; [by apply digit_Forall_plain|].
        split; [by repeat constructor|]. split; [by apply digit_Forall_plain|by repeat constructor]. }
    exists ch, ft, num, w1, w2, (d :: mo), yr, t4. split.
    + repeat (progress (cbn [app]; rewrite <- ?app_assoc)). reflexivity.
    + repeat split; try done. by constructor.
  - intros (ch & ft & num & ws1 & ws2 & mo & yr & r & -> & [Lch Hch] & Hft & [Hnum Dnum]
            & [Hws1 Hws2] & [Lmo Hmo] & [Lyr Hyr]).
    destruct mo as [|d mo]; [done|].
    assert (Hmo' := Hmo). apply Forall_cons in Hmo' as [Hd Hmo'].
    assert (Wd : isWhiteSpace d = false) by (by apply digit_classes in Hd as [? _]).
    destruct (squeeze_spaces_then ws2 d (mo ++ [0x2D] ++ yr ++ [0x5D] ++ r) Hws2 Wd)
      as (ws2' & Hws2' & E2).
    destruct (squeeze_spaces_then ws1 0x2F (ws2 ++ d :: mo ++ [0x2D] ++ yr ++ [0x5D] ++ r)
                Hws1 eq_refl) as (ws1' & Hws1' & E1).
    exists ch, ft, num, ws1', ws2', (d :: mo), yr,
      (replaceRuns isWhiteSpace 1 [SP] r).
    split; [|by repeat split].
    rewrite (squeeze_plain_list [0x5B]) by (by repeat constructor).
    rewrite (squeeze_plain_list ch) by (by apply digit_Forall_plain).
    rewrite (squeeze_plain_list ft) by (by apply type_Forall_plain).
    rewrite (squeeze_plain_list num) by (by apply digit_Forall_plain).
    cbn [app] in E1, E2 |- *. rewrite E1, E2.
    rewrite (squeeze_plain_list mo) by (by apply digit_Forall_plain).
    change (0x2D :: yr ++ 0x5D :: r) with ([0x2D] ++ yr ++ [0x5D] ++ r).
    rewrite (squeeze_plain_list [0x2D]) by (by repeat constructor).
    rewrite (squeeze_plain_list yr) by (by apply digit_Forall_plain).
    rewrite (squeeze_plain_list [0x5D]) by (by repeat constructor).
    reflexivity.
Qed.

Lemma headers_squeeze_le n s :
  (length s ≤ n)%nat →
  length (headerOffsets (replaceRuns isWhiteSpace 1 [SP] s)) = length (headerOffsets s).
Proof.
  revert s. induction n as [|n IH]; intros s Hn.
  - destruct s; [done|cbn in Hn; lia].
  - destruct s as [|c s']; [done|].
    destruct (isWhiteSpace c) eqn:Ec.
    + destruct (squeeze_split (c :: s')) as (w & rest & E & Hw & Hrest).
      assert (Hne : w ≠ []).
      { intros ->. cbn in E. subst rest. specialize (Hrest c eq_refl). congruence. }
      rewrite E, squeeze_run by done.
      rewrite headerOffsets_cons, matchHeader_space by done.
      rewrite bool_decide_false by (by intros [? ?]).
      rewrite headers_space_prefix by done. apply IH.
      assert (length (c :: s') = length (w ++ rest)) as HL by (by rewrite E).
      rewrite length_app in HL. destruct w; [done|]. cbn in HL, Hn. lia.
    + rewrite squeeze_plain by done. rewrite !headerOffsets_cons.
      rewrite IH by (cbn in Hn; lia). f_equal.
      rewrite <- (squeeze_plain c s') by done.
      by rewrite (bool_decide_ext _ _ (matchHeader_squeeze (c :: s'))).
Qed.

Lemma headers_squeeze s :
  length (headerOffsets (replaceRuns isWhiteSpace 1 [SP] s)) = length (headerOffsets s).
Proof. by apply (headers_squeeze_le (length s)). Qed.

(** ** The two replacements of the cleaning, squeezed *)

Lemma flushRun_1_same (run run' : jsstring) :
  (run = [] ↔ run' = []) → flushRun 1 [SP] run = flushRun 1 [SP] run'.
Proof.
  intros H. destruct run as [|a run], run' as [|b run']; try done.
  - destruct H as [H _]. by specialize (H eq_refl).
  - destruct H as [_ H]. by specialize (H eq_refl).
Qed.

Lemma replaceRunsFrom_cons (p : N → bool) k repl run c s :
  replaceRunsFrom p k repl run (c :: s)
  = if p c then replaceRunsFrom p k repl (c :: run) s
    else flushRun k repl run ++ c :: replaceRunsFrom p k repl [] s.
Proof. reflexivity. Qed.

Lemma squeeze_replaceCRLF_le n s run run' :
  (length s ≤ n)%nat → (run = [] ↔ run' = []) →
  replaceRunsFrom isWhiteSpace 1 [SP] run (replaceCRLF s)
  = replaceRunsFrom isWhiteSpace 1 [SP] run' s.
Proof.
  revert s run run'. induction n as [|n IH]; intros s run run' Hn Hrun.
  - destruct s; [|cbn in Hn; lia]. cbn. by apply flushRun_1_same.
  - destruct s as [|a [|b r]].
    + cbn. by apply flushRun_1_same.
    + cbn [replaceCRLF replaceRunsFrom]. destruct (isWhiteSpace a); [by apply flushRun_1_same|].
      by rewrite (flushRun_1_same run run').
    + rewrite replaceCRLF_cons. destruct ((a =? CR) && (b =? LF)) eqn:E.
      * apply andb_true_iff in E as [Ea%N.eqb_eq Eb%N.eqb_eq]. subst a b.
        cbn [replaceRunsFrom]. change (isWhiteSpace LF) with true. change (isWhiteSpace CR) with true.
        cbv iota. apply IH; [cbn in Hn; lia|]. split; intros; discriminate.
      * rewrite (replaceRunsFrom_cons _ _ _ run a), (replaceRunsFrom_cons _ _ _ run' a).
        destruct (isWhiteSpace a).
        -- apply IH; [cbn in Hn |- *; lia|]. split; intros; discriminate.
        -- rewrite (flushRun_1_same run run') by done. do 2 f_equal.
           apply IH; [cbn in Hn |- *; lia|done].
Qed.

Lemma squeeze_replaceCRLF s :
  replaceRuns isWhiteSpace 1 [SP] (replaceCRLF s) = replaceRuns isWhiteSpace 1 [SP] s.
Proof. by apply (squeeze_replaceCRLF_le (length s)). Qed.

Lemma squeeze_through_spaces acc w s :
  Forall (λ c, isWhiteSpace c = true) w →
  replaceRunsFrom isWhiteSpace 1 [SP] acc (w ++ s)
  = replaceRunsFrom isWhiteSpace 1 [SP] (rev w ++ acc) s.
Proof.
  intros Hw. revert acc. induction Hw as [|c w Hc _ IH]; intros acc; [done|].
  cbn [app replaceRunsFrom rev]. rewrite Hc, IH. by rewrite <- app_assoc.
Qed.

Lemma squeeze_replaceLF k repl s acc acc' run :
  Forall (λ c, c = LF) repl → repl ≠ [] → Forall (λ c, c = LF) run →
  (acc' = [] ↔ acc = [] ∧ run = []) →
  replaceRunsFrom isWhiteSpace 1 [SP] acc (replaceRunsFrom (N.eqb LF) k repl run s)
  = replaceRunsFrom isWhiteSpace 1 [SP] acc' s.
Proof.
  intros Hrepl Hne. revert acc acc' run.
  assert (HF : ∀ run, Forall (λ c, c = LF) run →
                 Forall (λ c, isWhiteSpace c = true) (flushRun k repl run)
                 ∧ (flushRun k repl run = [] ↔ run = [])).
  { intros run Hrun. unfold flushRun. destruct run as [|a run]; [by split|].
    destruct (k <=? _)%nat.
    - split; [|by split]. eapply Forall_impl; [exact Hrepl|]. by intros ? ->.
    - split.
      + apply Forall_rev. eapply Forall_impl; [exact Hrun|]. by intros ? ->.
      + split; [|done]. intros E. apply (f_equal (@length N)) in E.
        rewrite length_rev in E. done. }
  induction s as [|c s IH]; intros acc acc' run Hrun Hacc.
  - cbn [replaceRunsFrom]. destruct (HF run Hrun) as [Hw He].
    rewrite <- (app_nil_r (flushRun k repl run)), squeeze_through_spaces by done.
    cbn [replaceRunsFrom]. apply flushRun_1_same.
    split.
    + intros E. apply app_eq_nil in E as [E ->]. apply Hacc. split; [done|].
      apply He. destruct (flushRun k repl run) using rev_ind; [done|].
      rewrite rev_unit in E. done.
    + intros E. apply Hacc in E as [-> ->]. done.
  - cbn [replaceRunsFrom]. destruct (N.eqb_spec LF c) as [<-|Hc].
    + change (isWhiteSpace LF) with true. cbv iota. apply IH; [by constructor|].
      split; [done|]. by intros [_ ?].
    + destruct (HF run Hrun) as [Hw He].
      rewrite squeeze_through_spaces by done. cbn [replaceRunsFrom].
      destruct (isWhiteSpace c).
      * apply IH; [constructor|]. split; [done|]. by intros [? _].
      * assert (Hsame : flushRun 1 [SP] (rev (flushRun k repl run) ++ acc)
                        = flushRun 1 [SP] acc').
        { apply flushRun_1_same. split.
          - intros E. apply app_eq_nil in E as [E ->]. apply Hacc. split; [done|].
            apply He. destruct (flushRun k repl run) using rev_ind; [done|].
            rewrite rev_unit in E. done.
          - intros E. apply Hacc in E as [-> ->]. done. }
        rewrite Hsame. do 2 f_equal. apply IH; [constructor|]. by split.
Qed.

(** The cleaning of the text changes white space only, and leaves some
    wherever there was some: the pattern matches as often in the cleaned
    text as in the raw one. *)
Lemma headerOffsets_cleanText text :
  length (headerOffsets (cleanText text)) = length (headerOffsets text).
Proof.
  unfold cleanText. rewrite headers_trim.
  rewrite <- headers_squeeze. unfold replaceRuns at 1 2.
  rewrite (squeeze_replaceLF 4 [LF; LF; LF] (replaceCRLF text) [] [] []);
    [|by repeat constructor|done|constructor|by split].
  fold (replaceRuns isWhiteSpace 1 [SP] (replaceCRLF text)).
  by rewrite squeeze_replaceCRLF, headers_squeeze.
Qed.

(** ** C1, as the code has it *)

(** C1 (amended). The parser produces as many fiches as there are offsets
    at which the header pattern matches in the raw text, which are as many
    as in the cleaned text, one fiche per such offset; the span of a fiche
    runs from its header to the next header, or to the end of the text for
    the last one; the spans, in order, make up the cleaned text from the
    first header on, so that what precedes the first header belongs to no
    fiche; and the content of a fiche is its span once trimmed and
    normalised. *)
Theorem splitIntoPSEFiches_spans (text : jsstring) :
  let cleanedText := cleanText text in
  let matches := findMatches cleanedText in
  let offsets := headerOffsets cleanedText in
  let spans := imap (ficheSpan cleanedText matches) matches in
  length (splitIntoPSEFiches text) = length (headerOffsets text)
  ∧ length (splitIntoPSEFiches text) = length offsets
  ∧ spans = withNext (λ next o, (o, default (length cleanedText) next)) offsets
  ∧ concat ((λ ab, slice cleanedText ab.1 ab.2) <$> spans)
    = match offsets with [] => [] | first :: _ => drop first cleanedText end
  ∧ Import_script.content <$> splitIntoPSEFiches text
    = (λ ab, normalizeContent (trim (slice cleanedText ab.1 ab.2))) <$> spans.
Proof.
  intros cleanedText matches offsets spans.
  assert (Hoff : matches.*1 = offsets) by apply findMatches_offsets.
  assert (Hspans : spans = withNext (λ next o, (o, default (length cleanedText) next)) offsets).
  { unfold spans. by rewrite ficheSpan_offsets, Hoff. }
  assert (Hlen : length (splitIntoPSEFiches text) = length offsets).
  { unfold splitIntoPSEFiches. fold cleanedText matches.
    by rewrite length_imap, <- Hoff, length_fmap. }
  repeat split.
  - rewrite Hlen. apply headerOffsets_cleanText.
  - exact Hlen.
  - exact Hspans.
  - rewrite Hspans, <- Hoff.
    rewrite (concat_spans cleanedText 0 matches) by apply execLoop_chained.
    by destruct matches as [|[i0 m0] rest].
  - unfold splitIntoPSEFiches, spans. fold cleanedText matches.
    apply list_eq. intros i.
    rewrite !list_lookup_fmap, !list_lookup_imap.
    destruct (matches !! i) as [cur|]; [|done]. reflexivity.
Qed.

(** C1, counterexample. One header after one code unit of text: one fiche,
    whose content, and whose span as well, lack the first code unit of the
    cleaned text. *)
Lemma splitIntoPSEFiches_not_partition :
  let text := js "x[05PR08 / 12-2022] y" in
  let cleanedText := cleanText text in
  let matches := findMatches cleanedText in
  let spans := imap (ficheSpan cleanedText matches) matches in
  length (headerOffsets cleanedText) = 1%nat
  ∧ length (splitIntoPSEFiches text) = 1%nat
  ∧ concat (Import_script.content <$> splitIntoPSEFiches text) ≠ cleanedText
  ∧ concat ((λ ab, slice cleanedText ab.1 ab.2) <$> spans) ≠ cleanedText.
Proof. vm_compute. repeat split; discriminate. Qed.

End Raw_headers.

(** * The title of a fiche *)

Section Title.

Lemma removePageNumber_elem s c : c ∈ Fiches.removePageNumber s → c ∈ s.
Proof.
  induction s as [|a s IH]; cbn [Fiches.removePageNumber].
  - by destruct (Fiches.matchPageNumber []).
  - destruct (Fiches.matchPageNumber (a :: s)); [by intros ?%elem_of_nil|].
    intros [->|Hc]%elem_of_cons; [left|right; by apply IH].
Qed.

Lemma cleaned_title (title : jsstring) :
  let cleaned :=
    trim (replaceRuns isWhiteSpace 1 [SP]
            (Fiches.removePageNumber (replaceRuns (N.eqb 0x5F) 1 [SP] title))) in
  let t := match cleaned with [] => js "Document" | _ => cleaned end in
  t ≠ [] ∧ (0x5F ∉ t)
  ∧ Forall (λ c, isWhiteSpace c = true → c = SP) t
  ∧ runsBelow isWhiteSpace 2 0 t = true
  ∧ (∀ c, head t = Some c → isWhiteSpace c = false)
  ∧ (∀ c, last t = Some c → isWhiteSpace c = false).
Proof.
  intros cleaned t.
  set (inner := Fiches.removePageNumber (replaceRuns (N.eqb 0x5F) 1 [SP] title)).
  assert (Hu : 0x5F ∉ cleaned).
  { intros Hc%trim_elem.
    apply replaceRunsFrom_elem in Hc as [Hc|[Hc%elem_of_nil|Hc]]; [|done|].
    - apply list_elem_of_singleton in Hc. done.
    - apply removePageNumber_elem in Hc.
      pose proof (replaceRunsFrom_one (N.eqb 0x5F) [SP] [] title) as HF.
      rewrite Forall_forall in HF. specialize (HF _ Hc eq_refl).
      apply list_elem_of_singleton in HF. done. }
  assert (Hsp : Forall (λ c, isWhiteSpace c = true → c = SP) cleaned).
  { pose proof (replaceRunsFrom_one isWhiteSpace [SP] [] inner) as Hin.
    destruct (trim_middle (replaceRuns isWhiteSpace 1 [SP] inner)) as (w & w' & Hmid & _ & _).
    unfold replaceRuns in Hmid. rewrite Hmid in Hin.
    apply Forall_app in Hin as [_ Hin]. apply Forall_app in Hin as [Hin _].
    eapply Forall_impl; [exact Hin|]. simpl. intros c Hc Hws.
    by apply list_elem_of_singleton, Hc. }
  assert (Hruns : runsBelow isWhiteSpace 2 0 cleaned = true).
  { apply trim_runsBelow, replaceRunsFrom_runsBelow;
      [by repeat constructor|simpl; lia|lia|constructor]. }
  assert (Hends : (∀ c, head cleaned = Some c → isWhiteSpace c = false)
                  ∧ (∀ c, last cleaned = Some c → isWhiteSpace c = false))
    by apply trim_ends.
  unfold t. clear t. clearbody cleaned. destruct cleaned as [|c0 rest].
  - split; [done|]. split; [vm_compute; set_solver|]. split; [by repeat constructor|].
    split; [by vm_compute|]. split; intros c [= <-]; by vm_compute.
  - split; [done|]. split; [done|]. split; [done|]. split; [done|]. exact Hends.
Qed.

(** X25. The title of a parsed fiche is never empty; it holds no underscore,
    no white space but single spaces, and none at its ends. *)
Theorem parseFiche_title_clean (d : DocumentMatch) :
  let t := Fiches.title (Fiches.parseFiche d) in
  t ≠ [] ∧ (0x5F ∉ t)
  ∧ Forall (λ c, isWhiteSpace c = true → c = SP) t
  ∧ runsBelow isWhiteSpace 2 0 t = true
  ∧ (∀ c, head t = Some c → isWhiteSpace c = false)
  ∧ (∀ c, last t = Some c → isWhiteSpace c = false).
Proof.
  unfold Fiches.parseFiche. repeat (destruct (_ : _ * _)); cbn [Fiches.title].
  apply cleaned_title.
Qed.

End Title.

(** * A document without a header *)

Section No_header.

Lemma firstMatch_no_bracket s : 0x5B ∉ s → firstMatch Fiches.matchFicheHeader s = None.
Proof.
  induction s as [|a s IH]; intros Hs; [done|].
  cbn [firstMatch]. unfold Fiches.matchFicheHeader at 1, expect.
  destruct (a =? 0x5B) eqn:E; [apply N.eqb_eq in E; set_solver|].
  cbn [mbind option_bind]. apply IH. set_solver.
Qed.

(** X26. A document whose first line holds no opening bracket, as the chunks
    of the fallback splitter may be: the reference is the stored one, or
    empty; the date and the level are empty and the title is the word
    Document; and without a stored reference the type is unknown. *)
Theorem parseFiche_without_header (d : DocumentMatch) :
  0x5B ∉ firstLineOf (content d) →
  Fiches.ref (Fiches.parseFiche d) = default [] (fiche_ref d)
  ∧ Fiches.date (Fiches.parseFiche d) = []
  ∧ Fiches.level (Fiches.parseFiche d) = []
  ∧ Fiches.title (Fiches.parseFiche d) = js "Document"
  ∧ Fiches.source (Fiches.parseFiche d) = source d
  ∧ (fiche_ref d = None →
     Fiches.type (Fiches.parseFiche d) = Fiches.unknown
     ∧ Fiches.typeName (Fiches.parseFiche d) = js "Document").
Proof.
  intros Hb%firstMatch_no_bracket. unfold Fiches.parseFiche. cbv zeta. rewrite Hb.
  cbv beta iota.
  destruct (firstMatch Fiches.matchType (orElseEmpty (fiche_ref d))) as [typeCode|] eqn:Et.
  - repeat (destruct (_ : _ * _)).
    cbn [Fiches.ref Fiches.date Fiches.level Fiches.title Fiches.source Fiches.type
         Fiches.typeName].
    split; [done|]. split; [done|]. split; [done|]. split; [by vm_compute|]. split; [done|].
    intros Hn. rewrite Hn in Et. by vm_compute in Et.
  - cbn [Fiches.ref Fiches.date Fiches.level Fiches.title Fiches.source Fiches.type
         Fiches.typeName].
    split; [done|]. split; [done|]. split; [done|]. split; [by vm_compute|]. by split.
Qed.

End No_header.

(** * The best documents *)

Section Best.
Context `{CM : CaseMapping}.

Lemma StronglySorted_split {A} (R : A → A → Prop) (l1 l2 : list A) x y :
  StronglySorted R (l1 ++ l2) → x ∈ l1 → y ∈ l2 → R x y.
Proof.
  induction l1 as [|a l1 IH]; intros Hs Hx Hy; [by apply elem_of_nil in Hx|].
  cbn [app] in Hs. apply StronglySorted_inv in Hs as [Hs Ha].
  apply elem_of_cons in Hx as [->|Hx].
  - rewrite Forall_forall in Ha. apply Ha. apply elem_of_app. by right.
  - by apply IH.
Qed.

Lemma finish_best k sourceFilter merged :
  let pool := filterBySource sourceFilter merged in
  let out := take k (sortBySimilarity pool) in
  length out = Nat.min k (length pool)
  ∧ ∃ dropped, out ++ dropped ≡ₚ pool
               ∧ ∀ x y, x ∈ out → y ∈ dropped → (similarity y <= similarity x)%Q.
Proof.
  intros pool out. split.
  - unfold out. rewrite length_take. by rewrite (Permutation_length (sortBySimilarity_perm pool)).
  - exists (drop k (sortBySimilarity pool)). split.
    + unfold out. rewrite take_drop. apply sortBySimilarity_perm.
    + intros x y Hx Hy.
      apply (StronglySorted_split descending (take k (sortBySimilarity pool))
               (drop k (sortBySimilarity pool)) x y); [|done..].
      rewrite take_drop. apply sortBySimilarity_sorted.
Qed.

(** X27. The routes keep the best documents: of the merged documents that
    pass the filter on the source, the result holds the 8 first (6 in the
    second chat route, 5 in the fiche route) or all of them if they are
    fewer, and no document left out has a higher similarity than a document
    of the result. *)
Theorem searchDocuments_keeps_the_best (originalQuery : jsstring)
    (exact text : list DocumentMatch) (vector : option (list DocumentMatch))
    (sourceFilter : option jsstring) :
  let keeps (k : nat) (pool out : list DocumentMatch) :=
    length out = Nat.min k (length pool)
    ∧ ∃ dropped, out ++ dropped ≡ₚ pool
                 ∧ ∀ x y, x ∈ out → y ∈ dropped → (similarity y <= similarity x)%Q in
  let gate := relevanceGate (List.filter (longerThan 4) (wordsOf originalQuery)) in
  keeps 8%nat
    (filterBySource sourceFilter
       (mergeResults (λ doc, doc) (exact ++ default [] vector ++ text)))
    (Chat.combine exact vector text sourceFilter)
  ∧ keeps 6%nat
      (filterBySource sourceFilter (mergeResults gate (exact ++ default [] vector)))
      (Chat2.combine originalQuery exact vector sourceFilter)
  ∧ keeps 5%nat
      (filterBySource sourceFilter (mergeResults gate (exact ++ default [] vector)))
      (Fiches.combine originalQuery exact vector sourceFilter).
Proof.
  cbv zeta. split; [|split]; apply finish_best.
Qed.

End Best.

(** * The hypotheses at work *)

Lemma fiche_content_trimmed_witness :
  let f :=
    {| Import_script.content :=
         js "[05PR08 / 12-2022] PSE① Hémorragie externe" ++ [LF] ++ js "Body text...";
       Import_script.chapter := js "05";
       Import_script.chapterName := js "Urgences vitales";
       Import_script.ficheType := js "PR";
       Import_script.ficheTypeName := js "Procédure";
       Import_script.ficheRef := js "05PR08";
       Import_script.ficheNumber := js "08";
       Import_script.updateDate := js "12-2022";
       Import_script.pseLevel := Some 1 |} in
  f ∈ Import_script.splitIntoPSEFiches scenarioText
  ∧ runsBelow isWhiteSpace 3 0 (Import_script.content f) = true.
Proof.
  intros f.
  assert (Hf : f ∈ Import_script.splitIntoPSEFiches scenarioText) by (vm_compute; left).
  split; [exact Hf|].
  exact (proj1 (fiche_content_trimmed scenarioText f Hf)).
Defined.

Lemma fiche_content_begins_with_header_witness :
  let f :=
    {| Import_script.content :=
         js "[05PR08 / 12-2022] PSE① Hémorragie externe" ++ [LF] ++ js "Body text...";
       Import_script.chapter := js "05";
       Import_script.chapterName := js "Urgences vitales";
       Import_script.ficheType := js "PR";
       Import_script.ficheTypeName := js "Procédure";
       Import_script.ficheRef := js "05PR08";
       Import_script.ficheNumber := js "08";
       Import_script.updateDate := js "12-2022";
       Import_script.pseLevel := Some 1 |} in
  f ∈ Import_script.splitIntoPSEFiches scenarioText
  ∧ ∃ m, Import_script.matchHeader (Import_script.content f) = Some m
         ∧ Import_script.g_chapter m = Import_script.chapter f
         ∧ Import_script.g_ficheType m = Import_script.ficheType f
         ∧ Import_script.g_ficheNumber m = Import_script.ficheNumber f
         ∧ Import_script.g_month m ++ [0x2D] ++ Import_script.g_year m
           = Import_script.updateDate f.
Proof.
  intros f.
  assert (Hf : f ∈ Import_script.splitIntoPSEFiches scenarioText) by (vm_compute; left).
  split; [exact Hf|].
  exact (fiche_content_begins_with_header scenarioText f Hf).
Defined.

Lemma chunks_are_pieces_witness :
  let text :=
    js "Alerter les secours. Surveiller la victime jusqu'à leur arrivée sur les lieux." in
  text ∈ Import_script.splitIntoChunks text
  ∧ (50 < length text)%nat
  ∧ (Z.of_nat (length text) ≤ Import_script.CHUNK_SIZE + 1)%Z.
Proof.
  intros text.
  assert (Hc : text ∈ Import_script.splitIntoChunks text) by (vm_compute; left).
  split; [exact Hc|].
  pose proof (chunks_are_pieces text text Hc) as H.
  exact (conj (proj1 (proj2 H)) (proj1 (proj2 (proj2 H)))).
Defined.

Lemma parseFiche_reads_header_witness :
  let d :=
    doc 1 (js "[05PR08 / 12-2022] PSE① Hémorragie externe" ++ [LF] ++ js "Body text...")
      (js "PSE1.pdf") 0.5 in
  let m :=
    {| Import_script.fullMatch := js "[05PR08 / 12-2022]";
       Import_script.g_chapter := js "05";
       Import_script.g_ficheType := js "PR";
       Import_script.g_ficheNumber := js "08";
       Import_script.g_month := js "12";
       Import_script.g_year := js "2022" |} in
  Import_script.matchHeader (content d) = Some m
  ∧ (LF ∉ Import_script.fullMatch m)
  ∧ length (Import_script.g_ficheNumber m) = 2%nat
  ∧ Fiches.ref (Fiches.parseFiche d)
    = Import_script.g_chapter m ++ Import_script.g_ficheType m ++ Import_script.g_ficheNumber m.
Proof.
  intros d m.
  assert (H1 : Import_script.matchHeader (content d) = Some m) by (vm_compute; reflexivity).
  assert (H2 : LF ∉ Import_script.fullMatch m)
    by compute_done.
  assert (H3 : length (Import_script.g_ficheNumber m) = 2%nat) by reflexivity.
  split; [exact H1|]. split; [exact H2|]. split; [exact H3|].
  exact (proj1 (parseFiche_reads_header d m H1 H2 H3)).
Defined.

Lemma parseFiche_cuts_long_number_witness :
  let d :=
    doc 1 (js "[05PR123 / 12-2022] PSE① Hémorragie externe" ++ [LF] ++ js "Body text...")
      (js "PSE1.pdf") 0.5 in
  let m :=
    {| Import_script.fullMatch := js "[05PR123 / 12-2022]";
       Import_script.g_chapter := js "05";
       Import_script.g_ficheType := js "PR";
       Import_script.g_ficheNumber := js "123";
       Import_script.g_month := js "12";
       Import_script.g_year := js "2022" |} in
  Import_script.matchHeader (content d) = Some m
  ∧ (LF ∉ Import_script.fullMatch m)
  ∧ (3 ≤ length (Import_script.g_ficheNumber m))%nat
  ∧ Fiches.ref (Fiches.parseFiche d)
    = Import_script.g_chapter m ++ Import_script.g_ficheType m
      ++ take 2 (Import_script.g_ficheNumber m).
Proof.
  intros d m.
  assert (H1 : Import_script.matchHeader (content d) = Some m) by (vm_compute; reflexivity).
  assert (H2 : LF ∉ Import_script.fullMatch m)
    by compute_done.
  assert (H3 : (3 ≤ length (Import_script.g_ficheNumber m))%nat) by (vm_compute; lia).
  split; [exact H1|]. split; [exact H2|]. split; [exact H3|].
  exact (proj1 (parseFiche_cuts_long_number d m H1 H2 H3)).
Defined.

Lemma parseFiche_without_header_witness :
  let d := doc 3 (js "Alerter les secours") (js "PSC1.pdf") 0.5 in
  (0x5B ∉ firstLineOf (content d))
  ∧ Fiches.title (Fiches.parseFiche d) = js "Document".
Proof.
  intros d.
  assert (H1 : 0x5B ∉ firstLineOf (content d))
    by compute_done.
  split; [exact H1|].
  exact (proj1 (proj2 (proj2 (proj2 (parseFiche_without_header d H1))))).
Defined.

Lemma import_without_header_witness :
  let env := recorder (js "Bonjour") [] in
  let filePath := js "pse1.pdf" in
  Importer.isPSEDocument (CM := plainCase) (Importer.basename env filePath) = true
  ∧ Importer.extractTextFromPDF env [] filePath = ([Read filePath], Normal (js "Bonjour"))
  ∧ (0x5B ∉ js "Bonjour")
  ∧ Importer.importDocument (CM := plainCase) env filePath []
    = ([Read filePath], Normal (0, 0)%nat).
Proof.
  intros env filePath.
  assert (H1 : Importer.isPSEDocument (CM := plainCase) (Importer.basename env filePath) = true)
    by (vm_compute; reflexivity).
  assert (H2 : Importer.extractTextFromPDF env [] filePath
               = ([Read filePath], Normal (js "Bonjour"))) by (vm_compute; reflexivity).
  assert (H3 : 0x5B ∉ js "Bonjour") by compute_done.
  split; [exact H1|]. split; [exact H2|]. split; [exact H3|].
  exact (import_without_header (CM := plainCase) env filePath (js "Bonjour") []
           [Read filePath] H1 H2 H3).
Defined.

Lemma unreadable_file_stops_run_witness :
  let env := recorder (js "Bonjour") [js "b.pdf"] in
  Importer.importFiles (CM := plainCase) env [js "a.pdf"] []
  = ([Read (js "a.pdf")], Normal [(0, 0)%nat])
  ∧ Importer.extractTextFromPDF env [Read (js "a.pdf")] (js "b.pdf")
    = ([Read (js "b.pdf"); Read (js "a.pdf")], Throw (js "ENOENT"))
  ∧ Importer.importFiles (CM := plainCase) env ([js "a.pdf"] ++ js "b.pdf" :: [js "c.pdf"]) []
    = ([Read (js "b.pdf"); Read (js "a.pdf")], Throw (js "ENOENT")).
Proof.
  intros env.
  assert (H1 : Importer.importFiles (CM := plainCase) env [js "a.pdf"] []
               = ([Read (js "a.pdf")], Normal [(0, 0)%nat])) by (vm_compute; reflexivity).
  assert (H2 : Importer.extractTextFromPDF env [Read (js "a.pdf")] (js "b.pdf")
               = ([Read (js "b.pdf"); Read (js "a.pdf")], Throw (js "ENOENT")))
    by (vm_compute; reflexivity).
  split; [exact H1|]. split; [exact H2|].
  exact (unreadable_file_stops_run (CM := plainCase) env [js "a.pdf"] [js "c.pdf"] (js "b.pdf")
           [] [Read (js "a.pdf")] [Read (js "b.pdf"); Read (js "a.pdf")] [(0, 0)%nat]
           (js "ENOENT") H1 H2).
Defined.
